(** * SODA: Self-Organised Direction-Aware data partitioning

    A shallow embedding of the partitioning engine of
    [src/Class/lathes_model.py] (functions [grid_set], [pi_calculator],
    [Globaldensity_Calculator], [hand_dist], [chessboard_division_njit],
    [ChessBoard_PeakIdentification_njit], [cloud_member_recruitment_njit]
    and [SelfOrganisedDirectionAwareDataPartitioning]) and the properties
    its specification states about it.

    Conventions of the embedding.
    - A NumPy 2-D float array is a list of rows ([matrix]); a 1-D array is
      a list.  Matrices handed to the engine are rectangular.
    - The arithmetic of the cells is an interface ([Scalar]) with two
      instances: IEEE binary64 (Rocq's primitive floats), on which every
      definition evaluates, and the real numbers, the exact arithmetic
      the algebraic statements of the specification are about.
    - Python exceptions are values of [exn]; a function that may raise
      returns a [result].
    - ndarray objects that are reachable from the caller, or copied from
      such an object and then written to, live in a [heap] and are
      referred to by location; functions that touch them are written in
      the monad [M] (state and exceptions).  Arrays that are private to
      one call and never shared are threaded as plain values. *)

From Stdlib Require Import String.
From Stdlib Require Import ZArith List Bool Arith Lia Sorted Permutation.
From Stdlib Require Import Floats Uint63.
From Stdlib Require Import Reals Lra Psatz.
Import ListNotations.

Set Implicit Arguments.

(** ** Exceptions and results *)

Inductive exn : Set :=
| IndexError
| ValueError
| ZeroDivisionError
| TypeError
| UnboundLocalError.

Inductive result (A : Type) : Type :=
| Ok (a : A)
| Raise (e : exn).

Arguments Ok {A} a.
Arguments Raise {A} e.

Definition rbind {A B} (r : result A) (k : A -> result B) : result B :=
  match r with
  | Ok a => k a
  | Raise e => Raise e
  end.

Declare Scope res_scope.
Delimit Scope res_scope with res.
Notation "x <- r ;; k" := (rbind r (fun x => k))
  (at level 61, r at next level, right associativity) : res_scope.
Notation "' p <- r ;; k" := (rbind r (fun x => let p := x in k))
  (at level 61, p pattern, r at next level, right associativity) : res_scope.

(** [for x in l: s = f x s], stopping at the first exception. *)
Fixpoint for_each {A S} (f : A -> S -> result S) (l : list A) (s : S)
  : result S :=
  match l with
  | [] => Ok s
  | a :: l' =>
      match f a s with
      | Ok s' => for_each f l' s'
      | Raise e => Raise e
      end
  end.

(** [[f x for x in l]] where [f] may raise. *)
Fixpoint map_res {A B} (f : A -> result B) (l : list A) : result (list B) :=
  match l with
  | [] => Ok []
  | a :: l' =>
      match f a with
      | Ok b =>
          match map_res f l' with
          | Ok bs => Ok (b :: bs)
          | Raise e => Raise e
          end
      | Raise e => Raise e
      end
  end.

(** Subscript read [l[i]] and subscript write [l[i] = v]; both raise
    [IndexError] out of range (indices here are never negative). *)
Definition getitem {A} (l : list A) (i : nat) : result A :=
  match nth_error l i with
  | Some a => Ok a
  | None => Raise IndexError
  end.

Fixpoint upd {A} (l : list A) (i : nat) (v : A) : list A :=
  match l, i with
  | [], _ => []
  | _ :: l', O => v :: l'
  | a :: l', S i' => a :: upd l' i' v
  end.

Definition setitem {A} (l : list A) (i : nat) (v : A) : result (list A) :=
  if i <? length l then Ok (upd l i v) else Raise IndexError.

(** ** The arithmetic of array cells *)

Class Scalar (F : Type) : Type := {
  ofZ : Z -> F;              (* an integer literal or a whole-number count *)
  fadd : F -> F -> F;
  fsub : F -> F -> F;
  fmul : F -> F -> F;
  fdiv : F -> F -> F;
  fsqrt : F -> F;            (* np.sqrt *)
  rt2 : F -> F;              (* x ** .5 *)
  rt4 : F -> F;              (* x ** .25 *)
  fltb : F -> F -> bool;     (* x < y *)
  feqb : F -> F -> bool;     (* x == y *)
  fisnan : F -> bool         (* np.isnan *)
}.

Declare Scope sc_scope.
Delimit Scope sc_scope with sc.
Infix "+" := fadd : sc_scope.
Infix "-" := fsub : sc_scope.
Infix "*" := fmul : sc_scope.
Infix "/" := fdiv : sc_scope.
Infix "<?" := fltb : sc_scope.
Infix "=?" := feqb : sc_scope.

(** IEEE binary64, the cell type of the arrays the program runs on.
    [x ** 2] is read as [x * x]; [x ** .5] and [x ** .25] are read as one
    and two correctly rounded square roots. *)
Definition float_ofZ (z : Z) : float :=
  match z with
  | Zneg p => PrimFloat.opp (PrimFloat.of_uint63 (Uint63.of_Z (Zpos p)))
  | _ => PrimFloat.of_uint63 (Uint63.of_Z z)
  end.

#[export] Instance float_scalar : Scalar float := {
  ofZ := float_ofZ;
  fadd := PrimFloat.add;
  fsub := PrimFloat.sub;
  fmul := PrimFloat.mul;
  fdiv := PrimFloat.div;
  fsqrt := PrimFloat.sqrt;
  rt2 := PrimFloat.sqrt;
  rt4 := fun x => PrimFloat.sqrt (PrimFloat.sqrt x);
  fltb := PrimFloat.ltb;
  feqb := PrimFloat.eqb;
  fisnan := PrimFloat.is_nan
}.

(** Exact real arithmetic.  The reals have no NaN and no infinity, and
    comparisons are exact where binary64 compares rounded values: a
    statement on this instance keeps every quotient and every root inside
    its domain by hypothesis, and is about the values computed, not about
    which branch or exception the binary64 run takes. *)
Definition Rltb (x y : R) : bool := if Rlt_dec x y then true else false.
Definition Reqb (x y : R) : bool := if Req_dec_T x y then true else false.

#[export] Instance real_scalar : Scalar R := {
  ofZ := IZR;
  fadd := Rplus;
  fsub := Rminus;
  fmul := Rmult;
  fdiv := Rdiv;
  fsqrt := sqrt;
  rt2 := sqrt;
  rt4 := fun x => sqrt (sqrt x);
  fltb := Rltb;
  feqb := Reqb;
  fisnan := fun _ => false
}.

(** ** The engine *)

Section Engine.

Context {F : Type} {SF : Scalar F}.

Local Open Scope sc_scope.

(** A 2-D array as the list of its rows.  A list without rows does not
    record a width: statements about the values computed from an array
    of shape [(0, W)] are outside this model. *)
Definition matrix : Type := list (list F).

Definition ofnat (n : nat) : F := ofZ (Z.of_nat n).
Definition sq (x : F) : F := x * x.            (* np.power(x, 2), x ** 2 *)

(** *** NumPy helpers *)

Fixpoint zipw {A B C} (f : A -> B -> C) (u : list A) (v : list B) : list C :=
  match u, v with
  | a :: u', b :: v' => f a b :: zipw f u' v'
  | _, _ => []
  end.

Definition enumerate {A} (l : list A) : list (nat * A) :=
  combine (seq 0 (length l)) l.

Definition ncols (m : matrix) : nat := length (hd [] m).

(** [np.sum] of a 1-D array, and the builtin [sum], which starts at 0.
    The fold adds from left to right; NumPy adds long arrays pairwise,
    which in binary64 can differ in the last bit. *)
Definition vsum (l : list F) : F := fold_left fadd l (ofZ 0).

(** Sum of the rows: [sum(m)], [m.sum(0)]. *)
Definition colsum (m : matrix) : list F :=
  fold_left (zipw fadd) m (repeat (ofZ 0) (ncols m)).

(** [m.mean(0)]: column-wise mean. *)
Definition mean0 (m : matrix) : list F :=
  map (fun s => s / ofnat (length m)) (colsum m).

(** [np.mean] of a 1-D array. *)
Definition mean1 (l : list F) : F := vsum l / ofnat (length l).

(** [np.sum(np.power(m,2),axis=1)]: squared norm of every row. *)
Definition sumsq (r : list F) : F := vsum (map sq r).

(** [m[:,i]] and [m[:,i] = v] on a rectangular matrix. *)
Definition getcol (i : nat) (m : matrix) : list F :=
  map (fun r => nth i r (ofZ 0)) m.

Definition setcol (i : nat) (v : list F) (m : matrix) : matrix :=
  zipw (fun r x => upd r i x) m v.

(** [np.argwhere(np.isnan(m))]: the positions of the NaN cells, in
    row-major order. *)
Definition nan_cols (r : list F) : list nat :=
  map fst (filter (fun p => fisnan (snd p)) (enumerate r)).

Definition argwhere_isnan (m : matrix) : list (nat * nat) :=
  concat (map (fun p => map (fun c => (fst p, c)) (nan_cols (snd p)))
              (enumerate m)).

(** [m[tuple(seq[::])] = v] for a 2-D array [m], where [seq] is the
    [k x 2] array of positions returned by [argwhere].  [tuple(seq[::])]
    is the tuple of the [k] rows of [seq], so NumPy reads it as [k] index
    arrays, one per axis:
    - one position [(r,c)]: a single index array [[r,c]] on axis 0, so the
      two whole rows [r] and [c] are assigned;
    - two positions [(r0,c0)], [(r1,c1)]: index arrays [[r0,c0]] on axis 0
      and [[r1,c1]] on axis 1, so the cells [(r0,r1)] and [(c0,c1)] are
      assigned;
    - three positions or more: more indices than the array has axes,
      [IndexError].
    Any index outside its axis is an [IndexError] as well. *)
Definition setcell (m : matrix) (r c : nat) (v : F) : result matrix :=
  (row <- getitem m r ;;
   row' <- setitem row c v ;;
   setitem m r row')%res.

Definition setrow_const (m : matrix) (r : nat) (v : F) : result matrix :=
  (row <- getitem m r ;;
   setitem m r (map (fun _ => v) row))%res.

Definition setitem_tuple (m : matrix) (seq : list (nat * nat)) (v : F)
  : result matrix :=
  match seq with
  | [] => Ok m
  | [(r, c)] =>
      if (r <? length m)%nat && (c <? length m)%nat then
        (m1 <- setrow_const m r v ;; setrow_const m1 c v)%res
      else Raise IndexError
  | [(r0, c0); (r1, c1)] =>
      if (r0 <? length m)%nat && (c0 <? length m)%nat
         && (r1 <? ncols m)%nat && (c1 <? ncols m)%nat then
        (m1 <- setcell m r0 r1 v ;; setcell m1 c0 c1 v)%res
      else Raise IndexError
  | _ => Raise IndexError
  end.

(** [a.argsort()]: the indices that sort [a] in ascending order, NaN
    last.  NumPy leaves the order of equal keys to its sorting routine;
    the insertion below keeps them in their original order. *)
Definition key_le (x y : F) : bool :=
  if fisnan y then true else if fisnan x then false else negb (y <? x).

Fixpoint insert_key (p : nat * F) (l : list (nat * F)) : list (nat * F) :=
  match l with
  | [] => [p]
  | q :: l' =>
      if key_le (snd q) (snd p) then q :: insert_key p l' else p :: l
  end.

Definition argsort (a : list F) : list nat :=
  map fst (fold_left (fun acc p => insert_key p acc) (enumerate a) []).

(** [a[index]] with an index array. *)
Definition take {A} (a : list A) (index : list nat) : result (list A) :=
  map_res (getitem a) index.

(** Python's [max] of a list: the first element no later one is greater
    than ([ValueError] on the empty list). *)
Definition pymax (l : list F) : result F :=
  match l with
  | [] => Raise ValueError
  | x :: l' => Ok (fold_left (fun m y => if m <? y then y else m) l' x)
  end.

(** The search loop shared by [chessboard_division_njit] and
    [cloud_member_recruitment_njit]:
    [b = 0; mini = l[0]; for ii in range(1,len(l)): if l[ii] < mini: ...]. *)
Fixpoint argmin_from (l : list F) (ii b : nat) (mini : F) : nat :=
  match l with
  | [] => b
  | x :: l' =>
      if x <? mini then argmin_from l' (S ii) ii x
      else argmin_from l' (S ii) b mini
  end.

Definition argmin (l : list F) : result nat :=
  match l with
  | [] => Raise IndexError
  | x :: l' => Ok (argmin_from l' 1 0 x)
  end.

(** *** The store of ndarray objects *)

Definition loc : Set := nat.
Definition heap : Type := list matrix.
Definition M (A : Type) : Type := heap -> result A * heap.

Definition ret {A} (a : A) : M A := fun h => (Ok a, h).
Definition mbind {A B} (c : M A) (k : A -> M B) : M B :=
  fun h =>
    match c h with
    | (Ok a, h') => k a h'
    | (Raise e, h') => (Raise e, h')
    end.
Definition lift {A} (r : result A) : M A := fun h => (r, h).

(** A new array object. *)
Definition alloc (m : matrix) : M loc := fun h => (Ok (length h), h ++ [m]).
(** The current contents of an object. *)
Definition load (l : loc) : M matrix := fun h => (getitem h l, h).
(** In-place assignment to an object. *)
Definition store (l : loc) (m : matrix) : M unit :=
  fun h =>
    match setitem h l m with
    | Ok h' => (Ok tt, h')
    | Raise e => (Raise e, h)
    end.

Fixpoint for_M {A} (f : A -> M unit) (l : list A) : M unit :=
  match l with
  | [] => ret tt
  | a :: l' => mbind (f a) (fun _ => for_M f l')
  end.

End Engine.

Arguments matrix F : clear implicits.
Arguments heap F : clear implicits.
Arguments M F A : clear implicits.

Declare Scope m_scope.
Delimit Scope m_scope with M.
Notation "x <~ c ;; k" := (mbind c (fun x => k))
  (at level 61, c at next level, right associativity) : m_scope.
Notation "' p <~ c ;; k" := (mbind c (fun x => let p := x in k))
  (at level 61, p pattern, c at next level, right associativity) : m_scope.
Notation "c ;;; k" := (mbind c (fun _ => k))
  (at level 61, right associativity) : m_scope.

Section Pipeline.

Context {F : Type} {SF : Scalar F}.

Local Open Scope sc_scope.

(** *** Stage 1: [grid_set] *)

(** One turn of [for i in range(W): new_data[:,i] = new_data[:,i] / Xnorm]. *)
Definition normalise_col (new_data : loc) (Xnorm : list F) (i : nat)
  : M F unit :=
  (nd <~ load new_data ;;
   store new_data (setcol i (zipw fdiv (getcol i nd) Xnorm) nd))%M.

Definition grid_set (data : loc) (N : F)
  : M F (F * list F * list F * F * F) :=
  (d <~ load data ;;
   let W := ncols d in
   let AvD1 := mean0 d in
   let X1 := mean1 (map sumsq d) in
   let grid_trad := fsqrt (ofZ 2 * (X1 - vsum (zipw fmul AvD1 AvD1))) / N in
   let Xnorm := map fsqrt (map sumsq d) in
   new_data <~ alloc d ;;
   for_M (normalise_col new_data Xnorm) (seq 0 W) ;;;
   nd <~ load new_data ;;
   let seq := argwhere_isnan nd in
   match seq with
   | [] => ret tt
   | _ => nd' <~ lift (setitem_tuple nd seq (ofZ 1)) ;; store new_data nd'
   end ;;;
   nd <~ load new_data ;;
   let AvD2 := mean0 nd in
   let grid_angl := fsqrt (ofZ 1 - vsum (zipw fmul AvD2 AvD2)) / N in
   ret (X1, AvD1, AvD2, grid_trad, grid_angl))%M.

(** *** Stage 2: [pi_calculator] and [Globaldensity_Calculator] *)

Definition vsub (u v : list F) : list F := zipw fsub u v.

Definition pi_calculator (Uniquesample : matrix F) (mode : string)
  : result (list F) :=
  let UN := length Uniquesample in
  if String.eqb mode "euclidean"%string then
    match Uniquesample with
    | [] => Raise TypeError           (* sum(sum(empty)) is sum(0) *)
    | _ =>
        let AA1 := mean0 Uniquesample in
        let X1 := vsum (colsum (map (map sq) Uniquesample)) / ofnat UN in
        let DT1 := X1 - vsum (map sq AA1) in
        let aux2 := map (fun r => vsub r AA1) Uniquesample in
        Ok (map (fun r => sumsq r + DT1) aux2)
    end
  else if String.eqb mode "cosine"%string then
    match Uniquesample with
    | [] => Raise ValueError          (* np.sum(..., axis=1) of a 1-D array *)
    | _ =>
        let Xnorm := map (fun r => fsqrt (sumsq r)) Uniquesample in
        let Uniquesample1 :=
          zipw (fun r n => map (fun x => x / n) r) Uniquesample Xnorm in
        let AA2 := mean0 Uniquesample1 in
        let X2 := ofZ 1 in
        let DT2 := X2 - vsum (map sq AA2) in
        let aux2 := map (fun r => vsub r AA2) Uniquesample1 in
        Ok (map (fun r => sumsq r + DT2) aux2)
    end
  else Raise UnboundLocalError.        (* uspi was never assigned *)

Definition Globaldensity_Calculator (Uniquesample : loc) (distancetype : string)
  : M F (list F * list F * list F * loc) :=
  (U <~ load Uniquesample ;;
   uspi1 <~ lift (pi_calculator U distancetype) ;;
   let sum_uspi1 := vsum uspi1 in
   let Density_1 := map (fun x => x / sum_uspi1) uspi1 in
   uspi2 <~ lift (pi_calculator U "cosine"%string) ;;
   let sum_uspi2 := vsum uspi2 in
   let Density_2 := map (fun x => x / sum_uspi2) uspi2 in
   let GD := zipw fadd Density_2 Density_1 in
   let index := rev (argsort GD) in
   GD' <~ lift (take GD index) ;;
   U' <~ lift (take U index) ;;
   Uniquesample' <~ alloc U' ;;       (* indexing by an array copies *)
   ret (GD', Density_1, Density_2, Uniquesample'))%M.

(** *** The dual distance: [hand_dist] *)

(** The four running sums of the inner loop, in the order
    [(aux, dot, denom_a, denom_b)]. *)
Definition hand_acc (acc : F * F * F * F) (ab : F * F) : F * F * F * F :=
  let '(aux, dot, denom_a, denom_b) := acc in
  let '(a, b) := ab in
  (aux + sq (a - b), dot + a * b, denom_a + a * a, denom_b + b * b).

Definition hand_row (XA XBi : list F) : result (F * F) :=
  match XBi with
  | [] => Raise ZeroDivisionError     (* W = 0: the integers 0 / 0.0 *)
  | _ =>
      if (length XA <? length XBi)%nat then Raise IndexError
      else
        let '(aux, dot, denom_a, denom_b) :=
          fold_left hand_acc (combine XA XBi)
                    (ofZ 0, ofZ 0, ofZ 0, ofZ 0) in
        Ok (rt2 aux, rt4 (sq (ofZ 1 - dot / (rt2 denom_a * rt2 denom_b))))
  end.

Definition hand_dist (XA : list F) (XB : matrix F) : result (list (F * F)) :=
  map_res (hand_row XA) XB.

(** *** Stage 3: [chessboard_division_njit] *)

Record boxes : Type := {
  BOX : matrix F;
  BOX_miu : matrix F;
  BOX_S : list Z;      (* float cells that hold whole numbers only *)
  BOX_X : list F;
  BOXMT : list F;
  contador : nat;
  NB : nat
}.

(** [COUNT == 0]: the sample opens a new box at row [contador]. *)
Definition new_box (x : list F) (gd : F) (s : boxes) : result boxes :=
  (BOX' <- setitem (BOX s) (contador s) x ;;
   BOX_miu' <- setitem (BOX_miu s) (contador s) x ;;
   BOX_S' <- setitem (BOX_S s) (contador s) 1%Z ;;
   BOX_X' <- setitem (BOX_X s) (contador s) (sumsq x) ;;
   BOXMT' <- setitem (BOXMT s) (contador s) gd ;;
   Ok {| BOX := BOX'; BOX_miu := BOX_miu'; BOX_S := BOX_S';
         BOX_X := BOX_X'; BOXMT := BOXMT';
         contador := S (contador s); NB := S (NB s) |})%res.

(** [COUNT >= 1]: the sample is absorbed by box [k = SQ[b]]. *)
Definition absorb (k : nat) (x : list F) (gd : F) (s : boxes) : result boxes :=
  (n0 <- getitem (BOX_S s) k ;;
   let n := (n0 + 1)%Z in
   BOX_S' <- setitem (BOX_S s) k n ;;
   miu <- getitem (BOX_miu s) k ;;
   let w := (ofZ n - ofZ 1) / ofZ n in
   BOX_miu' <- setitem (BOX_miu s) k
                 (zipw fadd (map (fun m => w * m) miu)
                            (map (fun xi => xi / ofZ n) x)) ;;
   X <- getitem (BOX_X s) k ;;
   BOX_X' <- setitem (BOX_X s) k (w * X + sumsq x / ofZ n) ;;
   mt <- getitem (BOXMT s) k ;;
   BOXMT' <- setitem (BOXMT s) k (mt + gd) ;;
   Ok {| BOX := BOX s; BOX_miu := BOX_miu'; BOX_S := BOX_S';
         BOX_X := BOX_X'; BOXMT := BOXMT';
         contador := contador s; NB := NB s |})%res.

(** Condition 1: the boxes within both thresholds of the sample. *)
Definition candidates (distance : list (F * F)) (grid_trad grid_angl : F)
  : list nat :=
  map fst (filter (fun p => (fst (snd p) <? grid_trad)
                            && (snd (snd p) <? grid_angl))
                  (enumerate distance)).

(** Eq. 20: the combined distance, each part scaled by its threshold. *)
Definition combined (distance : list (F * F)) (grid_trad grid_angl : F)
  (S : nat) : result F :=
  (d <- getitem distance S ;;
   Ok (fst d / grid_trad + snd d / grid_angl))%res.

Definition chess_step (Uniquesample : matrix F) (MMtypicality : list F)
  (grid_trad grid_angl : F) (i : nat) (s : boxes) : result boxes :=
  (x <- getitem Uniquesample i ;;
   distance <- hand_dist x (firstn (contador s) (BOX_miu s)) ;;
   let SQ := candidates distance grid_trad grid_angl in
   match SQ with
   | [] =>
       gd <- getitem MMtypicality i ;;
       new_box x gd s
   | _ =>
       DIS <- map_res (combined distance grid_trad grid_angl) SQ ;;
       b <- argmin DIS ;;
       k <- getitem SQ b ;;
       gd <- getitem MMtypicality i ;;
       absorb k x gd s
   end)%res.

Definition chess_init (L WW : nat) : boxes :=
  {| BOX := repeat (repeat (ofZ 0) WW) L;
     BOX_miu := repeat (repeat (ofZ 0) WW) L;
     BOX_S := repeat 0%Z L;
     BOX_X := repeat (ofZ 0) L;
     BOXMT := repeat (ofZ 0) L;
     contador := 0;
     NB := 1 |}.

Definition chessboard_division_njit (Uniquesample : matrix F)
  (MMtypicality : list F) (grid_trad grid_angl : F) (distancetype : string)
  : result (matrix F * matrix F * list F * list Z * list F * nat) :=
  let L := length Uniquesample in
  let WW := ncols Uniquesample in
  let W := 1%nat in
  let s0 := chess_init L WW in
  (x0 <- getitem Uniquesample 0 ;;
   BOX0 <- setitem (BOX s0) 0 x0 ;;
   BOX_miu0 <- setitem (BOX_miu s0) 0 x0 ;;
   BOX_S0 <- setitem (BOX_S s0) 0 1%Z ;;
   BOX_X0 <- setitem (BOX_X s0) 0 (sumsq x0) ;;
   gd0 <- getitem MMtypicality 0 ;;
   BOXMT0 <- setitem (BOXMT s0) 0 gd0 ;;
   let s1 := {| BOX := BOX0; BOX_miu := BOX_miu0; BOX_S := BOX_S0;
                BOX_X := BOX_X0; BOXMT := BOXMT0;
                contador := 1; NB := W |} in
   s <- for_each (chess_step Uniquesample MMtypicality grid_trad grid_angl)
                 (seq W (L - W)) s1 ;;
   Ok (firstn (contador s) (BOX s), firstn (contador s) (BOX_miu s),
       firstn (contador s) (BOX_X s), firstn (contador s) (BOX_S s),
       firstn (contador s) (BOXMT s), NB s))%res.

(** *** Stage 4: [ChessBoard_PeakIdentification_njit] *)

(** Condition 2: the boxes within [n = 2] times both thresholds. *)
Definition neighbourhood (distance : list (F * F)) (grid_trad grid_angl : F)
  : list nat :=
  candidates distance (ofZ 2 * grid_trad) (ofZ 2 * grid_angl).

(** Condition 3 for box [i]: is the largest typicality of its
    neighbourhood its own? *)
Definition is_peak (BOX_miu : matrix F) (BOXMT : list F)
  (grid_trad grid_angl : F) (i : nat) : result bool :=
  (bi <- getitem BOX_miu i ;;
   distance <- hand_dist bi BOX_miu ;;
   let seq := neighbourhood distance grid_trad grid_angl in
   Chessblocak_typicality <- map_res (getitem BOXMT) seq ;;
   m <- pymax Chessblocak_typicality ;;
   mi <- getitem BOXMT i ;;
   Ok (m =? mi))%res.

Definition peak_step (BOX_miu : matrix F) (BOXMT : list F)
  (grid_trad grid_angl : F) (i : nat) (acc : matrix F * nat)
  : result (matrix F * nat) :=
  (p <- is_peak BOX_miu BOXMT grid_trad grid_angl i ;;
   bi <- getitem BOX_miu i ;;
   let '(Centers, ModeNumber) := acc in
   Ok (if p : bool then (Centers ++ [bi], S ModeNumber)
       else (Centers, ModeNumber)))%res.

Definition ChessBoard_PeakIdentification_njit (BOX_miu : matrix F)
  (BOXMT : list F) (NB : nat) (grid_trad grid_angl : F)
  (distancetype : string) : result (matrix F * nat) :=
  let L := length BOX_miu in
  for_each (peak_step BOX_miu BOXMT grid_trad grid_angl) (seq 0 L) ([], 0).

(** *** Stage 5: [cloud_member_recruitment_njit] *)

(** The label of one sample: the index of the nearest centre.  [hand_dist]
    unpacks [XB.shape] into two names, which raises [ValueError] on the
    one-axis array [np.array([])] that an empty centre list becomes. *)
Definition nearest (Center_samples : matrix F) (x : list F) : result nat :=
  match Center_samples with
  | [] => Raise ValueError
  | _ =>
      (distance <- hand_dist x Center_samples ;;
       let dist3 := map (fun d => fst d + snd d) distance in
       argmin dist3)%res
  end.

Definition cloud_member_recruitment_njit (ModelNumber : nat)
  (Center_samples : matrix F) (Uniquesample : matrix F)
  (grid_trad grid_angl : F) (distancetype : string) : result (list nat) :=
  map_res (nearest Center_samples) Uniquesample.

(** *** The entry point *)

Record input : Type := {
  StaticData : loc;
  GridSize : F;
  DistanceType : string
}.

Record boxparameter : Type := {
  bp_BOX : matrix F;
  bp_BOX_miu : matrix F;
  bp_BOX_S : list Z;
  bp_NB : nat;
  bp_XM : F;
  bp_L : nat;
  bp_AvM : list F;
  bp_AvA : list F;
  bp_GridSize : F
}.

Record output : Type := {
  C : matrix F;
  IDX : list Z;
  SystemParams : boxparameter;
  out_DistanceType : string
}.

Definition SelfOrganisedDirectionAwareDataPartitioning (Input : input)
  : M F output :=
  let data := StaticData Input in
  (d <~ load data ;;
   let L := length d in
   let N := GridSize Input in
   let distancetype := DistanceType Input in
   ' (X1, AvD1, AvD2, grid_trad, grid_angl) <~ grid_set data N ;;
   ' (GD, D1, D2, Uniquesample) <~ Globaldensity_Calculator data distancetype ;;
   U <~ load Uniquesample ;;
   ' (BOX, BOX_miu, BOX_X, BOX_S, BOXMT, NB) <~
       lift (chessboard_division_njit U GD grid_trad grid_angl distancetype) ;;
   ' (Center, ModeNumber) <~
       lift (ChessBoard_PeakIdentification_njit BOX_miu BOXMT NB
               grid_trad grid_angl distancetype) ;;
   d' <~ load data ;;
   IDX <~ lift (cloud_member_recruitment_njit ModeNumber Center d'
                  grid_trad grid_angl distancetype) ;;
   let Boxparameter :=
     {| bp_BOX := BOX; bp_BOX_miu := BOX_miu; bp_BOX_S := BOX_S;
        bp_NB := NB; bp_XM := X1; bp_L := L; bp_AvM := AvD1;
        bp_AvA := AvD2; bp_GridSize := N |} in
   ret {| C := Center;
          IDX := map (fun i => (Z.of_nat i + 1)%Z) IDX;
          SystemParams := Boxparameter;
          out_DistanceType := distancetype |})%M.

End Pipeline.

Arguments input F : clear implicits.
Arguments output F : clear implicits.
Arguments boxes F : clear implicits.
Arguments boxparameter F : clear implicits.

(** Running the entry point on a matrix given by value: the matrix is the
    only object of the store, at location 0. *)
Definition run_soda {F} {SF : Scalar F} (data : matrix F) (N : F)
  : result (output F) * heap F :=
  SelfOrganisedDirectionAwareDataPartitioning
    {| StaticData := 0; GridSize := N; DistanceType := "euclidean" |} [data].

Definition fl (z : Z) : float := float_ofZ z.
Definition flm (m : list (list Z)) : matrix float := map (map fl) m.


(** ** Notions used by the statements *)

(** The laws of the comparisons the statements about "nearest" and
    "largest" rest on.  They hold of IEEE comparisons, NaN included, and
    of the order of the reals. *)
Class ScalarOrder (F : Type) {SF : Scalar F} : Prop := {
  fltb_irrefl : forall x : F, fltb x x = false;
  fltb_trans : forall x y z : F,
    fltb x y = true -> fltb y z = true -> fltb x z = true;
  feqb_fltb_trans : forall x y z : F,
    feqb x y = true -> fltb y z = true -> fltb x z = true;
  fltb_total : forall x y : F,
    fisnan x = false -> fisnan y = false ->
    fltb x y = false -> fltb y x = false -> feqb x y = true
}.

Arguments ScalarOrder F {SF}.

Definition zsum (l : list Z) : Z := fold_right Z.add 0%Z l.

Section Notions.

Context {F : Type} {SF : Scalar F}.

Local Open Scope sc_scope.

(** The box table while the aggregation pass runs over [L] samples: the
    arrays keep their [L] rows, the boxes in use are rows [0] to
    [contador - 1], and the counts past them are still the zeros of
    [np.zeros]. *)
Record boxes_wf (L : nat) (s : boxes F) : Prop := {
  wf_BOX : length (BOX s) = L;
  wf_miu : length (BOX_miu s) = L;
  wf_S : length (BOX_S s) = L;
  wf_X : length (BOX_X s) = L;
  wf_MT : length (BOXMT s) = L;
  wf_contador : contador s <= L;
  wf_NB : NB s = contador s;
  wf_zero : forall j, contador s <= j -> j < L ->
                      nth_error (BOX_S s) j = Some 0%Z
}.

(** [d_euclid / grid_trad + d_angular / grid_angl] for box [c]. *)
Definition norm_dist (distance : list (F * F)) (grid_trad grid_angl : F)
  (c : nat) : F :=
  let d := nth c distance (ofZ 0, ofZ 0) in
  fst d / grid_trad + snd d / grid_angl.

(** The neighbourhood of box [i] in [ChessBoard_PeakIdentification_njit]:
    the boxes [j] with [d_euclid(i,j) < 2 grid_trad] and
    [d_angular(i,j) < 2 grid_angl]. *)
Definition nbhd (BOX_miu : matrix F) (grid_trad grid_angl : F) (i : nat)
  : list nat :=
  match getitem BOX_miu i with
  | Ok bi =>
      match hand_dist bi BOX_miu with
      | Ok distance => neighbourhood distance grid_trad grid_angl
      | Raise _ => []
      end
  | Raise _ => []
  end.

(** The density mass of box [j]. *)
Definition mass (BOXMT : list F) (j : nat) : F := nth j BOXMT (ofZ 0).

(** The boxes that become centres: those for which Condition 3 holds. *)
Definition peaks (BOX_miu : matrix F) (BOXMT : list F) (grid_trad grid_angl : F)
  : list nat :=
  filter (fun i =>
            match is_peak BOX_miu BOXMT grid_trad grid_angl i with
            | Ok p => p
            | Raise _ => false
            end)
         (seq 0 (length BOX_miu)).

(** Conditions 1 and 2 read off the distances themselves, for the
    statements: box [c] is *within* the thresholds of the sample whose
    distances are [distance], and box [j] is *near* box [i] when the
    distances between their means are below twice the thresholds. *)
Definition within (distance : list (F * F)) (grid_trad grid_angl : F)
  (c : nat) : bool :=
  match nth_error distance c with
  | Some (d_euclid, d_angular) =>
      (d_euclid <? grid_trad) && (d_angular <? grid_angl)
  | None => false
  end.



(** Two arrays that agree off cell [k]. *)
Definition same_except {A} (k : nat) (l l' : list A) : Prop :=
  length l' = length l /\
  forall j, j <> k -> nth_error l' j = nth_error l j.

End Notions.

(** ** The entry point as a function of the matrix

    What a call computes from the contents [d] of the input object, and
    the array objects it creates on the way, in the order of creation.
    [soda_run] (below) shows that the monadic entry point does exactly
    this to any store. *)

Section Pure.

Context {F : Type} {SF : Scalar F}.

Local Open Scope sc_scope.

(** The contents of [new_data] after the column loop of [grid_set]. *)
Definition normalise_cols (Xnorm : list F) (cols : list nat) (nd : matrix F)
  : matrix F :=
  fold_left (fun nd i => setcol i (zipw fdiv (getcol i nd) Xnorm) nd) cols nd.

(** [if tuple(seq[::]): new_data[tuple(seq[::])] = 1]. *)
Definition nan_to_one (nd : matrix F) : result (matrix F) :=
  setitem_tuple nd (argwhere_isnan nd) (ofZ 1).

(** The values [grid_set] returns, from the input [d] and the final
    [new_data]. *)
Definition grid_values (d nd : matrix F) (N : F)
  : F * list F * list F * F * F :=
  let AvD1 := mean0 d in
  let X1 := mean1 (map sumsq d) in
  let AvD2 := mean0 nd in
  (X1, AvD1, AvD2,
   fsqrt (ofZ 2 * (X1 - vsum (zipw fmul AvD1 AvD1))) / N,
   fsqrt (ofZ 1 - vsum (zipw fmul AvD2 AvD2)) / N).

Definition grid_pure (d : matrix F) (N : F)
  : result (F * list F * list F * F * F) * list (matrix F) :=
  let nd := normalise_cols (map fsqrt (map sumsq d)) (seq 0 (ncols d)) d in
  match nan_to_one nd with
  | Ok nd' => (Ok (grid_values d nd' N), [nd'])
  | Raise e => (Raise e, [nd])
  end.

Definition density_pure (U : matrix F) (distancetype : string)
  : result (list F * list F * list F * matrix F) :=
  (uspi1 <- pi_calculator U distancetype ;;
   let Density_1 := map (fun x => x / vsum uspi1) uspi1 in
   uspi2 <- pi_calculator U "cosine" ;;
   let Density_2 := map (fun x => x / vsum uspi2) uspi2 in
   let GD := zipw fadd Density_2 Density_1 in
   let index := rev (argsort GD) in
   GD' <- take GD index ;;
   U' <- take U index ;;
   Ok (GD', Density_1, Density_2, U'))%res.

Definition stages_pure (d : matrix F) (N : F) (distancetype : string)
  (g : F * list F * list F * F * F) (GD : list F) (U : matrix F)
  : result (output F) :=
  let '(X1, AvD1, AvD2, grid_trad, grid_angl) := g in
  (r <- chessboard_division_njit U GD grid_trad grid_angl distancetype ;;
   let '(BOX, BOX_miu, BOX_X, BOX_S, BOXMT, NB) := r in
   c <- ChessBoard_PeakIdentification_njit BOX_miu BOXMT NB
          grid_trad grid_angl distancetype ;;
   let '(Center, ModeNumber) := c in
   IDX <- cloud_member_recruitment_njit ModeNumber Center d
            grid_trad grid_angl distancetype ;;
   Ok {| C := Center;
         IDX := map (fun i => (Z.of_nat i + 1)%Z) IDX;
         SystemParams :=
           {| bp_BOX := BOX; bp_BOX_miu := BOX_miu; bp_BOX_S := BOX_S;
              bp_NB := NB; bp_XM := X1; bp_L := length d; bp_AvM := AvD1;
              bp_AvA := AvD2; bp_GridSize := N |};
         out_DistanceType := distancetype |})%res.

Definition soda_pure (d : matrix F) (N : F) (distancetype : string)
  : result (output F) * list (matrix F) :=
  match grid_pure d N with
  | (Raise e, objs) => (Raise e, objs)
  | (Ok g, objs) =>
      match density_pure d distancetype with
      | Raise e => (Raise e, objs)
      | Ok (GD, _, _, U) =>
          (stages_pure d N distancetype g GD U, objs ++ [U])
      end
  end.

End Pure.

(** ** Notions of the statements about exact arithmetic *)

Section Geometry.

Context {F : Type} {SF : Scalar F}.

Local Open Scope sc_scope.

(** [dot(a,b)] and the cosine similarity [dot(a,b) / (|a| * |b|)]. *)
Definition dotp (a b : list F) : F := vsum (zipw fmul a b).

Definition cos_similarity (a b : list F) : F :=
  dotp a b / (fsqrt (sumsq a) * fsqrt (sumsq b)).


(** Every row of [d] has [W] cells. *)
Definition rectangular (W : nat) (d : matrix F) : Prop :=
  Forall (fun r => length r = W) d.

End Geometry.

(** Sums over the reals, by recursion on the list. *)
Fixpoint rsum (l : list R) : R :=
  match l with
  | [] => 0%R
  | x :: l' => (x + rsum l')%R
  end.

(** The sum of the rows of a real matrix with [W] columns. *)
Fixpoint rvsum (W : nat) (d : list (list R)) : list R :=
  match d with
  | [] => repeat 0%R W
  | r :: d' => zipw Rplus r (rvsum W d')
  end.


(** ** Sample inputs *)

(** Four points in two groups, granularity 2. *)
Definition ex_data : matrix float := flm [[1;10];[2;10];[10;1];[10;2]]%Z.

Definition ex_input : input float :=
  {| StaticData := 0; GridSize := fl 2; DistanceType := "euclidean" |}.

Definition ex_out : output float :=
  Eval vm_compute in
    match fst (SelfOrganisedDirectionAwareDataPartitioning ex_input [ex_data])
    with
    | Ok o => o
    | Raise _ =>
        {| C := []; IDX := [];
           SystemParams :=
             {| bp_BOX := []; bp_BOX_miu := []; bp_BOX_S := []; bp_NB := 0;
                bp_XM := fl 0; bp_L := 0; bp_AvM := []; bp_AvA := [];
                bp_GridSize := fl 0 |};
           out_DistanceType := "" |}
    end.

(** Three samples in density order, with their densities. *)
Definition ex_U : matrix float := flm [[1;10];[2;10];[10;1]]%Z.
Definition ex_MM : list float := map fl [3;2;1]%Z.

(** A box table in which boxes 0 and 2 are neighbours of equal mass. *)
Definition ex_BM : matrix float := flm [[1;10];[10;1];[2;10]]%Z.
Definition ex_MT : list float := map fl [5;3;5]%Z.



(** The aggregation pass after two samples, each in a box of its own,
    both within the thresholds of the third sample [(2, 11)], which is
    nearer to box 1. *)
Definition ex_U2 : matrix float := flm [[1;10];[2;10];[2;11]]%Z.

Definition ex_s2 : boxes float :=
  {| BOX := flm [[1;10];[2;10];[0;0]]%Z;
     BOX_miu := flm [[1;10];[2;10];[0;0]]%Z;
     BOX_S := [1;1;0]%Z;
     BOX_X := map fl [101;104;0]%Z;
     BOXMT := map fl [3;2;0]%Z;
     contador := 2;
     NB := 2 |}.

Definition ex_distance2 : list (float * float) :=
  Eval vm_compute in
    match hand_dist (map fl [2;11]%Z) (firstn 2 (BOX_miu ex_s2)) with
    | Ok d => d
    | Raise _ => []
    end.


(** Matrices with an all-zero row, of three, two and one columns. *)
Definition ex_zero3 : matrix float := flm [[0;0;0];[1;2;3]]%Z.
Definition ex_zero2 : matrix float := flm [[1;2];[0;0]]%Z.
Definition ex_zero1 : matrix float := flm [[-5];[0]]%Z.

(** One sample of three features, and the same sample twice. *)
Definition ex_single : matrix float := flm [[1;2;3]]%Z.
Definition ex_repeated : matrix float := flm [[1;2;3];[1;2;3]]%Z.

(** Two vectors whose cosine similarity is 15/16. *)
Definition ex_a : list float := map fl [1;0;0;0;0]%Z.
Definition ex_b : list float := map fl [15;5;2;1;1]%Z.

(** Real matrices and vectors. *)
Definition ex_real : matrix R := [[1; 0]; [0; 1]]%R.
Definition ex_ra : list R := [1; 0]%R.
Definition ex_rb : list R := [0; 1]%R.

(** ** Notions of the further properties *)

Section MoreNotions.

Context {F : Type} {SF : Scalar F}.

Local Open Scope sc_scope.

(** The seeds: what the loop of [chessboard_division_njit] keeps true of
    [BOX] and [BOX_S]. *)
Definition seeds_ok (U : matrix F) (s : boxes F) : Prop :=
  (1 <= contador s)%nat /\
  nth_error (BOX s) 0 = nth_error U 0 /\
  (forall j r, (j < contador s)%nat -> nth_error (BOX s) j = Some r ->
               In r U) /\
  (forall j n, (j < contador s)%nat -> nth_error (BOX_S s) j = Some n ->
               (1 <= n)%Z).

(** [d_euclid + d_angular] for centre [c]. *)
Definition total_dist (distance : list (F * F)) (c : nat) : F :=
  let d := nth c distance (ofZ 0, ofZ 0) in fst d + snd d.

End MoreNotions.

(** The exception [pi_calculator] raises on a matrix without rows. *)
Definition empty_exn (mode : string) : exn :=
  if String.eqb mode "euclidean" then TypeError
  else if String.eqb mode "cosine" then ValueError
  else UnboundLocalError.

(** The squared Euclidean distance of two real vectors. *)
Definition sqdist (a b : list R) : R :=
  rsum (map (fun x => x * x)%R (zipw Rminus a b)).

(** * The grouping algorithm of [LathesModel]

    [LathesModel._grouping_algorithm] reads the fields [SODA_IDX_] (a
    Python list of integers), [target_] (an array of class labels) and
    [percent_], and writes [classifiers_label_] and [GA_results_]; here
    the fields read are arguments and the fields written are the result.
    The counters live in float cells that only ever hold whole numbers
    and are modelled as [Z]; they become scalars where the code
    divides. *)

(** [a[k]] along the first axis of an array of [n] rows: a negative
    subscript counts from the end. *)
Definition np_index (n : nat) (k : Z) : result nat :=
  if ((0 <=? k) && (k <? Z.of_nat n))%Z then Ok (Z.to_nat k)
  else if ((k <? 0) && (- Z.of_nat n <=? k))%Z
       then Ok (Z.to_nat (Z.of_nat n + k))
       else Raise IndexError.

(** [np.max] of a list of integers. *)
Definition np_max (l : list Z) : result Z :=
  match l with
  | [] => Raise ValueError
  | x :: l' => Ok (fold_left Z.max l' x)
  end.

(** [np.zeros((int(n), w))]. *)
Definition np_zeros (n : Z) (w : nat) : result (list (list Z)) :=
  if (n <? 0)%Z then Raise ValueError
  else Ok (repeat (repeat 0%Z w) (Z.to_nat n)).

(** [m[k, c]] for subscripts in range. *)
Definition cell (m : list (list Z)) (k c : nat) : Z := nth c (nth k m []) 0%Z.

(** [m[int(k), c] += 1]. *)
Definition incr_cell (m : list (list Z)) (k : Z) (c : nat)
  : result (list (list Z)) :=
  (i <- np_index (length m) k ;;
   row <- getitem m i ;;
   v <- getitem row c ;;
   Ok (upd m i (upd row c (v + 1)%Z)))%res.

(** [GA_results_]. *)
Record ga_results : Type := {
  Data_Clouds : Z;
  Good_Tools_Groups : nat;
  Worn_Tools_Groups : nat;
  Samples : nat
}.

Section Grouping.

Context {F : Type} {SF : Scalar F}.

Local Open Scope sc_scope.

(** [LathesModel._soda]: the partitioning of the projected data, always
    with the distance type ['euclidean']; the field [SODA_IDX_] it sets
    is the field [IDX] of the output returned here. *)
Definition _soda (granularity_ : F) (X_projected_ : loc) : M F (output F) :=
  SelfOrganisedDirectionAwareDataPartitioning
    {| StaticData := X_projected_; GridSize := granularity_;
       DistanceType := "euclidean" |}.

(** [(n_IDs_per_gp[i,c] / n_tot_Id_per_DA[i]) * 100]. *)
Definition percentage (n_IDs_per_gp n_tot_Id_per_DA : list (list Z))
  (i c : nat) : F :=
  (ofZ (cell n_IDs_per_gp i c) / ofZ (cell n_tot_Id_per_DA i 0)) * ofZ 100.

(** One turn of the counting loop over [range(target_.shape[0])]. *)
Definition count_step (SODA_IDX_ target_ : list Z) (i : nat)
  (s : list (list Z) * list (list Z))
  : result (list (list Z) * list (list Z)) :=
  let '(n_IDs_per_gp, n_tot_Id_per_DA) := s in
  (t <- getitem target_ i ;;
   idx <- getitem SODA_IDX_ i ;;
   n_IDs_per_gp <-
     (if (t =? 0)%Z then incr_cell n_IDs_per_gp (idx - 1) 0
      else incr_cell n_IDs_per_gp (idx - 1) 1) ;;
   n_tot_Id_per_DA <- incr_cell n_tot_Id_per_DA (idx - 1) 0 ;;
   Ok (n_IDs_per_gp, n_tot_Id_per_DA))%res.

(** One turn of the decision loop over [range(Percent.shape[0])]. *)
Definition decide_step (Percent : list (list F)) (percent_ : F) (i : nat)
  (s : nat * nat * list Z) : nat * nat * list Z :=
  let '(n_gp0, n_gp1, decision) := s in
  if percent_ <? nth 0 (nth i Percent []) (ofZ 0)
  then (S n_gp0, n_gp1, upd decision i 0%Z)
  else (n_gp0, S n_gp1, upd decision i 1%Z).

(** [decision[int(idx - 1)]]. *)
Definition label_of (decision : list Z) (idx : Z) : result Z :=
  (k <- np_index (length decision) (idx - 1) ;; getitem decision k)%res.

Definition _grouping_algorithm (SODA_IDX_ target_ : list Z) (percent_ : F)
  : result (list Z * ga_results) :=
  (n_DA_planes <- np_max SODA_IDX_ ;;
   Percent <- np_zeros n_DA_planes 3 ;;
   n_IDs_per_gp <- np_zeros n_DA_planes 2 ;;
   n_tot_Id_per_DA <- np_zeros n_DA_planes 1 ;;
   let decision := repeat 0%Z (Z.to_nat n_DA_planes) in
   ' (n_IDs_per_gp, n_tot_Id_per_DA) <-
     for_each (count_step SODA_IDX_ target_) (seq 0 (length target_))
       (n_IDs_per_gp, n_tot_Id_per_DA) ;;
   let Percent :=
     map (fun i => [percentage n_IDs_per_gp n_tot_Id_per_DA i 0;
                    percentage n_IDs_per_gp n_tot_Id_per_DA i 1;
                    ofZ 0])
         (seq 0 (Z.to_nat n_DA_planes)) in
   let '(n_gp0, n_gp1, decision) :=
     fold_left (fun s i => decide_step Percent percent_ i s)
       (seq 0 (length Percent)) (0%nat, 0%nat, decision) in
   classifiers_label_ <- map_res (label_of decision) SODA_IDX_ ;;
   Ok (classifiers_label_,
       {| Data_Clouds := n_DA_planes;
          Good_Tools_Groups := n_gp0;
          Worn_Tools_Groups := n_gp1;
          Samples := length SODA_IDX_ |}))%res.

(** The share of the training samples of cloud [c] whose target passes
    [p], as the code computes it. *)
Definition tally (l : list (Z * Z)) (c : Z) (p : Z -> bool) : Z :=
  Z.of_nat (length (filter (fun q => (fst q =? c)%Z && p (snd q)) l)).

Definition share (SODA_IDX_ target_ : list Z) (c : Z) (p : Z -> bool) : F :=
  let l := combine SODA_IDX_ target_ in
  (ofZ (tally l c p) / ofZ (tally l c (fun _ => true))) * ofZ 100.

End Grouping.

(** ** The variant of [script_kfold.py], with three classes *)

Module Kfold.

Record ga_results : Type := {
  Data_Clouds : Z;
  Good_Tools_Groups : nat;
  Imminence_Tools_Groups : nat;
  Worn_Tools_Groups : nat;
  Samples : nat
}.

Section Grouping.

Context {F : Type} {SF : Scalar F}.

Local Open Scope sc_scope.

Definition count_step (SODA_IDX_ target_ : list Z) (i : nat)
  (s : list (list Z) * list (list Z))
  : result (list (list Z) * list (list Z)) :=
  let '(n_IDs_per_gp, n_tot_Id_per_DA) := s in
  (t <- getitem target_ i ;;
   idx <- getitem SODA_IDX_ i ;;
   n_IDs_per_gp <-
     (if (t =? 0)%Z then incr_cell n_IDs_per_gp (idx - 1) 0
      else if (t =? 1)%Z then incr_cell n_IDs_per_gp (idx - 1) 1
      else if (t =? 2)%Z then incr_cell n_IDs_per_gp (idx - 1) 2
      else Ok n_IDs_per_gp) ;;
   n_tot_Id_per_DA <- incr_cell n_tot_Id_per_DA (idx - 1) 0 ;;
   Ok (n_IDs_per_gp, n_tot_Id_per_DA))%res.

Definition decide_step (Percent : list (list F)) (percent_ : F) (i : nat)
  (s : nat * nat * nat * list Z) : nat * nat * nat * list Z :=
  let '(n_gp0, n_gp1, n_gp2, decision) := s in
  let row := nth i Percent [] in
  if percent_ <? nth 0 row (ofZ 0)
  then (S n_gp0, n_gp1, n_gp2, upd decision i 0%Z)
  else if percent_ <? nth 1 row (ofZ 0)
  then (n_gp0, S n_gp1, n_gp2, upd decision i 1%Z)
  else if percent_ <? nth 2 row (ofZ 0)
  then (n_gp0, n_gp1, S n_gp2, upd decision i 2%Z)
  else s.

Definition _grouping_algorithm (SODA_IDX_ target_ : list Z) (percent_ : F)
  : result (list Z * ga_results) :=
  (n_DA_planes <- np_max SODA_IDX_ ;;
   Percent <- np_zeros n_DA_planes 3 ;;
   n_IDs_per_gp <- np_zeros n_DA_planes 3 ;;
   n_tot_Id_per_DA <- np_zeros n_DA_planes 1 ;;
   let decision := repeat 0%Z (Z.to_nat n_DA_planes) in
   ' (n_IDs_per_gp, n_tot_Id_per_DA) <-
     for_each (count_step SODA_IDX_ target_) (seq 0 (length target_))
       (n_IDs_per_gp, n_tot_Id_per_DA) ;;
   let Percent :=
     map (fun i => [percentage n_IDs_per_gp n_tot_Id_per_DA i 0;
                    percentage n_IDs_per_gp n_tot_Id_per_DA i 1;
                    percentage n_IDs_per_gp n_tot_Id_per_DA i 2])
         (seq 0 (Z.to_nat n_DA_planes)) in
   let '(n_gp0, n_gp1, n_gp2, decision) :=
     fold_left (fun s i => decide_step Percent percent_ i s)
       (seq 0 (length Percent)) (0%nat, 0%nat, 0%nat, decision) in
   classifiers_label_ <- map_res (label_of decision) SODA_IDX_ ;;
   Ok (classifiers_label_,
       {| Data_Clouds := n_DA_planes;
          Good_Tools_Groups := n_gp0;
          Imminence_Tools_Groups := n_gp1;
          Worn_Tools_Groups := n_gp2;
          Samples := length SODA_IDX_ |}))%res.

End Grouping.

End Kfold.

(** Sample labels and targets: cloud 1 holds samples 0 and 2, both of
    class 0; cloud 2 holds samples 1, 3 and 4, one of them of class 0. *)
Definition ex_idx : list Z := [1; 2; 1; 2; 2]%Z.
Definition ex_target : list Z := [0; 1; 0; 0; 1]%Z.
Definition ex_target_short : list Z := [0]%Z.
Definition ex_target_long : list Z := [0; 1; 0; 0; 1; 1]%Z.

(** Two centres for the samples of [ex_data]. *)
Definition ex_centres : matrix float := flm [[1;10];[10;1]]%Z.

(** An input with a distance type the program does not know. *)
Definition ex_input_unknown : input float :=
  {| StaticData := 0; GridSize := fl 2; DistanceType := "manhattan" |}.

(** * Properties *)

Unset Implicit Arguments.

(** ** Results, loops and subscripts *)

Lemma rbind_ok {A B} (r : result A) (k : A -> result B) (b : B) :
  rbind r k = Ok b -> exists a, r = Ok a /\ k a = Ok b.
Proof.
  destruct r as [a|e]; simpl; intros Hk.
  - exists a; split; [reflexivity | exact Hk].
  - discriminate.
Qed.

(** Unfolds one successful bind of the hypothesis [H]. *)
Tactic Notation "bind_inv" hyp(H) "as" ident(a) ident(Ha) :=
  apply rbind_ok in H; destruct H as (a & Ha & H).


Lemma map_res_length {A B} (f : A -> result B) (l : list A) (l' : list B) :
  map_res f l = Ok l' -> length l' = length l.
Proof.
  revert l'; induction l as [|a l IH]; simpl; intros l' H.
  - injection H as <-; reflexivity.
  - destruct (f a) as [b|e]; [|discriminate].
    destruct (map_res f l) as [bs|e]; [|discriminate].
    injection H as <-; simpl; f_equal; apply IH; reflexivity.
Qed.

Lemma map_res_nth {A B} (f : A -> result B) (l : list A) (l' : list B) :
  map_res f l = Ok l' ->
  forall i b, nth_error l' i = Some b ->
  exists a, nth_error l i = Some a /\ f a = Ok b.
Proof.
  revert l'; induction l as [|a l IH]; simpl; intros l' H i b Hb.
  - injection H as <-; destruct i; discriminate.
  - destruct (f a) as [b0|e] eqn:Hfa; [|discriminate].
    destruct (map_res f l) as [bs|e]; [|discriminate].
    injection H as <-.
    destruct i as [|i]; simpl in *.
    + injection Hb as <-; exists a; split; [reflexivity | exact Hfa].
    + eapply IH; [reflexivity | exact Hb].
Qed.

Lemma map_res_Forall {A B} (f : A -> result B) (P : B -> Prop) (l : list A)
  (l' : list B) :
  (forall a b, In a l -> f a = Ok b -> P b) ->
  map_res f l = Ok l' -> Forall P l'.
Proof.
  revert l'; induction l as [|a l IH]; simpl; intros l' HP H.
  - injection H as <-; constructor.
  - destruct (f a) as [b0|e] eqn:Hfa; [|discriminate].
    destruct (map_res f l) as [bs|e]; [|discriminate].
    injection H as <-; constructor.
    + apply (HP a); [left; reflexivity | exact Hfa].
    + apply IH; [intros a' b' Hin; apply HP; right; exact Hin | reflexivity].
Qed.

Lemma map_res_total {A B} (f : A -> result B) (l : list A) :
  (forall a, In a l -> exists b, f a = Ok b) ->
  exists l', map_res f l = Ok l'.
Proof.
  induction l as [|a l IH]; simpl; intros Hf.
  - eexists; reflexivity.
  - destruct (Hf a (or_introl eq_refl)) as (b & ->).
    destruct IH as (bs & ->); [intros a' Ha'; apply Hf; right; exact Ha'|].
    eexists; reflexivity.
Qed.

(** An invariant of a loop holds when the loop ends. *)
Lemma for_each_inv {A S} (f : A -> S -> result S) (I : nat -> S -> Prop) :
  (forall a s s' n, I n s -> f a s = Ok s' -> I (Datatypes.S n) s') ->
  forall l s s' n, I n s -> for_each f l s = Ok s' -> I (length l + n) s'.
Proof.
  intros Hstep; induction l as [|a l IH]; simpl; intros s s' n Hs H.
  - injection H as <-; exact Hs.
  - destruct (f a s) as [s1|e] eqn:Hf; [|discriminate].
    replace (Datatypes.S (length l + n)) with (length l + Datatypes.S n) by lia.
    eapply IH; [eapply Hstep; eassumption | exact H].
Qed.

(** The same, for an invariant that may look at the element processed. *)
Lemma for_each_inv_in {A S} (f : A -> S -> result S) (I : S -> Prop)
  (l : list A) :
  (forall a s s', In a l -> I s -> f a s = Ok s' -> I s') ->
  forall s s', I s -> for_each f l s = Ok s' -> I s'.
Proof.
  induction l as [|a l IH]; simpl; intros Hstep s s' Hs H.
  - injection H as <-; exact Hs.
  - destruct (f a s) as [s1|e] eqn:Hf; [|discriminate].
    eapply IH; [| |exact H].
    + intros a' t t' Hin; apply Hstep; right; exact Hin.
    + eapply Hstep; [left; reflexivity | exact Hs | exact Hf].
Qed.

Lemma getitem_ok {A} (l : list A) (i : nat) (a : A) :
  getitem l i = Ok a <-> nth_error l i = Some a.
Proof.
  unfold getitem; destruct (nth_error l i); split; intros H;
    try discriminate; injection H as <-; reflexivity.
Qed.

Lemma getitem_lt {A} (l : list A) (i : nat) (a : A) :
  getitem l i = Ok a -> i < length l.
Proof.
  intros H; apply getitem_ok in H.
  apply nth_error_Some; rewrite H; discriminate.
Qed.

Lemma getitem_total {A} (l : list A) (i : nat) :
  i < length l -> exists a, getitem l i = Ok a.
Proof.
  intros H; unfold getitem.
  destruct (nth_error l i) eqn:E; [eexists; reflexivity|].
  apply nth_error_None in E; lia.
Qed.

Lemma upd_length {A} (l : list A) (i : nat) (v : A) :
  length (upd l i v) = length l.
Proof.
  revert i; induction l as [|a l IH]; intros [|i]; simpl; auto.
Qed.

Lemma upd_nth_same {A} (l : list A) (i : nat) (v : A) :
  i < length l -> nth_error (upd l i v) i = Some v.
Proof.
  revert i; induction l as [|a l IH]; intros [|i]; simpl; intros H;
    try lia; [reflexivity | apply IH; lia].
Qed.

Lemma upd_nth_other {A} (l : list A) (i j : nat) (v : A) :
  i <> j -> nth_error (upd l i v) j = nth_error l j.
Proof.
  revert i j; induction l as [|a l IH]; intros [|i] [|j] H; simpl;
    try reflexivity; try congruence.
  apply IH; congruence.
Qed.

Lemma setitem_ok {A} (l l' : list A) (i : nat) (v : A) :
  setitem l i v = Ok l' -> i < length l /\ l' = upd l i v.
Proof.
  unfold setitem; destruct (Nat.ltb_spec i (length l)) as [Hlt|Hge]; intros Hs;
    [injection Hs as <-; split; [assumption | reflexivity] | discriminate].
Qed.

Lemma setitem_total {A} (l : list A) (i : nat) (v : A) :
  i < length l -> setitem l i v = Ok (upd l i v).
Proof.
  intros Hi; unfold setitem.
  destruct (Nat.ltb_spec i (length l)) as [Hlt|Hge]; [reflexivity | lia].
Qed.

Lemma zipw_length {A B C} (f : A -> B -> C) (u : list A) (v : list B) :
  length (zipw f u v) = Nat.min (length u) (length v).
Proof.
  revert v; induction u as [|a u IH]; intros [|b v]; simpl; auto.
Qed.

Lemma enumerate_length {A} (l : list A) : length (enumerate l) = length l.
Proof.
  unfold enumerate; rewrite length_combine, length_seq; apply Nat.min_id.
Qed.

(** The pairs of [enumerate] carry their own position. *)
Lemma in_combine_seq {A} (l : list A) (s i : nat) (a : A) :
  In (i, a) (combine (seq s (length l)) l) <-> nth_error l (i - s) = Some a /\ s <= i.
Proof.
  revert s i; induction l as [|b l IH]; simpl; intros s i.
  - split; [tauto | intros [H _]; destruct (i - s); discriminate].
  - split.
    + intros [H | H].
      * injection H as <- <-; rewrite Nat.sub_diag; split; [reflexivity | lia].
      * apply IH in H; destruct H as [H Hs].
        replace (i - s) with (S (i - S s)) by lia; split; [exact H | lia].
    + intros [H Hs].
      destruct (Nat.eq_dec i s) as [->|Hne].
      * rewrite Nat.sub_diag in H; injection H as <-; left; reflexivity.
      * right; apply IH; split; [|lia].
        replace (i - s) with (S (i - S s)) in H by lia; exact H.
Qed.

Lemma in_enumerate {A} (l : list A) (i : nat) (a : A) :
  In (i, a) (enumerate l) <-> nth_error l i = Some a.
Proof.
  unfold enumerate; rewrite in_combine_seq, Nat.sub_0_r.
  split; [tauto | intros H; split; [exact H | lia]].
Qed.

(** Unfolds a bind whose first step is a subscript write. *)
Tactic Notation "bind_set" hyp(H) "as" ident(Hlt) :=
  let a := fresh "w" in
  let Ha := fresh "Hw" in
  apply rbind_ok in H; destruct H as (a & Ha & H);
  apply setitem_ok in Ha; destruct Ha as [Hlt ->].

(** ** The shape of the stages' results *)

Section Structure.

Context {F : Type} {SF : Scalar F}.

Lemma zsum_upd (l : list Z) (i : nat) (old v : Z) :
  nth_error l i = Some old -> zsum (upd l i v) = (zsum l - old + v)%Z.
Proof.
  revert i; induction l as [|a l IH]; intros [|i]; simpl; intros H;
    try discriminate.
  - injection H as <-; lia.
  - rewrite (IH _ H); lia.
Qed.

Lemma zsum_firstn_zero (l : list Z) (c : nat) :
  (forall j, c <= j -> j < length l -> nth_error l j = Some 0%Z) ->
  zsum (firstn c l) = zsum l.
Proof.
  revert c; induction l as [|a l IH]; intros [|c] H; simpl; try reflexivity.
  - assert (Ha : a = 0%Z).
    { specialize (H 0 (Nat.le_refl 0)); simpl in H.
      assert (Hs : Some a = Some 0%Z) by (apply H; lia).
      injection Hs as ->; reflexivity. }
    subst a.
    specialize (IH 0); simpl in IH; rewrite <- IH; [reflexivity|].
    intros j _ Hj; apply (H (S j)); simpl; lia.
  - f_equal; apply IH; intros j Hc Hj; apply (H (S j)); simpl; lia.
Qed.

Lemma hand_dist_length (XA : list F) (XB : matrix F) (d : list (F * F)) :
  hand_dist XA XB = Ok d -> length d = length XB.
Proof. apply map_res_length. Qed.

(** The candidates are box indices, each below the number of distances. *)
Lemma candidates_lt (distance : list (F * F)) (gt ga : F) (k : nat) :
  In k (candidates distance gt ga) -> k < length distance.
Proof.
  unfold candidates; rewrite in_map_iff; intros ((j & d) & Hj & Hin).
  simpl in Hj; subst j; apply filter_In in Hin; destruct Hin as [Hin _].
  apply in_enumerate in Hin.
  apply nth_error_Some; rewrite Hin; discriminate.
Qed.

Lemma candidates_spec (distance : list (F * F)) (gt ga : F) (k : nat) :
  In k (candidates distance gt ga) <->
  exists d, nth_error distance k = Some d /\
            (fst d <? gt)%sc = true /\ (snd d <? ga)%sc = true.
Proof.
  unfold candidates; rewrite in_map_iff; split.
  - intros ((j & d) & Hj & Hin); simpl in Hj; subst j.
    apply filter_In in Hin; destruct Hin as [Hin Hc]; simpl in Hc.
    apply in_enumerate in Hin; apply andb_prop in Hc.
    exists d; tauto.
  - intros (d & Hd & H1 & H2); exists (k, d); split; [reflexivity|].
    apply filter_In; split; [apply in_enumerate; exact Hd|].
    simpl; rewrite H1, H2; reflexivity.
Qed.

Lemma getitem_In {A} (l : list A) (i : nat) (a : A) :
  getitem l i = Ok a -> In a l.
Proof. intros H; apply getitem_ok in H; eapply nth_error_In; exact H. Qed.

Lemma new_box_wf (L : nat) (x : list F) (gd : F) (s s' : boxes F) :
  boxes_wf L s -> new_box x gd s = Ok s' ->
  boxes_wf L s' /\ zsum (BOX_S s') = (zsum (BOX_S s) + 1)%Z.
Proof.
  intros [H1 H2 H3 H4 H5 H6 H7 H8] H; unfold new_box in H.
  bind_set H as Hc; bind_set H as Hc2; bind_set H as Hc3;
    bind_set H as Hc4; bind_set H as Hc5.
  injection H as <-; split.
  - constructor; simpl; rewrite ?upd_length; try assumption; try lia.
    intros j Hj HjL; rewrite upd_nth_other by lia; apply H8; lia.
  - simpl; rewrite (zsum_upd _ _ 0%Z 1%Z (H8 _ (Nat.le_refl _) ltac:(lia))); lia.
Qed.

Lemma absorb_wf (L k : nat) (x : list F) (gd : F) (s s' : boxes F) :
  boxes_wf L s -> k < contador s -> absorb k x gd s = Ok s' ->
  boxes_wf L s' /\ zsum (BOX_S s') = (zsum (BOX_S s) + 1)%Z.
Proof.
  intros [H1 H2 H3 H4 H5 H6 H7 H8] Hk H; unfold absorb in H.
  bind_inv H as n0 Hn0; bind_set H as Hk1.
  bind_inv H as miu Hmiu; bind_set H as Hk2.
  bind_inv H as X HX; bind_set H as Hk3.
  bind_inv H as mt Hmt; bind_set H as Hk4.
  injection H as <-; split.
  - constructor; simpl; rewrite ?upd_length; try assumption.
    intros j Hj HjL; rewrite upd_nth_other by lia; apply H8; lia.
  - simpl; apply getitem_ok in Hn0; rewrite (zsum_upd _ _ _ _ Hn0); lia.
Qed.

Lemma chess_step_wf (L : nat) (U : matrix F) (MM : list F) (gt ga : F)
  (i : nat) (s s' : boxes F) :
  boxes_wf L s -> chess_step U MM gt ga i s = Ok s' ->
  boxes_wf L s' /\ zsum (BOX_S s') = (zsum (BOX_S s) + 1)%Z.
Proof.
  intros Hwf H; unfold chess_step in H.
  bind_inv H as x Hx; bind_inv H as distance Hd.
  destruct (candidates distance gt ga) as [|c SQ] eqn:HSQ.
  - bind_inv H as gd Hgd; eapply new_box_wf; eassumption.
  - bind_inv H as DIS HDIS; bind_inv H as b Hb; bind_inv H as k Hk;
      bind_inv H as gd Hgd.
    eapply absorb_wf; [exact Hwf | | exact H].
    apply getitem_In in Hk; rewrite <- HSQ in Hk.
    apply candidates_lt in Hk.
    rewrite (hand_dist_length _ _ _ Hd), length_firstn in Hk; lia.
Qed.

Lemma repeat_nth {A} (a : A) (n j : nat) :
  j < n -> nth_error (repeat a n) j = Some a.
Proof.
  revert j; induction n as [|n IH]; intros [|j] H; simpl; try lia;
    [reflexivity | apply IH; lia].
Qed.

Lemma zsum_repeat_zero (n : nat) : zsum (repeat 0%Z n) = 0%Z.
Proof. induction n as [|n IH]; simpl; [reflexivity | exact IH]. Qed.

(** What the aggregation pass returns: the box table of a well-formed
    state whose counts add up to the number of samples. *)
Lemma chessboard_final (U : matrix F) (MM : list F) (gt ga : F) (dt : string)
  (r : matrix F * matrix F * list F * list Z * list F * nat) :
  chessboard_division_njit U MM gt ga dt = Ok r ->
  exists s, boxes_wf (length U) s /\
            zsum (BOX_S s) = Z.of_nat (length U) /\
            1 <= contador s /\
            r = (firstn (contador s) (BOX s), firstn (contador s) (BOX_miu s),
                 firstn (contador s) (BOX_X s), firstn (contador s) (BOX_S s),
                 firstn (contador s) (BOXMT s), NB s).
Proof.
  intros H; unfold chessboard_division_njit in H.
  bind_inv H as x0 Hv; apply getitem_lt in Hv.
  bind_set H as Hc1; bind_set H as Hc2; bind_set H as Hc3; bind_set H as Hc4.
  bind_inv H as gd0 Hgd0; bind_set H as Hc5.
  bind_inv H as sf Hv6; injection H as <-.
  set (L := length U) in *.
  pose (I := fun (n : nat) (s : boxes F) =>
               boxes_wf L s /\ zsum (BOX_S s) = Z.of_nat (S n)
               /\ 1 <= contador s).
  assert (HI : I (length (seq 1 (L - 1)) + 0) sf).
  { eapply (for_each_inv _ I); [| |exact Hv6].
    - intros a t t' n (Hwf & Hsum & Hc) Hstep.
      destruct (chess_step_wf _ _ _ _ _ _ _ _ Hwf Hstep) as [Hwf' Hsum'].
      split; [|split].
      + exact Hwf'.
      + rewrite Hsum', Hsum; lia.
      + unfold chess_step in Hstep.
        bind_inv Hstep as x Hx; bind_inv Hstep as dd Hdd.
        destruct (candidates dd gt ga).
        * bind_inv Hstep as gd Hgd; unfold new_box in Hstep.
          bind_set Hstep as K1; bind_set Hstep as K2; bind_set Hstep as K3;
            bind_set Hstep as K4; bind_set Hstep as K5.
          injection Hstep as <-; simpl; lia.
        * bind_inv Hstep as DIS HDIS; bind_inv Hstep as b Hb;
            bind_inv Hstep as k Hk; bind_inv Hstep as gd Hgd.
          unfold absorb in Hstep.
          bind_inv Hstep as cnt Hcnt; bind_set Hstep as K1.
          bind_inv Hstep as miu Hmiu; bind_set Hstep as K2.
          bind_inv Hstep as X HX; bind_set Hstep as K3.
          bind_inv Hstep as mt Hmt; bind_set Hstep as K4.
          injection Hstep as <-; simpl; exact Hc.
    - split; [|split]; [constructor| |];
        simpl; rewrite ?upd_length, ?repeat_length; try lia.
      + intros j Hj HjL; rewrite upd_nth_other by lia.
        apply repeat_nth; exact HjL.
      + rewrite (zsum_upd _ _ 0%Z 1%Z (repeat_nth 0%Z _ _ Hv)), zsum_repeat_zero.
        reflexivity. }
  rewrite length_seq, Nat.add_0_r in HI; destruct HI as (Hwf & Hsum & Hc).
  exists sf; split; [exact Hwf|]; split; [rewrite Hsum; lia|].
  split; [exact Hc | reflexivity].
Qed.

(** C2.  When the aggregation pass completes on [L] samples, the member
    counts ([BOX_S]) of the boxes it returns add up to [L]: every sample
    went into exactly one box. *)
Theorem chessboard_member_count (U : matrix F) (MM : list F) (gt ga : F)
  (dt : string) (BOX BOX_miu : matrix F) (BOX_X : list F) (BOX_S : list Z)
  (BOXMT : list F) (NB : nat) :
  chessboard_division_njit U MM gt ga dt
    = Ok (BOX, BOX_miu, BOX_X, BOX_S, BOXMT, NB) ->
  zsum BOX_S = Z.of_nat (length U).
Proof.
  intros H; apply chessboard_final in H.
  destruct H as (s & Hwf & Hsum & _ & Heq).
  injection Heq as -> -> -> -> -> ->.
  rewrite <- Hsum; apply zsum_firstn_zero.
  intros j Hc Hj; apply (wf_zero Hwf); [exact Hc|].
  rewrite (wf_S Hwf) in Hj; exact Hj.
Qed.

End Structure.

Section Stages.

Context {F : Type} {SF : Scalar F}.

(** *** The search loop *)

Lemma argmin_from_lt (l : list F) (ii b : nat) (mini : F) :
  b < ii -> argmin_from l ii b mini < ii + length l.
Proof.
  revert ii b mini; induction l as [|x l IH]; simpl; intros ii b mini Hb.
  - lia.
  - destruct (x <? mini)%sc.
    + specialize (IH (S ii) ii x); lia.
    + specialize (IH (S ii) b mini); lia.
Qed.

Lemma argmin_lt (l : list F) (b : nat) : argmin l = Ok b -> b < length l.
Proof.
  destruct l as [|x l]; simpl; intros H; [discriminate|].
  injection H as <-.
  pose proof (argmin_from_lt l 1 0 x); lia.
Qed.

(** *** Peak identification *)

Lemma peak_step_spec (BM : matrix F) (MT : list F) (gt ga : F) (i : nat)
  (acc acc' : matrix F * nat) :
  peak_step BM MT gt ga i acc = Ok acc' ->
  exists p bi,
    is_peak BM MT gt ga i = Ok p /\ getitem BM i = Ok bi /\
    acc' = if p then (fst acc ++ [bi], S (snd acc)) else acc.
Proof.
  unfold peak_step; intros H.
  bind_inv H as p Hp; bind_inv H as bi Hbi.
  destruct acc as [Cs K]; injection H as <-.
  exists p, bi; destruct p; auto.
Qed.

(** The centres are exactly the means of the boxes of [peaks], in the
    order of the boxes, and [ModeNumber] counts them. *)
Lemma peak_loop (BM : matrix F) (MT : list F) (gt ga : F) (l : list nat)
  (acc acc' : matrix F * nat) :
  for_each (peak_step BM MT gt ga) l acc = Ok acc' ->
  let sel := filter (fun i => match is_peak BM MT gt ga i with
                              | Ok p => p
                              | Raise _ => false
                              end) l in
  fst acc' = fst acc ++ map (fun i => nth i BM []) sel /\
  snd acc' = snd acc + length sel /\
  forall i, In i l -> exists p, is_peak BM MT gt ga i = Ok p.
Proof.
  revert acc; induction l as [|i l IH]; simpl; intros acc H.
  - injection H as <-; rewrite app_nil_r; repeat split; [lia | tauto].
  - destruct (peak_step BM MT gt ga i acc) as [acc1|e] eqn:Hs; [|discriminate].
    apply peak_step_spec in Hs; destruct Hs as (p & bi & Hp & Hbi & ->).
    destruct (IH _ H) as (H1 & H2 & H3); rewrite Hp.
    apply getitem_ok in Hbi.
    destruct p; simpl in *.
    + rewrite H1, H2, <- app_assoc; simpl.
      rewrite (nth_error_nth _ _ _ Hbi).
      repeat split; [lia|].
      intros j [<- | Hj]; [exists true; exact Hp | apply H3; exact Hj].
    + repeat split; try assumption.
      intros j [<- | Hj]; [exists false; exact Hp | apply H3; exact Hj].
Qed.

Lemma peak_result (BM : matrix F) (MT : list F) (NB : nat) (gt ga : F)
  (dt : string) (Centers : matrix F) (K : nat) :
  ChessBoard_PeakIdentification_njit BM MT NB gt ga dt = Ok (Centers, K) ->
  Centers = map (fun i => nth i BM []) (peaks BM MT gt ga) /\
  K = length Centers /\
  K <= length BM /\
  forall i, i < length BM -> exists p, is_peak BM MT gt ga i = Ok p.
Proof.
  unfold ChessBoard_PeakIdentification_njit; intros H.
  apply peak_loop in H; simpl in H; destruct H as (H1 & H2 & H3).
  fold (peaks BM MT gt ga) in H1, H2.
  subst Centers K; rewrite length_map; repeat split.
  - pose proof (filter_length_le
      (fun i => match is_peak BM MT gt ga i with
                | Ok p => p
                | Raise _ => false
                end) (seq 0 (length BM))) as Hle.
    rewrite length_seq in Hle; exact Hle.
  - intros i Hi; apply H3, in_seq; lia.
Qed.

(** *** Member recruitment *)

Lemma nearest_lt (Cs : matrix F) (x : list F) (b : nat) :
  nearest Cs x = Ok b -> b < length Cs.
Proof.
  unfold nearest; destruct Cs as [|c Cs]; [discriminate|].
  intros H; bind_inv H as distance Hd.
  apply argmin_lt in H; rewrite length_map in H.
  rewrite (hand_dist_length _ _ _ Hd) in H; exact H.
Qed.

Lemma cloud_labels (K : nat) (Cs U : matrix F) (gt ga : F) (dt : string)
  (B : list nat) :
  cloud_member_recruitment_njit K Cs U gt ga dt = Ok B ->
  length B = length U /\ Forall (fun b => b < length Cs) B.
Proof.
  unfold cloud_member_recruitment_njit; intros H; split.
  - eapply map_res_length; exact H.
  - eapply map_res_Forall; [|exact H].
    intros x b _ Hb; eapply nearest_lt; exact Hb.
Qed.

(** *** The box table returned by the aggregation pass *)

Lemma chessboard_shape (U : matrix F) (MM : list F) (gt ga : F) (dt : string)
  (BOX BOX_miu : matrix F) (BOX_X : list F) (BOX_S : list Z) (BOXMT : list F)
  (NB : nat) :
  chessboard_division_njit U MM gt ga dt
    = Ok (BOX, BOX_miu, BOX_X, BOX_S, BOXMT, NB) ->
  length BOX = NB /\ length BOX_miu = NB /\ length BOX_S = NB /\
  length BOXMT = NB /\ 1 <= NB <= length U.
Proof.
  intros H; apply chessboard_final in H.
  destruct H as (s & Hwf & _ & Hc & Heq).
  injection Heq as -> -> -> -> -> ->.
  destruct Hwf as [H1 H2 H3 H4 H5 H6 H7 _].
  rewrite !length_firstn, H1, H2, H3, H5, H7; lia.
Qed.

Lemma hand_row_total (XA XBi : list F) :
  XBi <> [] -> length XBi <= length XA -> exists d, hand_row XA XBi = Ok d.
Proof.
  intros Hne Hlen; unfold hand_row.
  destruct XBi as [|b XBi]; [congruence|].
  destruct (Nat.ltb_spec (length XA) (length (b :: XBi))) as [Hlt|_]; [lia|].
  destruct (fold_left hand_acc (combine XA (b :: XBi))
              (ofZ 0, ofZ 0, ofZ 0, ofZ 0)) as [[[aux dot] da] db].
  eexists; reflexivity.
Qed.

Lemma hand_dist_total (W : nat) (XA : list F) (XB : matrix F) :
  1 <= W -> length XA = W -> rectangular W XB ->
  exists d, hand_dist XA XB = Ok d.
Proof.
  intros HW HA HB; unfold hand_dist; apply map_res_total.
  intros r Hr; unfold rectangular in HB; rewrite Forall_forall in HB.
  specialize (HB r Hr); apply hand_row_total; [|lia].
  destruct r; [simpl in HB; lia | discriminate].
Qed.

End Stages.

(** ** The store: what a call reads and writes *)

Section Store.

Context {F : Type} {SF : Scalar F}.

Lemma getitem_app_l {A} (h t : list A) (l : nat) (a : A) :
  getitem h l = Ok a -> getitem (h ++ t) l = Ok a.
Proof.
  intros H; apply getitem_ok; apply getitem_ok in H.
  rewrite nth_error_app1; [exact H|].
  apply nth_error_Some; rewrite H; discriminate.
Qed.

Lemma load_new (h : heap F) (m : matrix F) :
  load (length h) (h ++ [m]) = (Ok m, h ++ [m]).
Proof.
  unfold load, getitem.
  rewrite nth_error_app2, Nat.sub_diag by lia; reflexivity.
Qed.

Lemma upd_new {A} (h : list A) (a b : A) :
  upd (h ++ [a]) (length h) b = h ++ [b].
Proof. induction h as [|x h IH]; simpl; [reflexivity | rewrite IH; reflexivity]. Qed.

Lemma store_new (h : heap F) (m m' : matrix F) :
  store (length h) m' (h ++ [m]) = (Ok tt, h ++ [m']).
Proof.
  unfold store; rewrite setitem_total, upd_new; [reflexivity|].
  rewrite length_app; simpl; lia.
Qed.

(** The column loop of [grid_set] only writes to [new_data], the object
    the function has just created. *)
Lemma normalise_loop (Xnorm : list F) (cols : list nat) (h : heap F)
  (nd : matrix F) :
  for_M (normalise_col (length h) Xnorm) cols (h ++ [nd])
  = (Ok tt, h ++ [normalise_cols Xnorm cols nd]).
Proof.
  revert nd; induction cols as [|i cols IH]; intros nd; simpl.
  - reflexivity.
  - unfold mbind at 1, normalise_col at 1, mbind at 1.
    rewrite load_new, store_new; apply IH.
Qed.

Lemma grid_set_run (data : loc) (N : F) (h : heap F) (d : matrix F) :
  getitem h data = Ok d ->
  grid_set data N h = (fst (grid_pure d N), h ++ snd (grid_pure d N)).
Proof.
  intros Hd; unfold grid_set, grid_pure, nan_to_one.
  unfold mbind at 1, load at 1; rewrite Hd.
  unfold mbind at 1, alloc at 1.
  unfold mbind at 1; rewrite normalise_loop.
  unfold mbind at 1; rewrite load_new.
  set (nd := normalise_cols _ _ d).
  unfold mbind at 1.
  destruct (argwhere_isnan nd) as [|p seq] eqn:Hseq.
  - unfold ret at 1; unfold mbind at 1; rewrite load_new.
    unfold ret; simpl; reflexivity.
  - unfold mbind at 1, lift at 1.
    destruct (setitem_tuple nd (p :: seq) (ofZ 1)) as [nd'|e]; simpl.
    + rewrite store_new; unfold mbind at 1; rewrite load_new.
      unfold ret; reflexivity.
    + reflexivity.
Qed.

Lemma mbind_lift {A B} (r : result A) (k : A -> M F B) (h : heap F) :
  mbind (lift r) k h = match r with
                       | Ok a => k a h
                       | Raise e => (Raise e, h)
                       end.
Proof. unfold mbind, lift; destruct r; reflexivity. Qed.

Lemma Globaldensity_run (data : loc) (dt : string) (h : heap F)
  (d : matrix F) :
  getitem h data = Ok d ->
  Globaldensity_Calculator data dt h
  = match density_pure d dt with
    | Ok (GD, D1, D2, U) => (Ok (GD, D1, D2, length h), h ++ [U])
    | Raise e => (Raise e, h)
    end.
Proof.
  intros Hd; unfold Globaldensity_Calculator, density_pure.
  unfold mbind at 1, load at 1; rewrite Hd.
  rewrite mbind_lift.
  destruct (pi_calculator d dt) as [uspi1|e]; simpl; [|reflexivity].
  rewrite mbind_lift.
  destruct (pi_calculator d "cosine") as [uspi2|e]; simpl; [|reflexivity].
  rewrite mbind_lift.
  destruct (take _ _) as [GD'|e]; simpl; [|reflexivity].
  rewrite mbind_lift.
  destruct (take d _) as [U'|e]; simpl; reflexivity.
Qed.

(** The entry point, on any store in which the input object exists: the
    result depends on the contents of that object only, and the store
    afterwards is the store before followed by the objects created. *)
Lemma soda_run (Input : input F) (h : heap F) (d : matrix F) :
  getitem h (StaticData Input) = Ok d ->
  SelfOrganisedDirectionAwareDataPartitioning Input h
  = (fst (soda_pure d (GridSize Input) (DistanceType Input)),
     h ++ snd (soda_pure d (GridSize Input) (DistanceType Input))).
Proof.
  intros Hd; destruct Input as [data N dt]; simpl in *.
  unfold SelfOrganisedDirectionAwareDataPartitioning, soda_pure; simpl.
  unfold mbind at 1, load at 1; rewrite Hd.
  unfold mbind at 1; rewrite (grid_set_run _ _ _ _ Hd).
  destruct (grid_pure d N) as [[g|e] objs] eqn:Hg; simpl; [|reflexivity].
  assert (Hobjs : exists nd, objs = [nd]).
  { unfold grid_pure in Hg; destruct (nan_to_one _);
      injection Hg as _ <-; eexists; reflexivity. }
  destruct Hobjs as (nd & ->).
  destruct g as [[[[X1 AvD1] AvD2] gt] ga].
  unfold mbind at 1.
  rewrite (Globaldensity_run _ _ _ _ (getitem_app_l _ _ _ _ Hd)).
  destruct (density_pure d dt) as [[[[GD D1] D2] U]|e]; [|reflexivity].
  unfold mbind at 1; rewrite load_new.
  rewrite mbind_lift; unfold stages_pure.
  rewrite <- app_assoc; simpl.
  destruct (chessboard_division_njit U GD gt ga dt)
    as [[[[[[BOX BOX_miu] BOX_X] BOX_S] BOXMT] NB]|e]; simpl; [|reflexivity].
  rewrite mbind_lift.
  destruct (ChessBoard_PeakIdentification_njit BOX_miu BOXMT NB gt ga dt)
    as [[Center K]|e]; simpl; [|reflexivity].
  unfold mbind at 1, load at 1.
  rewrite (getitem_app_l _ _ _ _ Hd).
  rewrite mbind_lift.
  destruct (cloud_member_recruitment_njit K Center d gt ga dt) as [IDX|e];
    simpl; reflexivity.
Qed.

Lemma soda_no_input (Input : input F) (h : heap F) (e : exn) :
  getitem h (StaticData Input) = Raise e ->
  SelfOrganisedDirectionAwareDataPartitioning Input h = (Raise e, h).
Proof.
  intros Hd; unfold SelfOrganisedDirectionAwareDataPartitioning.
  unfold mbind at 1, load at 1; rewrite Hd; reflexivity.
Qed.

End Store.

Section EntryPoint.

Context {F : Type} {SF : Scalar F}.

Lemma insert_key_length (p : nat * F) (l : list (nat * F)) :
  length (insert_key p l) = S (length l).
Proof.
  induction l as [|q l IH]; simpl; [reflexivity|].
  destruct (key_le (snd q) (snd p)); simpl; [rewrite IH|]; reflexivity.
Qed.

Lemma argsort_length (a : list F) : length (argsort a) = length a.
Proof.
  unfold argsort; rewrite length_map, <- (enumerate_length a).
  assert (H : forall (l acc : list (nat * F)),
             length (fold_left (fun acc p => insert_key p acc) l acc)
             = length l + length acc).
  { induction l as [|p l IH]; intros acc; simpl; [reflexivity|].
    rewrite IH, insert_key_length; lia. }
  rewrite H; simpl; lia.
Qed.

Lemma pi_calculator_length (U : matrix F) (mode : string) (uspi : list F) :
  pi_calculator U mode = Ok uspi -> length uspi = length U.
Proof.
  unfold pi_calculator.
  destruct (String.eqb mode "euclidean").
  - destruct U as [|r U]; [discriminate|].
    intros H; injection H as <-; simpl; rewrite ?length_map; reflexivity.
  - destruct (String.eqb mode "cosine"); [|discriminate].
    destruct U as [|r U]; [discriminate|].
    intros H; injection H as <-.
    simpl; rewrite ?length_map, zipw_length, length_map, Nat.min_id.
    reflexivity.
Qed.

(** The density-sorted copy has as many rows as the input. *)
Lemma density_pure_length (d : matrix F) (dt : string) (GD D1 D2 : list F)
  (U : matrix F) :
  density_pure d dt = Ok (GD, D1, D2, U) ->
  length U = length d /\ length GD = length d.
Proof.
  unfold density_pure; intros H.
  bind_inv H as uspi1 H1; bind_inv H as uspi2 H2.
  bind_inv H as GD' HGD; bind_inv H as U' HU.
  injection H as <- _ _ <-.
  apply map_res_length in HGD, HU.
  rewrite length_rev, argsort_length, zipw_length, !length_map in HGD, HU.
  rewrite (pi_calculator_length _ _ _ H1), (pi_calculator_length _ _ _ H2),
    Nat.min_id in HGD, HU.
  split; assumption.
Qed.

(** C1.  When the entry point completes on a matrix of [L] rows, the
    label vector has [L] entries, every label lies between 1 and the
    number [K] of centres, and [K <= B <= L] for the number [B] of boxes
    of the returned box table ([NB], the number of rows of [BOX]). *)
Theorem soda_labels_in_range (Input : input F) (h : heap F) (d : matrix F)
  (out : output F) :
  getitem h (StaticData Input) = Ok d ->
  fst (SelfOrganisedDirectionAwareDataPartitioning Input h) = Ok out ->
  length (IDX out) = length d /\
  Forall (fun l => (1 <= l <= Z.of_nat (length (C out)))%Z) (IDX out) /\
  length (C out) <= bp_NB (SystemParams out) /\
  bp_NB (SystemParams out) <= length d /\
  length (bp_BOX (SystemParams out)) = bp_NB (SystemParams out).
Proof.
  intros Hd Hrun; rewrite (soda_run _ _ _ Hd) in Hrun; simpl in Hrun.
  unfold soda_pure in Hrun.
  destruct (grid_pure d (GridSize Input)) as [[g|e] objs]; [|discriminate].
  destruct (density_pure d (DistanceType Input)) as [[[[GD D1] D2] U]|e] eqn:HU;
    [|discriminate].
  apply density_pure_length in HU; destruct HU as [HU _].
  simpl in Hrun; unfold stages_pure in Hrun.
  destruct g as [[[[X1 AvD1] AvD2] gt] ga].
  bind_inv Hrun as r Hchess.
  destruct r as [[[[[BOX BOX_miu] BOX_X] BOX_S] BOXMT] NB].
  bind_inv Hrun as c Hpeak; destruct c as [Center K].
  bind_inv Hrun as B Hcloud; injection Hrun as <-; simpl.
  apply chessboard_shape in Hchess.
  destruct Hchess as (HB1 & HB2 & _ & _ & HNB).
  apply peak_result in Hpeak; destruct Hpeak as (_ & HK & HKB & _).
  apply cloud_labels in Hcloud; destruct Hcloud as [HL Hlab].
  rewrite length_map; repeat split; try lia.
  apply Forall_map; revert Hlab; apply Forall_impl; intros b Hb; lia.
Qed.

(** C10.  A call leaves every object of the store it started from as it
    was, the input matrix among them, whether it returns or raises: it
    only writes to the arrays it creates. *)
Theorem soda_preserves_input (Input : input F) (h : heap F) :
  firstn (length h)
    (snd (SelfOrganisedDirectionAwareDataPartitioning Input h)) = h
  /\ getitem (snd (SelfOrganisedDirectionAwareDataPartitioning Input h))
             (StaticData Input)
     = getitem h (StaticData Input).
Proof.
  destruct (getitem h (StaticData Input)) as [d|e] eqn:Hd.
  - rewrite (soda_run _ _ _ Hd); simpl; split.
    + rewrite firstn_app, Nat.sub_diag, firstn_all; simpl.
      apply app_nil_r.
    + apply getitem_app_l; exact Hd.
  - rewrite (soda_no_input _ _ _ Hd); simpl; split;
      [apply firstn_all | exact Hd].
Qed.

(** The result of a call depends on the store only through the contents
    of the input object: two calls whose input matrices have equal
    contents, with equal granularity and distance type, return equal
    outputs (or raise the same exception), whatever else the two stores
    hold. *)
Lemma soda_store_independent (I1 I2 : input F) (h1 h2 : heap F) :
  getitem h1 (StaticData I1) = getitem h2 (StaticData I2) ->
  GridSize I1 = GridSize I2 ->
  DistanceType I1 = DistanceType I2 ->
  fst (SelfOrganisedDirectionAwareDataPartitioning I1 h1)
  = fst (SelfOrganisedDirectionAwareDataPartitioning I2 h2).
Proof.
  intros Hd HN Hdt.
  destruct (getitem h1 (StaticData I1)) as [d|e] eqn:H1; symmetry in Hd.
  - rewrite (soda_run _ _ _ H1), (soda_run _ _ _ Hd), HN, Hdt; reflexivity.
  - rewrite (soda_no_input _ _ _ H1), (soda_no_input _ _ _ Hd); reflexivity.
Qed.

(** Calling again on the store the first call left returns the same. *)
Lemma soda_rerun (Input : input F) (h : heap F) :
  fst (SelfOrganisedDirectionAwareDataPartitioning Input
         (snd (SelfOrganisedDirectionAwareDataPartitioning Input h)))
  = fst (SelfOrganisedDirectionAwareDataPartitioning Input h).
Proof.
  destruct (getitem h (StaticData Input)) as [d|e] eqn:Hd.
  - rewrite (soda_run _ _ _ Hd); simpl.
    rewrite (soda_run _ _ _ (getitem_app_l _ _ _ _ Hd)); reflexivity.
  - rewrite (soda_no_input _ _ _ Hd); simpl.
    rewrite (soda_no_input _ _ _ Hd); reflexivity.
Qed.

End EntryPoint.

(** ** The comparisons of binary64 and of the reals *)

Lemma Pcmp_eq (m1 m2 : positive) :
  Pos.compare_cont Eq m1 m2 = Pos.compare m1 m2.
Proof. reflexivity. Qed.

(** Turns the comparisons of exponents and mantissas in the goal and the
    hypotheses into inequalities, and decides. *)
Ltac cmp_cases :=
  repeat match goal with
  | H : context [Pos.compare_cont Eq ?a ?b] |- _ =>
      change (Pos.compare_cont Eq a b) with (Pos.compare a b) in H
  | |- context [Pos.compare_cont Eq ?a ?b] =>
      change (Pos.compare_cont Eq a b) with (Pos.compare a b)
  end;
  repeat match goal with
  | H : context [Z.compare ?a ?b] |- _ =>
      destruct (Z.compare_spec a b); try discriminate H
  | |- context [Z.compare ?a ?b] =>
      destruct (Z.compare_spec a b)
  | H : context [Pos.compare ?a ?b] |- _ =>
      destruct (Pos.compare_spec a b); simpl in H; try discriminate H
  | |- context [Pos.compare ?a ?b] =>
      destruct (Pos.compare_spec a b); simpl
  end;
  subst; simpl in *; try reflexivity; try discriminate; try lia.

Lemma SFcompare_lt_irrefl (x : spec_float) : SFcompare x x <> Some Lt.
Proof.
  destruct x as [s|s| |s m e]; simpl; try discriminate;
    destruct s; try discriminate; rewrite ?Pcmp_eq; cmp_cases.
Qed.

Lemma SFcompare_lt_trans (x y z : spec_float) :
  SFcompare x y = Some Lt -> SFcompare y z = Some Lt ->
  SFcompare x z = Some Lt.
Proof.
  destruct x as [sx|sx| |sx mx ex], y as [sy|sy| |sy my ey],
    z as [sz|sz| |sz mz ez]; simpl; try discriminate;
    try destruct sx; try destruct sy; try destruct sz; simpl;
    try discriminate; try reflexivity; rewrite ?Pcmp_eq;
    intros H1 H2; injection H1 as H1; injection H2 as H2; f_equal;
    cmp_cases.
Qed.

Lemma SFcompare_eq_lt_trans (x y z : spec_float) :
  SFcompare x y = Some Eq -> SFcompare y z = Some Lt ->
  SFcompare x z = Some Lt.
Proof.
  destruct x as [sx|sx| |sx mx ex], y as [sy|sy| |sy my ey],
    z as [sz|sz| |sz mz ez]; simpl; try discriminate;
    try destruct sx; try destruct sy; try destruct sz; simpl;
    try discriminate; try reflexivity; rewrite ?Pcmp_eq;
    intros H1 H2; injection H1 as H1; injection H2 as H2; f_equal;
    cmp_cases.
Qed.

Lemma SFcompare_total (x y : spec_float) :
  SFcompare x x = Some Eq -> SFcompare y y = Some Eq ->
  SFcompare x y <> Some Lt -> SFcompare y x <> Some Lt ->
  SFcompare x y = Some Eq.
Proof.
  destruct x as [sx|sx| |sx mx ex], y as [sy|sy| |sy my ey];
    simpl; try discriminate;
    try destruct sx; try destruct sy; simpl;
    try discriminate; try reflexivity; try congruence; rewrite ?Pcmp_eq;
    intros _ _ H1 H2; f_equal;
    cmp_cases; try (exfalso; apply H1; reflexivity);
    try (exfalso; apply H2; reflexivity).
Qed.

Lemma float_ltb_eq (x y : float) :
  PrimFloat.ltb x y = true <-> SFcompare (Prim2SF x) (Prim2SF y) = Some Lt.
Proof.
  rewrite FloatAxioms.ltb_spec; unfold SFltb.
  destruct (SFcompare (Prim2SF x) (Prim2SF y)) as [[| |]|]; split;
    intros H; try discriminate; reflexivity.
Qed.

Lemma float_eqb_eq (x y : float) :
  PrimFloat.eqb x y = true <-> SFcompare (Prim2SF x) (Prim2SF y) = Some Eq.
Proof.
  rewrite FloatAxioms.eqb_spec; unfold SFeqb.
  destruct (SFcompare (Prim2SF x) (Prim2SF y)) as [[| |]|]; split;
    intros H; try discriminate; reflexivity.
Qed.

Lemma float_not_nan (x : float) :
  PrimFloat.is_nan x = false -> SFcompare (Prim2SF x) (Prim2SF x) = Some Eq.
Proof.
  unfold PrimFloat.is_nan; intros H; apply negb_false_iff in H.
  apply float_eqb_eq; exact H.
Qed.

Lemma bool_false_iff (b : bool) : b = false <-> ~ b = true.
Proof. destruct b; split; intros H; congruence. Qed.

#[export] Instance float_order : ScalarOrder float.
Proof.
  constructor; simpl.
  - intros x; apply bool_false_iff; rewrite float_ltb_eq.
    apply SFcompare_lt_irrefl.
  - intros x y z; rewrite !float_ltb_eq; apply SFcompare_lt_trans.
  - intros x y z; rewrite float_eqb_eq, !float_ltb_eq.
    apply SFcompare_eq_lt_trans.
  - intros x y Hx Hy Hxy Hyx; apply float_eqb_eq.
    apply SFcompare_total.
    + apply float_not_nan; exact Hx.
    + apply float_not_nan; exact Hy.
    + rewrite <- float_ltb_eq; congruence.
    + rewrite <- float_ltb_eq; congruence.
Qed.

Lemma Rltb_true (x y : R) : Rltb x y = true <-> (x < y)%R.
Proof. unfold Rltb; destruct (Rlt_dec x y); split; intros; congruence. Qed.

Lemma Rltb_false (x y : R) : Rltb x y = false <-> (y <= x)%R.
Proof.
  unfold Rltb; destruct (Rlt_dec x y); split; intros; try congruence; lra.
Qed.

Lemma Reqb_true (x y : R) : Reqb x y = true <-> x = y.
Proof. unfold Reqb; destruct (Req_dec_T x y); split; intros; congruence. Qed.

#[export] Instance real_order : ScalarOrder R.
Proof.
  constructor; simpl.
  - intros x; apply Rltb_false; lra.
  - intros x y z; rewrite !Rltb_true; lra.
  - intros x y z; rewrite Reqb_true, !Rltb_true; intros -> H; exact H.
  - intros x y _ _; rewrite !Rltb_false, Reqb_true; lra.
Qed.

(** ** Nearest and largest *)

Section Order.

Context {F : Type} {SF : Scalar F} {SO : ScalarOrder F}.

Lemma fltb_asym (x y : F) : fltb x y = true -> fltb y x = false.
Proof.
  intros H; apply bool_false_iff; intros H'.
  pose proof (fltb_trans _ _ _ H H') as Hxx.
  rewrite fltb_irrefl in Hxx; discriminate.
Qed.

(** The search loop returns the first position whose value no value of
    the list is below: nothing is smaller, and everything before it is
    neither smaller nor equal. *)
Lemma argmin_from_spec (l pre : list F) (b : nat) (mini : F) :
  nth_error pre b = Some mini ->
  (forall p y, nth_error pre p = Some y -> fltb y mini = false) ->
  (forall p y, p < b -> nth_error pre p = Some y ->
               fltb y mini = false /\ feqb y mini = false) ->
  exists m,
    nth_error (pre ++ l) (argmin_from l (length pre) b mini) = Some m /\
    (forall p y, nth_error (pre ++ l) p = Some y -> fltb y m = false) /\
    (forall p y, p < argmin_from l (length pre) b mini ->
                 nth_error (pre ++ l) p = Some y ->
                 fltb y m = false /\ feqb y m = false).
Proof.
  revert pre b mini; induction l as [|x l IH]; intros pre b mini Hb I1 I2.
  - simpl; rewrite app_nil_r; exists mini; auto.
  - simpl.
    assert (Hlen : length (pre ++ [x]) = S (length pre))
      by (rewrite length_app; simpl; lia).
    replace (pre ++ x :: l) with ((pre ++ [x]) ++ l)
      by (rewrite <- app_assoc; reflexivity).
    assert (Hnth : forall p y, nth_error (pre ++ [x]) p = Some y ->
                     (p < length pre /\ nth_error pre p = Some y)
                     \/ (p = length pre /\ y = x)).
    { intros p y Hp.
      destruct (Nat.lt_ge_cases p (length pre)) as [Hlt|Hge].
      - left; rewrite nth_error_app1 in Hp by exact Hlt; auto.
      - right; rewrite nth_error_app2 in Hp by exact Hge.
        destruct (p - length pre) as [|q] eqn:Hq; simpl in Hp.
        + injection Hp as <-; split; [lia | reflexivity].
        + destruct q; discriminate. }
    destruct (fltb x mini) eqn:Hx; rewrite <- Hlen.
    + apply IH.
      * rewrite nth_error_app2, Nat.sub_diag by lia; reflexivity.
      * intros p y Hp; destruct (Hnth _ _ Hp) as [[_ Hy] | [_ ->]].
        -- apply bool_false_iff; intros Hyx.
           pose proof (fltb_trans _ _ _ Hyx Hx) as Hc.
           rewrite (I1 _ _ Hy) in Hc; discriminate.
        -- apply fltb_irrefl.
      * intros p y Hlt Hp; destruct (Hnth _ _ Hp) as [[_ Hy] | [Hpe _]]; [|lia].
        split; apply bool_false_iff; intros Hyx.
        -- pose proof (fltb_trans _ _ _ Hyx Hx) as Hc.
           rewrite (I1 _ _ Hy) in Hc; discriminate.
        -- pose proof (feqb_fltb_trans _ _ _ Hyx Hx) as Hc.
           rewrite (I1 _ _ Hy) in Hc; discriminate.
    + apply IH.
      * rewrite nth_error_app1; [exact Hb|].
        apply nth_error_Some; rewrite Hb; discriminate.
      * intros p y Hp; destruct (Hnth _ _ Hp) as [[_ Hy] | [_ ->]];
          [eapply I1; exact Hy | exact Hx].
      * intros p y Hlt Hp; destruct (Hnth _ _ Hp) as [[_ Hy] | [Hpe _]].
        -- eapply I2; eassumption.
        -- assert (b < length pre)
             by (apply nth_error_Some; rewrite Hb; discriminate).
           lia.
Qed.

Lemma argmin_spec (l : list F) (b : nat) :
  argmin l = Ok b ->
  exists m,
    nth_error l b = Some m /\
    (forall p y, nth_error l p = Some y -> fltb y m = false) /\
    (forall p y, p < b -> nth_error l p = Some y ->
                 fltb y m = false /\ feqb y m = false).
Proof.
  destruct l as [|x l]; simpl; intros H; [discriminate|].
  injection H as <-.
  apply (argmin_from_spec l [x] 0 x).
  - reflexivity.
  - intros [|p] y Hp; simpl in Hp; [|destruct p; discriminate].
    injection Hp as <-; apply fltb_irrefl.
  - intros p y Hp; lia.
Qed.

(** Python's [max] returns an element of the list that no element is
    greater than. *)
Lemma pymax_fold (l : list F) (m0 : F) :
  let m := fold_left (fun m y => if fltb m y then y else m) l m0 in
  In m (m0 :: l) /\
  (forall y, In y l -> fltb m y = false) /\
  (m = m0 \/ fltb m0 m = true).
Proof.
  revert m0; induction l as [|x l IH]; intros m0; simpl.
  - split; [left; reflexivity | split; [tauto | left; reflexivity]].
  - destruct (fltb m0 x) eqn:Hx.
    + destruct (IH x) as (H1 & H2 & H3); split; [right; exact H1|].
      split.
      * intros y [<- | Hy]; [|apply H2; exact Hy].
        destruct H3 as [-> | H3]; [apply fltb_irrefl | apply fltb_asym; exact H3].
      * right; destruct H3 as [-> | H3]; [exact Hx|].
        eapply fltb_trans; eassumption.
    + destruct (IH m0) as (H1 & H2 & H3); split.
      * destruct H1 as [H1 | H1]; [left; exact H1 | right; right; exact H1].
      * split; [|exact H3].
        intros y [<- | Hy]; [|apply H2; exact Hy].
        destruct H3 as [-> | H3]; [exact Hx|].
        apply bool_false_iff; intros Hc.
        pose proof (fltb_trans _ _ _ H3 Hc) as Hc'; congruence.
Qed.

Lemma pymax_spec (l : list F) (m : F) :
  pymax l = Ok m -> In m l /\ forall y, In y l -> fltb m y = false.
Proof.
  destruct l as [|x l]; simpl; intros H; [discriminate|].
  injection H as <-.
  destruct (pymax_fold l x) as (H1 & H2 & H3); split; [exact H1|].
  intros y [<- | Hy]; [|apply H2; exact Hy].
  destruct H3 as [-> | H3]; [apply fltb_irrefl | apply fltb_asym; exact H3].
Qed.

End Order.

Section Selection.

Context {F : Type} {SF : Scalar F} {SO : ScalarOrder F}.

Lemma map_res_getitem {A} (l : list A) (d : A) (idx : list nat) (r : list A) :
  map_res (getitem l) idx = Ok r -> r = map (fun j => nth j l d) idx.
Proof.
  revert r; induction idx as [|j idx IH]; simpl; intros r H.
  - injection H as <-; reflexivity.
  - destruct (getitem l j) as [a|e] eqn:Hj; [|discriminate].
    destruct (map_res (getitem l) idx) as [r'|e]; [|discriminate].
    injection H as <-; apply getitem_ok in Hj.
    rewrite (nth_error_nth _ _ _ Hj), (IH _ eq_refl); reflexivity.
Qed.

Lemma nbhd_eq (BM : matrix F) (gt ga : F) (i : nat) (bi : list F)
  (distance : list (F * F)) :
  getitem BM i = Ok bi -> hand_dist bi BM = Ok distance ->
  nbhd BM gt ga i = neighbourhood distance gt ga.
Proof. intros H1 H2; unfold nbhd; rewrite H1, H2; reflexivity. Qed.

(** Condition 3 for one box, when the box is in its own neighbourhood
    and no density mass there is NaN. *)
Lemma is_peak_spec (BM : matrix F) (MT : list F) (gt ga : F) (i : nat)
  (p : bool) :
  is_peak BM MT gt ga i = Ok p ->
  In i (nbhd BM gt ga i) ->
  (forall j, In j (nbhd BM gt ga i) -> fisnan (mass MT j) = false) ->
  (p = true <->
   forall j, In j (nbhd BM gt ga i) -> fltb (mass MT i) (mass MT j) = false).
Proof.
  unfold is_peak; intros H Hi Hnan.
  bind_inv H as bi Hbi; bind_inv H as distance Hd.
  bind_inv H as typ Htyp; bind_inv H as m Hm; bind_inv H as mi Hmi.
  injection H as <-.
  rewrite (nbhd_eq _ gt ga _ _ _ Hbi Hd) in *.
  apply (map_res_getitem _ (ofZ 0)) in Htyp; fold (mass MT) in Htyp.
  apply getitem_ok in Hmi.
  assert (Hmass : mass MT i = mi)
    by (unfold mass; apply nth_error_nth; exact Hmi).
  apply pymax_spec in Hm; destruct Hm as [Hin Hmax]; subst typ.
  apply in_map_iff in Hin; destruct Hin as (j0 & Hj0 & Hin0).
  pose proof (Hnan _ Hi) as Hnani; rewrite Hmass in *.
  split.
  - intros Heq j Hj; apply bool_false_iff; intros Hlt.
    pose proof (feqb_fltb_trans _ _ _ Heq Hlt) as Hc.
    rewrite (Hmax _ (in_map _ _ _ Hj)) in Hc; discriminate.
  - intros Hno; apply fltb_total.
    + rewrite <- Hj0; apply Hnan; exact Hin0.
    + exact Hnani.
    + rewrite <- Hmass; apply Hmax, in_map; exact Hi.
    + rewrite <- Hj0; apply Hno; exact Hin0.
Qed.

Lemma nbhd_lt (BM : matrix F) (gt ga : F) (i j : nat) :
  In j (nbhd BM gt ga i) -> j < length BM.
Proof.
  unfold nbhd; destruct (getitem BM i) as [bi|e]; [|intros []].
  destruct (hand_dist bi BM) as [distance|e] eqn:Hd; [|intros []].
  intros Hj; apply candidates_lt in Hj.
  rewrite (hand_dist_length _ _ _ Hd) in Hj; exact Hj.
Qed.

(** Condition 3 can be evaluated for a box that lies in its own
    neighbourhood. *)
Lemma is_peak_total (BM : matrix F) (MT : list F) (gt ga : F) (i : nat) :
  length MT = length BM -> In i (nbhd BM gt ga i) ->
  exists p, is_peak BM MT gt ga i = Ok p.
Proof.
  intros Hlen Hi; pose proof (nbhd_lt _ _ _ _ _ Hi) as Hlt.
  unfold nbhd in Hi; unfold is_peak.
  destruct (getitem BM i) as [bi|e]; [simpl | destruct Hi].
  destruct (hand_dist bi BM) as [distance|e] eqn:Hd; [simpl | destruct Hi].
  destruct (map_res_total (getitem MT) (neighbourhood distance gt ga))
    as (typ & Htyp).
  { intros j Hj; apply getitem_total.
    apply candidates_lt in Hj.
    rewrite (hand_dist_length _ _ _ Hd) in Hj; lia. }
  rewrite Htyp; simpl.
  pose proof (map_res_length _ _ _ Htyp) as Hl.
  destruct typ as [|m typ].
  { destruct (neighbourhood distance gt ga); [destruct Hi | discriminate]. }
  simpl.
  destruct (getitem_total MT i ltac:(lia)) as (mi & ->); simpl.
  eexists; reflexivity.
Qed.

Lemma peak_loop_total (BM : matrix F) (MT : list F) (gt ga : F)
  (l : list nat) (acc : matrix F * nat) :
  (forall i, In i l -> exists p, is_peak BM MT gt ga i = Ok p) ->
  exists acc', for_each (peak_step BM MT gt ga) l acc = Ok acc'.
Proof.
  revert acc; induction l as [|i l IH]; intros acc H; simpl.
  - eexists; reflexivity.
  - destruct (H i (or_introl eq_refl)) as (p & Hp).
    assert (Hs : exists acc1, peak_step BM MT gt ga i acc = Ok acc1).
    { unfold peak_step; rewrite Hp; simpl.
      unfold is_peak in Hp.
      destruct (getitem BM i) as [bi|e]; [simpl | discriminate].
      destruct acc as [Cs K]; eexists; reflexivity. }
    destruct Hs as (acc1 & ->).
    apply IH; intros j Hj; apply H; right; exact Hj.
Qed.








(** *** The box a sample is absorbed into *)

Lemma sorted_enum_filter {A} (f : nat * A -> bool) (l : list A) (s : nat) :
  StronglySorted lt (map fst (filter f (combine (seq s (length l)) l))) /\
  Forall (fun j => s <= j)
         (map fst (filter f (combine (seq s (length l)) l))).
Proof.
  revert s; induction l as [|a l IH]; intros s; simpl.
  - split; constructor.
  - destruct (IH (S s)) as [H1 H2].
    assert (H3 : Forall (fun j => s <= j)
              (map fst (filter f (combine (seq (S s) (length l)) l)))).
    { revert H2; apply Forall_impl; intros j Hj; lia. }
    destruct (f (s, a)); simpl; [|split; assumption].
    split; constructor; try assumption; try lia.
Qed.

Lemma sorted_nth (l : list nat) (p q a b : nat) :
  StronglySorted lt l ->
  nth_error l p = Some a -> nth_error l q = Some b -> p < q -> a < b.
Proof.
  intros Hs; revert p q; induction Hs as [|x l Hs IH Hx]; intros p q Hp Hq Hlt.
  - destruct p; discriminate.
  - destruct q as [|q]; [lia|]; simpl in Hq.
    destruct p as [|p]; simpl in Hp.
    + injection Hp as <-.
      rewrite Forall_forall in Hx; apply Hx.
      eapply nth_error_In; exact Hq.
    + apply (IH p q); [assumption | assumption | lia].
Qed.

Lemma candidates_sorted (distance : list (F * F)) (gt ga : F) :
  StronglySorted lt (candidates distance gt ga).
Proof. unfold candidates, enumerate; apply sorted_enum_filter. Qed.

Lemma combined_eq (distance : list (F * F)) (gt ga : F) (SQ : list nat)
  (DIS : list F) :
  map_res (combined distance gt ga) SQ = Ok DIS ->
  DIS = map (norm_dist distance gt ga) SQ.
Proof.
  revert DIS; induction SQ as [|c SQ IH]; simpl; intros DIS H.
  - injection H as <-; reflexivity.
  - destruct (combined distance gt ga c) as [v|e] eqn:Hc; [|discriminate].
    destruct (map_res (combined distance gt ga) SQ) as [r|e]; [|discriminate].
    injection H as <-; rewrite (IH _ eq_refl); f_equal.
    unfold combined in Hc; bind_inv Hc as d Hd; injection Hc as <-.
    apply getitem_ok in Hd; unfold norm_dist.
    rewrite (nth_error_nth _ _ _ Hd); reflexivity.
Qed.

Lemma same_except_upd {A} (l : list A) (k : nat) (v : A) :
  same_except k l (upd l k v).
Proof.
  split; [apply upd_length | intros j Hj; apply upd_nth_other; congruence].
Qed.

Lemma chess_step_absorb (U : matrix F) (MM : list F) (gt ga : F) (i : nat)
  (s : boxes F) (x : list F) (distance : list (F * F)) :
  getitem U i = Ok x ->
  hand_dist x (firstn (contador s) (BOX_miu s)) = Ok distance ->
  candidates distance gt ga <> [] ->
  chess_step U MM gt ga i s
  = (DIS <- map_res (combined distance gt ga) (candidates distance gt ga) ;;
     b <- argmin DIS ;;
     k <- getitem (candidates distance gt ga) b ;;
     gd <- getitem MM i ;;
     absorb k x gd s)%res.
Proof.
  intros Hx Hd Hne; unfold chess_step.
  rewrite Hx; simpl; rewrite Hd; simpl.
  destruct (candidates distance gt ga); [congruence | reflexivity].
Qed.

Lemma absorb_total (L k : nat) (x : list F) (gd : F) (s : boxes F) :
  boxes_wf L s -> k < contador s -> exists s', absorb k x gd s = Ok s'.
Proof.
  intros [H1 H2 H3 H4 H5 H6 H7 H8] Hk; unfold absorb.
  destruct (getitem_total (BOX_S s) k ltac:(lia)) as (n0 & ->); simpl.
  rewrite setitem_total by lia; simpl.
  destruct (getitem_total (BOX_miu s) k ltac:(lia)) as (miu & ->); simpl.
  rewrite setitem_total by lia; simpl.
  destruct (getitem_total (BOX_X s) k ltac:(lia)) as (X & ->); simpl.
  rewrite setitem_total by lia; simpl.
  destruct (getitem_total (BOXMT s) k ltac:(lia)) as (mt & ->); simpl.
  rewrite setitem_total by lia; simpl.
  eexists; reflexivity.
Qed.

(** A sample with a candidate box is absorbed: the step returns. *)
Lemma chess_step_absorb_total (L : nat) (U : matrix F) (MM : list F)
  (gt ga : F) (i : nat) (s : boxes F) (x : list F) (gd : F)
  (distance : list (F * F)) :
  boxes_wf L s ->
  getitem U i = Ok x ->
  getitem MM i = Ok gd ->
  hand_dist x (firstn (contador s) (BOX_miu s)) = Ok distance ->
  candidates distance gt ga <> [] ->
  exists s', chess_step U MM gt ga i s = Ok s'.
Proof.
  intros Hwf Hx Hgd Hd Hne.
  rewrite (chess_step_absorb _ _ _ _ _ _ _ _ Hx Hd Hne).
  destruct (map_res_total (combined distance gt ga) (candidates distance gt ga))
    as (DIS & HDIS).
  { intros c Hc; apply candidates_lt in Hc.
    destruct (getitem_total distance c Hc) as (d & Hdc).
    unfold combined; rewrite Hdc; simpl; eexists; reflexivity. }
  rewrite HDIS; simpl.
  pose proof (map_res_length _ _ _ HDIS) as Hlen.
  destruct DIS as [|v DIS].
  { destruct (candidates distance gt ga); [congruence | discriminate]. }
  destruct (argmin (v :: DIS)) as [b|e] eqn:Hb; [|discriminate].
  simpl.
  pose proof (argmin_lt _ _ Hb) as Hblt; rewrite Hlen in Hblt.
  destruct (getitem_total _ _ Hblt) as (k & Hk); rewrite Hk; simpl.
  rewrite Hgd; simpl.
  apply (absorb_total L); [exact Hwf|].
  apply getitem_In, candidates_lt in Hk.
  rewrite (hand_dist_length _ _ _ Hd), length_firstn in Hk; lia.
Qed.

(** The step that absorbs a sample, in terms of the subscript list
    [candidates] the program builds. *)
Lemma absorb_step_spec (L : nat) (U : matrix F) (MM : list F)
  (gt ga : F) (i : nat) (s : boxes F) (x : list F) (gd : F)
  (distance : list (F * F)) :
  boxes_wf L s ->
  getitem U i = Ok x ->
  getitem MM i = Ok gd ->
  hand_dist x (firstn (contador s) (BOX_miu s)) = Ok distance ->
  candidates distance gt ga <> [] ->
  exists (s' : boxes F) (k : nat) (n : Z) (miu : list F) (X mt : F),
    chess_step U MM gt ga i s = Ok s' /\
    In k (candidates distance gt ga) /\
    (forall c, In c (candidates distance gt ga) ->
       fltb (norm_dist distance gt ga c) (norm_dist distance gt ga k) = false)
    /\
    (forall c, In c (candidates distance gt ga) -> c < k ->
       fltb (norm_dist distance gt ga c) (norm_dist distance gt ga k) = false
       /\ feqb (norm_dist distance gt ga c) (norm_dist distance gt ga k)
          = false)
    /\ nth_error (BOX_S s) k = Some (n - 1)%Z
    /\ nth_error (BOX_miu s) k = Some miu
    /\ nth_error (BOX_X s) k = Some X
    /\ nth_error (BOXMT s) k = Some mt
    /\ nth_error (BOX_S s') k = Some n
    /\ nth_error (BOX_miu s') k
       = Some (zipw fadd
                 (map (fun m => ((ofZ n - ofZ 1) / ofZ n * m)%sc) miu)
                 (map (fun xi => (xi / ofZ n)%sc) x))
    /\ nth_error (BOX_X s') k
       = Some ((ofZ n - ofZ 1) / ofZ n * X + sumsq x / ofZ n)%sc
    /\ nth_error (BOXMT s') k = Some (mt + gd)%sc
    /\ same_except k (BOX_S s) (BOX_S s')
    /\ same_except k (BOX_miu s) (BOX_miu s')
    /\ same_except k (BOX_X s) (BOX_X s')
    /\ same_except k (BOXMT s) (BOXMT s')
    /\ BOX s' = BOX s /\ contador s' = contador s /\ NB s' = NB s.
Proof.
  intros Hwf Hx Hgd0 Hd Hne.
  destruct (chess_step_absorb_total L U MM gt ga i s x gd distance
              Hwf Hx Hgd0 Hd Hne) as (s' & H).
  pose proof H as Hrun.
  rewrite (chess_step_absorb _ _ _ _ _ _ _ _ Hx Hd Hne) in H.
  pose proof (candidates_sorted distance gt ga) as Hsorted.
  set (SQ := candidates distance gt ga) in *.
  bind_inv H as DIS HDIS; bind_inv H as b Hb; bind_inv H as k Hk;
    bind_inv H as gd' Hgd.
  rewrite Hgd0 in Hgd; injection Hgd as <-.
  apply combined_eq in HDIS; apply argmin_spec in Hb.
  destruct Hb as (m & Hm & Hmin & Hfirst).
  apply getitem_ok in Hk.
  assert (Hmk : m = norm_dist distance gt ga k).
  { subst DIS; rewrite nth_error_map, Hk in Hm; injection Hm as <-.
    reflexivity. }
  subst m.
  unfold absorb in H.
  bind_inv H as n0 Hn0; bind_set H as K1.
  bind_inv H as miu Hmiu; bind_set H as K2.
  bind_inv H as X HX; bind_set H as K3.
  bind_inv H as mt Hmt; bind_set H as K4.
  injection H as <-; simpl.
  apply getitem_ok in Hn0, Hmiu, HX, Hmt.
  eexists; exists k, (n0 + 1)%Z, miu, X, mt.
  split; [exact Hrun|]; simpl.
  repeat match goal with |- _ /\ _ => split end;
    try reflexivity; try assumption;
    try (apply upd_nth_same; assumption);
    try apply same_except_upd.
  - eapply nth_error_In; exact Hk.
  - intros c Hc; apply In_nth_error in Hc; destruct Hc as (p & Hp).
    apply (Hmin p); subst DIS; rewrite nth_error_map, Hp; reflexivity.
  - intros c Hc Hlt; apply In_nth_error in Hc; destruct Hc as (p & Hp).
    apply (Hfirst p).
    + destruct (Nat.lt_trichotomy p b) as [Hpb | [-> | Hpb]]; [exact Hpb| |].
      * rewrite Hk in Hp; injection Hp as ->; lia.
      * pose proof (sorted_nth _ _ _ _ _ Hsorted Hk Hp Hpb); lia.
    + subst DIS; rewrite nth_error_map, Hp; reflexivity.
  - replace (n0 + 1 - 1)%Z with n0 by lia; exact Hn0.
Qed.

Lemma within_candidates (distance : list (F * F)) (gt ga : F) (c : nat) :
  In c (candidates distance gt ga) <-> within distance gt ga c = true.
Proof.
  rewrite candidates_spec; unfold within; split.
  - intros ([de da] & -> & H1 & H2); simpl in H1, H2.
    rewrite H1, H2; reflexivity.
  - destruct (nth_error distance c) as [[de da]|]; [|discriminate].
    intros H; apply andb_prop in H; destruct H as [H1 H2].
    exists (de, da); split; [reflexivity | split; assumption].
Qed.

(** C6.  When some box is within the thresholds of a sample
    ([d_euclid < grid_trad] and [d_angular < grid_angl]), the step
    returns and the sample is absorbed by the box [k] within the
    thresholds that has the least combined distance
    [d_euclid / grid_trad + d_angular / grid_angl], the lowest such box
    on a tie: no box within the thresholds is below [k], and every such
    box before [k] is neither below nor equal.  Box [k] gets the count
    [n], the mean [(n-1)/n * mean + sample/n], the squared norm
    [(n-1)/n * sumSqNorm + ||sample||^2/n] and the density mass
    [densityMass + GD]; every other box, and the number of boxes, stay as
    they were. *)
Theorem absorb_nearest_candidate (L : nat) (U : matrix F) (MM : list F)
  (gt ga : F) (i : nat) (s : boxes F) (x : list F) (gd : F)
  (distance : list (F * F)) :
  boxes_wf L s ->
  getitem U i = Ok x ->
  getitem MM i = Ok gd ->
  hand_dist x (firstn (contador s) (BOX_miu s)) = Ok distance ->
  (exists c, within distance gt ga c = true) ->
  exists (s' : boxes F) (k : nat) (n : Z) (miu : list F) (X mt : F),
    chess_step U MM gt ga i s = Ok s' /\
    within distance gt ga k = true /\
    (forall c, within distance gt ga c = true ->
       fltb (norm_dist distance gt ga c) (norm_dist distance gt ga k) = false)
    /\
    (forall c, within distance gt ga c = true -> c < k ->
       fltb (norm_dist distance gt ga c) (norm_dist distance gt ga k) = false
       /\ feqb (norm_dist distance gt ga c) (norm_dist distance gt ga k)
          = false)
    /\ nth_error (BOX_S s) k = Some (n - 1)%Z
    /\ nth_error (BOX_miu s) k = Some miu
    /\ nth_error (BOX_X s) k = Some X
    /\ nth_error (BOXMT s) k = Some mt
    /\ nth_error (BOX_S s') k = Some n
    /\ nth_error (BOX_miu s') k
       = Some (zipw fadd
                 (map (fun m => ((ofZ n - ofZ 1) / ofZ n * m)%sc) miu)
                 (map (fun xi => (xi / ofZ n)%sc) x))
    /\ nth_error (BOX_X s') k
       = Some ((ofZ n - ofZ 1) / ofZ n * X + sumsq x / ofZ n)%sc
    /\ nth_error (BOXMT s') k = Some (mt + gd)%sc
    /\ same_except k (BOX_S s) (BOX_S s')
    /\ same_except k (BOX_miu s) (BOX_miu s')
    /\ same_except k (BOX_X s) (BOX_X s')
    /\ same_except k (BOXMT s) (BOXMT s')
    /\ BOX s' = BOX s /\ contador s' = contador s /\ NB s' = NB s.
Proof.
  intros Hwf Hx Hgd Hd (c0 & Hc0).
  assert (Hne : candidates distance gt ga <> []).
  { apply within_candidates in Hc0; intros E; rewrite E in Hc0.
    destruct Hc0. }
  destruct (absorb_step_spec L U MM gt ga i s x gd distance Hwf Hx Hgd Hd Hne)
    as (s' & k & n & miu & X & mt & Hrun & Hk & Hmin & Htie & Hrest).
  exists s', k, n, miu, X, mt.
  split; [exact Hrun|].
  split; [apply within_candidates; exact Hk|].
  split; [intros c Hc; apply Hmin, within_candidates; exact Hc|].
  split; [intros c Hc Hlt; apply Htie; [apply within_candidates; exact Hc
                                       | exact Hlt]|].
  exact Hrest.
Qed.

End Selection.

(** ** Exact arithmetic: sums and norms over the reals *)

Section RealSums.

Local Open Scope R_scope.

Lemma fold_left_Rplus (l : list R) (a : R) :
  fold_left Rplus l a = a + rsum l.
Proof.
  revert a; induction l as [|x l IH]; intros a; simpl; [lra|].
  rewrite IH; lra.
Qed.

Lemma vsum_rsum (l : list R) : vsum l = rsum l.
Proof. unfold vsum; simpl; rewrite fold_left_Rplus; lra. Qed.

Lemma sumsq_rsum (r : list R) : sumsq r = rsum (map (fun x => x * x) r).
Proof. unfold sumsq; rewrite vsum_rsum; reflexivity. Qed.

Lemma rsum_sq_nonneg (r : list R) : 0 <= rsum (map (fun x => x * x) r).
Proof. induction r as [|x r IH]; simpl; [lra | nra]. Qed.

Lemma rsum_app (l1 l2 : list R) : rsum (l1 ++ l2) = rsum l1 + rsum l2.
Proof. induction l1 as [|x l IH]; simpl; [lra | rewrite IH; lra]. Qed.

Lemma rsum_scale (c : R) (l : list R) :
  rsum (map (fun x => c * x) l) = c * rsum l.
Proof. induction l as [|x l IH]; simpl; [lra | rewrite IH; lra]. Qed.

(** *** Cauchy-Schwarz *)

Lemma quadratic_sum (a b : list R) (t : R) :
  length a = length b ->
  rsum (map (fun p => (fst p * t - snd p) * (fst p * t - snd p)) (combine a b))
  = rsum (map (fun x => x * x) a) * t * t
    - 2 * rsum (zipw Rmult a b) * t
    + rsum (map (fun x => x * x) b).
Proof.
  revert b; induction a as [|x a IH]; intros [|y b] Hlen; simpl in *;
    try discriminate; [lra|].
  rewrite IH by lia; lra.
Qed.

Lemma rsum_nonneg (l : list R) : Forall (fun x => 0 <= x) l -> 0 <= rsum l.
Proof. induction 1; simpl; lra. Qed.

Lemma cauchy_schwarz (a b : list R) :
  length a = length b ->
  rsum (zipw Rmult a b) * rsum (zipw Rmult a b)
  <= rsum (map (fun x => x * x) a) * rsum (map (fun x => x * x) b).
Proof.
  intros Hlen.
  set (A := rsum (map (fun x => x * x) a)).
  set (B := rsum (map (fun x => x * x) b)).
  set (P := rsum (zipw Rmult a b)).
  assert (HA : 0 <= A) by apply rsum_sq_nonneg.
  assert (HB : 0 <= B) by apply rsum_sq_nonneg.
  assert (Hq : forall t, 0 <= A * t * t - 2 * P * t + B).
  { intros t; unfold A, P, B; rewrite <- (quadratic_sum a b t Hlen).
    apply rsum_nonneg, Forall_forall; intros z Hz.
    apply in_map_iff in Hz; destruct Hz as (p & <- & _).
    exact (Rle_0_sqr (fst p * t - snd p)). }
  destruct (Req_dec A 0) as [HA0 | HA0].
  - (* A = 0 forces P = 0 *)
    rewrite HA0 in *.
    assert (HP : P = 0).
    { destruct (Req_dec P 0) as [HP | HP]; [exact HP | exfalso].
      pose proof (Hq ((B + 1) / (2 * P))) as H1.
      replace (0 * ((B + 1) / (2 * P)) * ((B + 1) / (2 * P))
               - 2 * P * ((B + 1) / (2 * P)) + B) with (-1) in H1
        by (field; exact HP).
      lra. }
    rewrite HP; lra.
  - pose proof (Hq (P / A)) as H.
    assert (HApos : 0 < A) by lra.
    assert (E : A * (P / A) * (P / A) - 2 * P * (P / A) + B
                = B - P * P / A) by (field; lra).
    rewrite E in H.
    assert (H' : P * P / A <= B) by lra.
    apply (Rmult_le_compat_r A) in H'; [|lra].
    replace (P * P / A * A) with (P * P) in H' by (field; lra).
    lra.
Qed.

End RealSums.

(** ** The angular distance over the reals *)

Section RealDistance.

Local Open Scope R_scope.

Lemma hand_fold (a b : list R) (x y z w : R) :
  length a = length b ->
  fold_left hand_acc (combine a b) (x, y, z, w)
  = (x + rsum (map (fun p => (fst p - snd p) * (fst p - snd p)) (combine a b)),
     y + rsum (zipw Rmult a b),
     z + rsum (map (fun u => u * u) a),
     w + rsum (map (fun u => u * u) b)).
Proof.
  revert b x y z w; induction a as [|u a IH]; intros [|v b] x y z w Hlen;
    simpl in *; try discriminate.
  - repeat match goal with |- (_, _) = (_, _) => apply f_equal2 end; lra.
  - unfold sq; simpl; rewrite IH by lia.
    repeat match goal with |- (_, _) = (_, _) => apply f_equal2 end; lra.
Qed.

Lemma cos_similarity_le_1 (a b : list R) :
  length a = length b -> sumsq a <> 0 -> sumsq b <> 0 ->
  cos_similarity a b <= 1.
Proof.
  intros Hlen Ha Hb; unfold cos_similarity, dotp; simpl.
  rewrite vsum_rsum, !sumsq_rsum in *.
  pose proof (cauchy_schwarz a b Hlen) as HCS.
  set (A := rsum (map (fun x => x * x) a)) in *.
  set (B := rsum (map (fun x => x * x) b)) in *.
  set (P := rsum (zipw Rmult a b)) in *.
  assert (HA : 0 < A) by (pose proof (rsum_sq_nonneg a); fold A in H; lra).
  assert (HB : 0 < B) by (pose proof (rsum_sq_nonneg b); fold B in H; lra).
  pose proof (sqrt_lt_R0 A HA) as HsA; pose proof (sqrt_lt_R0 B HB) as HsB.
  pose proof (sqrt_sqrt A (Rlt_le _ _ HA)) as EA.
  pose proof (sqrt_sqrt B (Rlt_le _ _ HB)) as EB.
  assert (Hpos : 0 < sqrt A * sqrt B) by nra.
  apply (Rmult_le_reg_r (sqrt A * sqrt B)); [exact Hpos|].
  replace (P / (sqrt A * sqrt B) * (sqrt A * sqrt B)) with P by (field; nra).
  rewrite Rmult_1_l.
  destruct (Rle_dec P 0) as [HP | HP]; [lra|].
  apply Rnot_le_lt in HP.
  assert (Hsq : P * P <= (sqrt A * sqrt B) * (sqrt A * sqrt B)) by nra.
  nra.
Qed.

Lemma hand_row_real (a b : list R) :
  length a = length b -> sumsq a <> 0 -> sumsq b <> 0 ->
  exists d, hand_row a b = Ok (d, sqrt (1 - cos_similarity a b)).
Proof.
  intros Hlen Ha Hb.
  pose proof (cos_similarity_le_1 a b Hlen Ha Hb) as Hcos.
  unfold hand_row.
  destruct b as [|v b]; [exfalso; apply Hb; unfold sumsq, vsum; reflexivity|].
  rewrite Hlen, Nat.ltb_irrefl.
  change (ofZ 0, ofZ 0, ofZ 0, ofZ 0) with (0, 0, 0, 0).
  rewrite (hand_fold a (v :: b) 0 0 0 0 Hlen).
  eexists; f_equal; f_equal.
  unfold cos_similarity, dotp in *; simpl rt4; simpl rt2; unfold sq.
  rewrite vsum_rsum, !sumsq_rsum in *; simpl fsqrt in *; simpl fdiv in *;
    simpl fmul in *; simpl fsub; simpl ofZ.
  rewrite !Rplus_0_l.
  rewrite sqrt_square by lra; reflexivity.
Qed.

(** C8, as the program has it.  Over the reals, for a nonzero vector
    [XA] and rows [XB] that are nonzero and as long as [XA], the angular
    component that [hand_dist] returns for a row [b] is the square root
    of [1 - cos_similarity(XA, b)], that is [((1 - cos)^2)^(1/4)]. *)
Theorem hand_dist_angular_real (XA : list R) (XB : matrix R) :
  sumsq XA <> 0 ->
  Forall (fun b => length b = length XA /\ sumsq b <> 0) XB ->
  exists distance,
    hand_dist XA XB = Ok distance /\
    map snd distance = map (fun b => sqrt (1 - cos_similarity XA b)) XB.
Proof.
  intros Ha HXB; unfold hand_dist.
  induction HXB as [|b XB [Hlen Hb] _ IH]; simpl.
  - exists []; split; reflexivity.
  - destruct (hand_row_real XA b (eq_sym Hlen) Ha Hb) as (d & ->).
    destruct IH as (rest & -> & Hrest).
    eexists; split; [reflexivity|].
    simpl; rewrite Hrest; reflexivity.
Qed.

End RealDistance.

(** ** Row normalisation *)

Section Normalise.

Context {F : Type} {SF : Scalar F}.






End Normalise.

(** ** The thresholds over the reals *)

Section RealGrid.

Local Open Scope R_scope.

Local Abbreviation sqs := (map (fun x : R => x * x)).


Lemma sq_sub (u v : list R) :
  length u = length v ->
  rsum (sqs (zipw Rminus u v))
  = rsum (sqs u) - 2 * rsum (zipw Rmult u v) + rsum (sqs v).
Proof.
  revert v; induction u as [|x u IH]; intros [|y v] H; simpl in *;
    try discriminate; [lra|].
  rewrite IH by lia; lra.
Qed.

Lemma dot_add (u v r : list R) :
  length u = length r -> length v = length r ->
  rsum (zipw Rmult (zipw Rplus u v) r)
  = rsum (zipw Rmult u r) + rsum (zipw Rmult v r).
Proof.
  revert v r; induction u as [|x u IH]; intros [|y v] [|z r] H1 H2;
    simpl in *; try discriminate; [lra|].
  rewrite IH by lia; lra.
Qed.

Lemma dot_comm (u v : list R) :
  rsum (zipw Rmult u v) = rsum (zipw Rmult v u).
Proof.
  revert v; induction u as [|x u IH]; intros [|y v]; simpl; try reflexivity.
  rewrite IH; lra.
Qed.

Lemma dot_zero (W : nat) (r : list R) :
  rsum (zipw Rmult (repeat 0 W) r) = 0.
Proof.
  revert r; induction W as [|W IH]; intros [|z r]; simpl; try reflexivity.
  rewrite IH; lra.
Qed.


Lemma rvsum_length (W : nat) (d : matrix R) :
  rectangular W d -> length (rvsum W d) = W.
Proof.
  induction 1 as [|r d Hr _ IH]; simpl; [apply repeat_length|].
  rewrite zipw_length, IH, Hr; apply Nat.min_id.
Qed.

(** The squared distances from the rows of [d] to [r] add up to
    [sum |r_i|^2 - 2 (sum r_i) . r + L |r|^2]. *)
Lemma dist_sum (W : nat) (r : list R) (d : matrix R) :
  length r = W -> rectangular W d ->
  rsum (map (fun u => rsum (sqs (zipw Rminus u r))) d)
  = rsum (map (fun u => rsum (sqs u)) d)
    - 2 * rsum (zipw Rmult (rvsum W d) r)
    + INR (length d) * rsum (sqs r).
Proof.
  intros Hr; induction 1 as [|u d Hu Hd IH].
  - simpl; rewrite dot_zero; lra.
  - cbn [map rsum rvsum length]; rewrite S_INR, IH.
    rewrite sq_sub by lia.
    rewrite dot_add; [lra | lia | rewrite rvsum_length; auto].
Qed.






End RealGrid.

Section RealThresholds.

Local Open Scope R_scope.

Local Abbreviation sqs := (map (fun x : R => x * x)).



Lemma zipw_plus_assoc (u v w : list R) :
  zipw Rplus (zipw Rplus u v) w = zipw Rplus u (zipw Rplus v w).
Proof.
  revert v w; induction u as [|x u IH]; intros [|y v] [|z w]; simpl;
    try reflexivity.
  rewrite IH; f_equal; lra.
Qed.

Lemma zipw_zero_l (v : list R) : zipw Rplus (repeat 0 (length v)) v = v.
Proof.
  induction v as [|x v IH]; simpl; [reflexivity|].
  rewrite IH; f_equal; lra.
Qed.

Lemma colsum_fold (W : nat) (d : matrix R) (acc : list R) :
  rectangular W d -> length acc = W ->
  fold_left (zipw Rplus) d acc = zipw Rplus acc (rvsum W d).
Proof.
  intros Hd; revert acc; induction Hd as [|r d Hr Hd IH]; intros acc Hacc.
  - simpl; subst W.
    induction acc as [|x acc IH]; simpl; [reflexivity|].
    rewrite <- IH; f_equal; lra.
  - simpl; rewrite IH, zipw_plus_assoc; [reflexivity|].
    rewrite zipw_length, Hacc, Hr; apply Nat.min_id.
Qed.

Lemma colsum_rvsum (d : matrix R) :
  rectangular (ncols d) d -> colsum d = rvsum (ncols d) d.
Proof.
  intros Hd; unfold colsum; simpl.
  rewrite (colsum_fold (ncols d) d _ Hd) by apply repeat_length.
  rewrite <- (rvsum_length (ncols d) d Hd) at 1.
  apply zipw_zero_l.
Qed.

Lemma zipw_mult_self (l : list R) : zipw Rmult l l = sqs l.
Proof. induction l as [|x l IH]; simpl; [|rewrite IH]; reflexivity. Qed.

Lemma sq_scale (c : R) (l : list R) :
  rsum (sqs (map (fun s => s / c) l)) = rsum (sqs l) / (c * c).
Proof.
  destruct (Req_dec c 0) as [-> | Hc].
  - induction l as [|x l IH]; simpl.
    + unfold Rdiv; rewrite Rmult_0_l; reflexivity.
    + rewrite IH; unfold Rdiv; rewrite Rmult_0_l, Rinv_0; lra.
  - induction l as [|x l IH]; simpl; [field; exact Hc|].
    rewrite IH; field; exact Hc.
Qed.

Lemma ofnat_INR (n : nat) : @ofnat R _ n = INR n.
Proof. unfold ofnat; simpl; symmetry; apply INR_IZR_INZ. Qed.









End RealThresholds.

(** ** The statements at sample inputs *)

Lemma soda_labels_in_range_witness :
  length (IDX ex_out) = length ex_data /\
  Forall (fun l => (1 <= l <= Z.of_nat (length (C ex_out)))%Z) (IDX ex_out) /\
  length (C ex_out) <= bp_NB (SystemParams ex_out) /\
  bp_NB (SystemParams ex_out) <= length ex_data /\
  length (bp_BOX (SystemParams ex_out)) = bp_NB (SystemParams ex_out).
Proof.
  apply (soda_labels_in_range ex_input [ex_data] ex_data ex_out).
  - reflexivity.
  - vm_compute; reflexivity.
Defined.

Lemma chessboard_member_count_witness :
  zsum [2; 1]%Z = Z.of_nat (length ex_U).
Proof.
  apply (chessboard_member_count ex_U ex_MM (fl 2) (fl 1) "euclidean"
           (flm [[1;10];[10;1]]%Z)
           [[1.5%float; fl 10]; [fl 10; fl 1]]
           [102.5%float; fl 101] [2; 1]%Z (map fl [5;1]%Z) 2).
  vm_compute; reflexivity.
Defined.



Lemma ex_s2_wf : boxes_wf 3 ex_s2.
Proof.
  constructor; try reflexivity; simpl; try lia.
  intros j Hj HjL; assert (j = 2) as -> by lia; reflexivity.
Defined.

(** Boxes 0 and 1 of [ex_s2] are both within the thresholds of the third
    sample of [ex_U2], and box 1 has the strictly smaller combined
    distance: the sample is absorbed by box 1, not by the first
    candidate. *)
Lemma absorb_nearest_candidate_witness :
  within ex_distance2 (fl 2) (fl 1) 0 = true /\
  within ex_distance2 (fl 2) (fl 1) 1 = true /\
  fltb (norm_dist ex_distance2 (fl 2) (fl 1) 1)
       (norm_dist ex_distance2 (fl 2) (fl 1) 0) = true /\
  exists (s' : boxes float) (n : Z) (miu : list float) (X mt : float),
    chess_step ex_U2 ex_MM (fl 2) (fl 1) 2 ex_s2 = Ok s' /\
    within ex_distance2 (fl 2) (fl 1) 1 = true /\
    (forall c, within ex_distance2 (fl 2) (fl 1) c = true ->
       fltb (norm_dist ex_distance2 (fl 2) (fl 1) c)
            (norm_dist ex_distance2 (fl 2) (fl 1) 1) = false)
    /\
    (forall c, within ex_distance2 (fl 2) (fl 1) c = true -> c < 1 ->
       fltb (norm_dist ex_distance2 (fl 2) (fl 1) c)
            (norm_dist ex_distance2 (fl 2) (fl 1) 1) = false
       /\ feqb (norm_dist ex_distance2 (fl 2) (fl 1) c)
               (norm_dist ex_distance2 (fl 2) (fl 1) 1) = false)
    /\ nth_error (BOX_S ex_s2) 1 = Some (n - 1)%Z
    /\ nth_error (BOX_miu ex_s2) 1 = Some miu
    /\ nth_error (BOX_X ex_s2) 1 = Some X
    /\ nth_error (BOXMT ex_s2) 1 = Some mt
    /\ nth_error (BOX_S s') 1 = Some n
    /\ nth_error (BOX_miu s') 1
       = Some (zipw fadd
                 (map (fun m => ((ofZ n - ofZ 1) / ofZ n * m)%sc) miu)
                 (map (fun xi => (xi / ofZ n)%sc) (map fl [2; 11]%Z)))
    /\ nth_error (BOX_X s') 1
       = Some ((ofZ n - ofZ 1) / ofZ n * X
               + sumsq (map fl [2; 11]%Z) / ofZ n)%sc
    /\ nth_error (BOXMT s') 1 = Some (mt + fl 1)%sc
    /\ same_except 1 (BOX_S ex_s2) (BOX_S s')
    /\ same_except 1 (BOX_miu ex_s2) (BOX_miu s')
    /\ same_except 1 (BOX_X ex_s2) (BOX_X s')
    /\ same_except 1 (BOXMT ex_s2) (BOXMT s')
    /\ BOX s' = BOX ex_s2 /\ contador s' = contador ex_s2
    /\ NB s' = NB ex_s2.
Proof.
  split; [vm_compute; reflexivity|].
  split; [vm_compute; reflexivity|].
  split; [vm_compute; reflexivity|].
  destruct (absorb_nearest_candidate 3 ex_U2 ex_MM (fl 2) (fl 1) 2 ex_s2
              (map fl [2; 11]%Z) (fl 1) ex_distance2)
    as (s' & k & n & miu & X & mt & Hrun & Hk & Hmin & Hrest).
  - exact ex_s2_wf.
  - reflexivity.
  - reflexivity.
  - vm_compute; reflexivity.
  - exists 0; vm_compute; reflexivity.
  - destruct k as [|[|k]].
    + assert (H1 : within ex_distance2 (fl 2) (fl 1) 1 = true)
        by (vm_compute; reflexivity).
      specialize (Hmin 1 H1); vm_compute in Hmin; discriminate.
    + exists s', n, miu, X, mt.
      exact (conj Hrun (conj Hk (conj Hmin Hrest))).
    + unfold within, ex_distance2 in Hk; simpl in Hk.
      destruct k; discriminate.
Defined.

(** C4: the entry point raises on one sample, and on a sample repeated.
    The threshold [grid_trad] is 0 there, so no box is within
    [2 * grid_trad] of itself ([0 < 0] is false), the neighbourhood of
    Condition 2 is empty and [max] of the empty list raises. *)
Theorem identical_rows_raise :
  fst (run_soda ex_single (fl 1)) = Raise ValueError /\
  fst (run_soda ex_repeated (fl 1)) = Raise ValueError /\
  (exists X1 AvD1 AvD2 ga,
     fst (grid_set 0 (fl 1) [ex_single]) = Ok (X1, AvD1, AvD2, fl 0, ga)) /\
  nbhd ex_single (fl 0) (fl 0) 0 = [] /\
  is_peak ex_single [fl 1] (fl 0) (fl 0) 0 = Raise ValueError.
Proof.
  split; [vm_compute; reflexivity|].
  split; [vm_compute; reflexivity|].
  split; [do 4 eexists; vm_compute; reflexivity|].
  split; vm_compute; reflexivity.
Qed.

(** C9: [grid_set] on a matrix with an all-zero row.  With three columns
    the assignment to the NaN cells raises [IndexError]; with two columns
    and the zero row second, a NaN stays in [new_data] and a cell of the
    other row is overwritten; with one column the other row is
    overwritten as well. *)
Theorem zero_row_not_set_to_one :
  fst (grid_set 0 (fl 1) [ex_zero3]) = Raise IndexError /\
  (exists u v w, snd (grid_set 0 (fl 1) [ex_zero2])
                 = [ex_zero2; [[u; fl 1]; [v; w]]]
                 /\ fisnan v = true) /\
  snd (grid_set 0 (fl 1) [ex_zero1]) = [ex_zero1; [[fl 1]; [fl 1]]].
Proof.
  split; [vm_compute; reflexivity|].
  split; [|vm_compute; reflexivity].
  do 3 eexists; split; vm_compute; reflexivity.
Qed.

(** Two floats with different representations are different. *)
Lemma float_neq (x y : float) : Prim2SF x <> Prim2SF y -> x <> y.
Proof. intros H E; apply H; rewrite E; reflexivity. Qed.



(** C8 fails as stated: for [ex_a] and [ex_b] the cosine similarity is
    15/16, the angular component returned is [((1/16)^2)^(1/4) = 1/4],
    and the fourth root of [1 - 15/16] is 1/2. *)
Lemma angular_fourth_root_counterexample :
  cos_similarity ex_a ex_b = 0.9375%float /\
  rt4 (fsub (fl 1) (cos_similarity ex_a ex_b)) = 0.5%float /\
  exists d v,
    hand_dist ex_a [ex_b] = Ok [(d, v)] /\ v = 0.25%float /\
    v <> rt4 (fsub (fl 1) (cos_similarity ex_a ex_b)).
Proof.
  split; [vm_compute; reflexivity|].
  split; [vm_compute; reflexivity|].
  do 2 eexists; split; [vm_compute; reflexivity|].
  split; [reflexivity|].
  apply float_neq; vm_compute; discriminate.
Qed.

Lemma hand_dist_angular_real_witness :
  exists distance,
    hand_dist ex_ra [ex_rb] = Ok distance /\
    map snd distance
    = map (fun b => sqrt (1 - cos_similarity ex_ra b)) [ex_rb].
Proof.
  apply (hand_dist_angular_real ex_ra [ex_rb]).
  - unfold ex_ra, sumsq, vsum; simpl; lra.
  - constructor; [|constructor].
    split; [reflexivity|].
    unfold ex_rb, sumsq, vsum; simpl; lra.
Defined.

(** * Further properties of the engine *)

(** ** The aggregation pass returns, and keeps its seeds *)

Section Aggregation.

Context {F : Type} {SF : Scalar F}.

(** A loop over [range(a, a+n)] whose body keeps an invariant and never
    raises under it returns. *)
Lemma for_each_seq_total {S} (f : nat -> S -> result S)
  (I : nat -> S -> Prop) (n : nat) :
  forall a s,
    I a s ->
    (forall i t, a <= i < a + n -> I i t ->
                 exists t', f i t = Ok t' /\ I (Datatypes.S i) t') ->
    exists s', for_each f (seq a n) s = Ok s' /\ I (a + n) s'.
Proof.
  induction n as [|n IH]; intros a s Hs Hstep; simpl.
  - exists s; rewrite Nat.add_0_r; auto.
  - destruct (Hstep a s ltac:(lia) Hs) as (t' & -> & Ht').
    destruct (IH (Datatypes.S a) t' Ht') as (s' & Hrun & Hs').
    + intros i t Hi; apply Hstep; lia.
    + exists s'; split; [exact Hrun|].
      replace (a + Datatypes.S n) with (Datatypes.S a + n) by lia; exact Hs'.
Qed.

Lemma Forall_upd {A} (P : A -> Prop) (l : list A) (i : nat) (v : A) :
  Forall P l -> P v -> Forall P (upd l i v).
Proof.
  intros Hl Hv; revert i; induction Hl as [|a l Ha Hl IH]; intros [|i];
    simpl; constructor; auto.
Qed.

Lemma Forall_firstn {A} (P : A -> Prop) (n : nat) (l : list A) :
  Forall P l -> Forall P (firstn n l).
Proof.
  intros H; revert n; induction H as [|a l Ha Hl IH]; intros [|n]; simpl;
    constructor; auto.
Qed.

(** What one turn of the loop does to the number of boxes and to the
    width of the means. *)
Lemma chess_step_shape (W : nat) (U : matrix F) (MM : list F) (gt ga : F)
  (i : nat) (s s' : boxes F) :
  rectangular W U -> rectangular W (BOX_miu s) ->
  chess_step U MM gt ga i s = Ok s' ->
  rectangular W (BOX_miu s') /\
  contador s <= contador s' <= Datatypes.S (contador s).
Proof.
  intros HU Hmiu H; unfold chess_step in H.
  bind_inv H as x Hx; bind_inv H as distance Hd.
  assert (Hxw : length x = W).
  { unfold rectangular in HU; rewrite Forall_forall in HU.
    apply HU; eapply getitem_In; exact Hx. }
  destruct (candidates distance gt ga) as [|c SQ].
  - bind_inv H as gd Hgd; unfold new_box in H.
    bind_set H as K1; bind_set H as K2; bind_set H as K3;
      bind_set H as K4; bind_set H as K5.
    injection H as <-; simpl; split; [|lia].
    apply Forall_upd; assumption.
  - bind_inv H as DIS HDIS; bind_inv H as b Hb; bind_inv H as k Hk;
      bind_inv H as gd Hgd.
    unfold absorb in H.
    bind_inv H as n0 Hn0; bind_set H as K1.
    bind_inv H as miu Hm; bind_set H as K2.
    bind_inv H as X HX; bind_set H as K3.
    bind_inv H as mt Hmt; bind_set H as K4.
    injection H as <-; simpl; split; [|lia].
    apply Forall_upd; [exact Hmiu|].
    rewrite zipw_length, !length_map, Hxw.
    unfold rectangular in Hmiu; rewrite Forall_forall in Hmiu.
    rewrite (Hmiu miu (getitem_In _ _ _ Hm)); apply Nat.min_id.
Qed.

Lemma new_box_total (L : nat) (x : list F) (gd : F) (s : boxes F) :
  boxes_wf L s -> contador s < L -> exists s', new_box x gd s = Ok s'.
Proof.
  intros [H1 H2 H3 H4 H5 H6 H7 H8] Hc; unfold new_box.
  rewrite !setitem_total by lia; simpl.
  eexists; reflexivity.
Qed.

Lemma chess_step_total (L W : nat) (U : matrix F) (MM : list F) (gt ga : F)
  (i : nat) (s : boxes F) :
  1 <= W -> rectangular W U -> length U = L -> length MM = L ->
  boxes_wf L s -> rectangular W (BOX_miu s) -> contador s <= i -> i < L ->
  exists s', chess_step U MM gt ga i s = Ok s'.
Proof.
  intros HW HU HL HM Hwf Hmiu Hc Hi.
  destruct (getitem_total U i ltac:(lia)) as (x & Hx).
  destruct (getitem_total MM i ltac:(lia)) as (gd & Hgd).
  assert (Hxw : length x = W).
  { unfold rectangular in HU; rewrite Forall_forall in HU.
    apply HU; eapply getitem_In; exact Hx. }
  destruct (hand_dist_total W x (firstn (contador s) (BOX_miu s)) HW Hxw
              (Forall_firstn _ _ _ Hmiu)) as (distance & Hd).
  destruct (candidates distance gt ga) as [|c SQ] eqn:HSQ.
  - unfold chess_step; rewrite Hx; simpl; rewrite Hd; simpl.
    rewrite HSQ, Hgd; simpl.
    apply (new_box_total L); [exact Hwf | lia].
  - apply (chess_step_absorb_total L U MM gt ga i s x gd distance);
      try assumption.
    rewrite HSQ; discriminate.
Qed.

(** The state the loop of [chessboard_division_njit] starts from. *)
Lemma chess_start (U : matrix F) (MM : list F) (gt ga : F) (dt : string)
  (x0 : list F) (gd0 : F) :
  getitem U 0 = Ok x0 -> getitem MM 0 = Ok gd0 ->
  exists s1,
    chessboard_division_njit U MM gt ga dt
    = (s <- for_each (chess_step U MM gt ga) (seq 1 (length U - 1)) s1 ;;
       Ok (firstn (contador s) (BOX s), firstn (contador s) (BOX_miu s),
           firstn (contador s) (BOX_X s), firstn (contador s) (BOX_S s),
           firstn (contador s) (BOXMT s), NB s))%res
    /\ boxes_wf (length U) s1 /\ contador s1 = 1
    /\ BOX s1 = upd (repeat (repeat (ofZ 0) (ncols U)) (length U)) 0 x0
    /\ BOX_miu s1 = upd (repeat (repeat (ofZ 0) (ncols U)) (length U)) 0 x0
    /\ BOX_S s1 = upd (repeat 0%Z (length U)) 0 1%Z.
Proof.
  intros Hx Hgd; pose proof (getitem_lt _ _ _ Hx) as HL.
  unfold chessboard_division_njit; rewrite Hx, Hgd; simpl.
  rewrite !setitem_total by (rewrite repeat_length; exact HL); simpl.
  eexists; split; [reflexivity|].
  split; [|repeat split].
  constructor; simpl; rewrite ?upd_length, ?repeat_length; try lia.
  intros j Hj HjL; rewrite upd_nth_other by lia.
  apply repeat_nth; exact HjL.
Qed.

(** X1.  The aggregation pass raises [IndexError] on a matrix without
    rows, and returns on every rectangular matrix with at least one row
    and one column that comes with one density per row. *)
Theorem chessboard_returns (U : matrix F) (MM : list F) (gt ga : F)
  (dt : string) :
  (U = [] -> chessboard_division_njit U MM gt ga dt = Raise IndexError) /\
  (U <> [] -> 1 <= ncols U -> rectangular (ncols U) U ->
   length MM = length U ->
   exists r, chessboard_division_njit U MM gt ga dt = Ok r).
Proof.
  split; [intros ->; reflexivity|].
  intros Hne HW HU HM.
  assert (HL : 0 < length U) by (destruct U; [congruence | simpl; lia]).
  destruct (getitem_total U 0 HL) as (x0 & Hx).
  destruct (getitem_total MM 0 ltac:(lia)) as (gd0 & Hgd).
  destruct (chess_start U MM gt ga dt x0 gd0 Hx Hgd)
    as (s1 & -> & Hwf & Hc & _ & Hmiu & _).
  pose (I := fun (i : nat) (s : boxes F) =>
               boxes_wf (length U) s /\ rectangular (ncols U) (BOX_miu s)
               /\ contador s <= i).
  destruct (for_each_seq_total (chess_step U MM gt ga) I (length U - 1) 1 s1)
    as (s' & -> & _).
  - split; [exact Hwf|]; split; [|lia].
    rewrite Hmiu; apply Forall_upd.
    + apply Forall_forall; intros r Hr; apply repeat_spec in Hr.
      subst r; apply repeat_length.
    + unfold rectangular in HU; rewrite Forall_forall in HU.
      apply HU; eapply getitem_In; exact Hx.
  - intros i t Hi (Hwft & Hmt & Hct).
    destruct (chess_step_total (length U) (ncols U) U MM gt ga i t)
      as (t' & Ht'); try assumption; try lia; try reflexivity.
    exists t'; split; [exact Ht'|].
    destruct (chess_step_wf _ _ _ _ _ _ _ _ Hwft Ht') as [Hwf' _].
    destruct (chess_step_shape _ _ _ _ _ _ _ _ HU Hmt Ht') as [Hm' Hc'].
    split; [exact Hwf'|]; split; [exact Hm' | lia].
  - simpl; eexists; reflexivity.
Qed.

Lemma chess_step_seeds (L : nat) (U : matrix F) (MM : list F) (gt ga : F)
  (i : nat) (s s' : boxes F) :
  boxes_wf L s -> seeds_ok U s -> chess_step U MM gt ga i s = Ok s' ->
  seeds_ok U s'.
Proof.
  intros Hwf (Hc & H0 & Hin & Hcnt) H; unfold chess_step in H.
  bind_inv H as x Hx; bind_inv H as distance Hd.
  pose proof (getitem_In _ _ _ Hx) as HxU.
  destruct (candidates distance gt ga) as [|c SQ].
  - bind_inv H as gd Hgd; unfold new_box in H.
    bind_set H as K1; bind_set H as K2; bind_set H as K3;
      bind_set H as K4; bind_set H as K5.
    injection H as <-; unfold seeds_ok; cbn [BOX BOX_miu BOX_S BOX_X BOXMT contador NB].
    split; [lia|]; split; [rewrite upd_nth_other by lia; exact H0|].
    split.
    + intros j r Hj Hr.
      destruct (Nat.eq_dec j (contador s)) as [-> | Hne].
      * rewrite upd_nth_same in Hr by exact K1.
        injection Hr as <-; exact HxU.
      * rewrite upd_nth_other in Hr by congruence.
        apply (Hin j); [lia | exact Hr].
    + intros j n Hj Hn.
      destruct (Nat.eq_dec j (contador s)) as [-> | Hne].
      * rewrite upd_nth_same in Hn by exact K3.
        injection Hn as <-; lia.
      * rewrite upd_nth_other in Hn by congruence.
        apply (Hcnt j); [lia | exact Hn].
  - bind_inv H as DIS HDIS; bind_inv H as b Hb; bind_inv H as k Hk;
      bind_inv H as gd Hgd.
    unfold absorb in H.
    bind_inv H as n0 Hn0; bind_set H as K1.
    bind_inv H as miu Hm; bind_set H as K2.
    bind_inv H as X HX; bind_set H as K3.
    bind_inv H as mt Hmt; bind_set H as K4.
    injection H as <-; unfold seeds_ok; cbn [BOX BOX_miu BOX_S BOX_X BOXMT contador NB].
    split; [exact Hc|]; split; [exact H0|]; split; [exact Hin|].
    intros j n Hj Hn.
    destruct (Nat.eq_dec j k) as [-> | Hne].
    + rewrite upd_nth_same in Hn by exact K1.
      injection Hn as <-; apply getitem_ok in Hn0.
      specialize (Hcnt k n0 Hj Hn0); lia.
    + rewrite upd_nth_other in Hn by congruence.
      apply (Hcnt j); assumption.
Qed.

(** X2.  When the aggregation pass completes, box 0 is seeded by the
    first sample, the seed of every box is a row of the input kept as it
    was, and every box has at least one member. *)
Theorem chessboard_seeds (U : matrix F) (MM : list F) (gt ga : F)
  (dt : string) (BOX BOX_miu : matrix F) (BOX_X : list F) (BOX_S : list Z)
  (BOXMT : list F) (NB : nat) :
  chessboard_division_njit U MM gt ga dt
    = Ok (BOX, BOX_miu, BOX_X, BOX_S, BOXMT, NB) ->
  nth_error BOX 0 = nth_error U 0 /\
  (forall r, In r BOX -> In r U) /\
  Forall (fun n => (1 <= n)%Z) BOX_S.
Proof.
  intros H.
  destruct (getitem U 0) as [x0|e] eqn:Hx;
    [|unfold chessboard_division_njit in H; rewrite Hx in H; discriminate].
  destruct (getitem MM 0) as [gd0|e] eqn:Hgd.
  2:{ unfold chessboard_division_njit in H; rewrite Hx in H; simpl in H.
      pose proof (getitem_lt _ _ _ Hx) as HL.
      rewrite !setitem_total in H by (rewrite repeat_length; exact HL).
      simpl in H; rewrite Hgd in H; discriminate. }
  destruct (chess_start U MM gt ga dt x0 gd0 Hx Hgd)
    as (s1 & E & Hwf & Hc & HB & _ & HS).
  rewrite E in H; clear E.
  bind_inv H as s Hloop; injection H as <- <- <- <- <- <-.
  pose proof (getitem_lt _ _ _ Hx) as HL.
  assert (Hs1 : seeds_ok U s1).
  { unfold seeds_ok; rewrite Hc, HB, HS.
    split; [lia|]; split.
    - rewrite upd_nth_same by (rewrite repeat_length; exact HL).
      symmetry; apply getitem_ok; exact Hx.
    - split; intros j v Hj Hv; assert (j = 0) as -> by lia.
      + rewrite upd_nth_same in Hv by (rewrite repeat_length; exact HL).
        injection Hv as <-; eapply getitem_In; exact Hx.
      + rewrite upd_nth_same in Hv by (rewrite repeat_length; exact HL).
        injection Hv as <-; lia. }
  assert (Hs : boxes_wf (length U) s /\ seeds_ok U s).
  { revert Hloop.
    apply (for_each_inv_in (chess_step U MM gt ga)
             (fun t => boxes_wf (length U) t /\ seeds_ok U t));
      [|split; assumption].
    intros a t t' _ [Hwt Hst] Hstep; split.
    - apply (chess_step_wf _ _ _ _ _ _ _ _ Hwt Hstep).
    - apply (chess_step_seeds _ _ _ _ _ _ _ _ Hwt Hst Hstep). }
  destruct Hs as [Hwfs (Hcs & H0 & Hin & Hcnt)].
  split; [|split].
  - rewrite nth_error_firstn.
    destruct (Nat.ltb_spec 0 (contador s)) as [_|Hge]; [exact H0 | lia].
  - intros r Hr; apply In_nth_error in Hr; destruct Hr as (j & Hj).
    assert (Hlt : j < contador s).
    { assert (Hl : j < length (firstn (contador s) (BOX s)))
        by (apply nth_error_Some; rewrite Hj; discriminate).
      rewrite length_firstn in Hl; lia. }
    rewrite nth_error_firstn in Hj.
    destruct (Nat.ltb_spec j (contador s)) as [_|Hge]; [|lia].
    apply (Hin j); assumption.
  - apply Forall_forall; intros n Hn.
    apply In_nth_error in Hn; destruct Hn as (j & Hj).
    assert (Hlt : j < contador s).
    { assert (Hl : j < length (firstn (contador s) (BOX_S s)))
        by (apply nth_error_Some; rewrite Hj; discriminate).
      rewrite length_firstn in Hl; lia. }
    rewrite nth_error_firstn in Hj.
    destruct (Nat.ltb_spec j (contador s)) as [_|Hge]; [|lia].
    apply (Hcnt j); assumption.
Qed.

End Aggregation.

(** ** Peaks and labels *)

Section PeaksAndLabels.

Context {F : Type} {SF : Scalar F} {SO : ScalarOrder F}.

(** X3.  On a box table with at least one box, in which every box lies
    in its own neighbourhood and no density mass is NaN, peak
    identification finds at least one centre: a box of largest mass is
    always one. *)
Theorem peak_exists (BM : matrix F) (MT : list F) (NB : nat) (gt ga : F)
  (dt : string) :
  BM <> [] ->
  length MT = length BM ->
  (forall i, i < length BM -> In i (nbhd BM gt ga i)) ->
  (forall j, j < length BM -> fisnan (mass MT j) = false) ->
  exists Centers K,
    ChessBoard_PeakIdentification_njit BM MT NB gt ga dt = Ok (Centers, K) /\
    1 <= K /\ K = length Centers.
Proof.
  intros Hne Hlen Hself Hnan.
  assert (Hall : forall i, i < length BM ->
                   exists p, is_peak BM MT gt ga i = Ok p).
  { intros i Hi; apply is_peak_total; [exact Hlen | apply Hself; exact Hi]. }
  destruct (peak_loop_total BM MT gt ga (seq 0 (length BM)) ([], 0))
    as ([Centers K] & Hrun).
  { intros i Hi; apply Hall; apply in_seq in Hi; lia. }
  fold (ChessBoard_PeakIdentification_njit BM MT NB gt ga dt) in Hrun.
  pose proof (peak_result _ _ _ _ _ _ _ _ Hrun) as (HC & HK & _ & _).
  exists Centers, K; split; [exact Hrun|]; split; [|exact HK].
  (* a box of largest mass *)
  destruct MT as [|m0 MT'] eqn:HMT;
    [destruct BM; [congruence | discriminate]|].
  rewrite <- HMT in *.
  destruct (pymax MT) as [m|e] eqn:Hm; [|rewrite HMT in Hm; discriminate].
  apply pymax_spec in Hm; destruct Hm as [Hin Hmax].
  apply In_nth_error in Hin; destruct Hin as (i & Hi).
  assert (Hilt : i < length BM).
  { rewrite <- Hlen; apply nth_error_Some; rewrite Hi; discriminate. }
  assert (Hmi : mass MT i = m) by (unfold mass; apply nth_error_nth; exact Hi).
  destruct (Hall i Hilt) as (p & Hp).
  assert (Hpeak : p = true).
  { apply (is_peak_spec _ _ _ _ _ _ Hp (Hself i Hilt)
             (fun j Hj => Hnan j (nbhd_lt _ _ _ _ _ Hj))).
    intros j Hj; rewrite Hmi; apply Hmax.
    pose proof (nbhd_lt _ _ _ _ _ Hj) as Hjlt; rewrite <- Hlen in Hjlt.
    unfold mass; apply nth_In; exact Hjlt. }
  subst p.
  assert (Hinp : In i (peaks BM MT gt ga)).
  { unfold peaks; rewrite filter_In, Hp, in_seq; split; [lia | reflexivity]. }
  rewrite HK, HC, length_map.
  destruct (peaks BM MT gt ga); [destruct Hinp | simpl; lia].
Qed.

(** The label of one sample. *)
Lemma nearest_spec (Cs : matrix F) (x : list F) (b : nat) :
  nearest Cs x = Ok b ->
  exists distance,
    hand_dist x Cs = Ok distance /\ b < length Cs /\
    (forall c, c < length Cs ->
       fltb (total_dist distance c) (total_dist distance b) = false) /\
    (forall c, c < b ->
       fltb (total_dist distance c) (total_dist distance b) = false /\
       feqb (total_dist distance c) (total_dist distance b) = false).
Proof.
  intros H; pose proof (nearest_lt _ _ _ H) as Hb.
  unfold nearest in H; destruct Cs as [|c0 Cs]; [discriminate|].
  bind_inv H as distance Hd; exists distance; split; [exact Hd|].
  split; [exact Hb|].
  pose proof (hand_dist_length _ _ _ Hd) as Hlen.
  apply argmin_spec in H; destruct H as (m & Hm & Hmin & Hfirst).
  assert (Htd : forall c, c < length distance ->
            nth_error (map (fun d => (fst d + snd d)%sc) distance) c
            = Some (total_dist distance c)).
  { intros c Hc; rewrite nth_error_map.
    destruct (nth_error distance c) as [d|] eqn:Hdc.
    - unfold total_dist; rewrite (nth_error_nth _ _ _ Hdc); reflexivity.
    - apply nth_error_None in Hdc; lia. }
  rewrite (Htd b) in Hm by lia; injection Hm as <-.
  split.
  - intros c Hc; apply (Hmin c), Htd; lia.
  - intros c Hc; apply (Hfirst c _ Hc), Htd; lia.
Qed.

(** X4.  Given at least one centre, and centres and samples of one
    width [W >= 1], member recruitment returns one label per sample;
    the label of a sample is a centre at the least combined distance
    [d_euclid + d_angular] from it, the first such centre on a tie. *)
Theorem cloud_nearest_centre (W K : nat) (Cs U : matrix F) (gt ga : F)
  (dt : string) :
  Cs <> [] -> 1 <= W -> rectangular W Cs -> rectangular W U ->
  exists B,
    cloud_member_recruitment_njit K Cs U gt ga dt = Ok B /\
    length B = length U /\
    forall ii x b,
      nth_error U ii = Some x -> nth_error B ii = Some b ->
      exists distance,
        hand_dist x Cs = Ok distance /\ b < length Cs /\
        (forall c, c < length Cs ->
           fltb (total_dist distance c) (total_dist distance b) = false) /\
        (forall c, c < b ->
           fltb (total_dist distance c) (total_dist distance b) = false /\
           feqb (total_dist distance c) (total_dist distance b) = false).
Proof.
  intros Hne HW HCs HU.
  destruct (map_res_total (nearest Cs) U) as (B & HB).
  { intros x Hx; unfold nearest.
    destruct Cs as [|c0 Cs']; [congruence|].
    unfold rectangular in HU; rewrite Forall_forall in HU.
    destruct (hand_dist_total W x (c0 :: Cs') HW (HU x Hx) HCs)
      as (distance & Hd); rewrite Hd; simpl.
    apply hand_dist_length in Hd.
    destruct distance as [|d0 ds]; [discriminate|].
    simpl; eexists; reflexivity. }
  exists B; split; [exact HB|].
  split; [eapply map_res_length; exact HB|].
  intros ii x b Hx Hb.
  destruct (map_res_nth _ _ _ HB ii b Hb) as (x' & Hx' & Hn).
  rewrite Hx in Hx'; injection Hx' as <-.
  apply nearest_spec; exact Hn.
Qed.

End PeaksAndLabels.

(** ** The density ranking *)

Section Ranking.

Context {F : Type} {SF : Scalar F}.

Lemma insert_key_perm (p : nat * F) (l : list (nat * F)) :
  Permutation (insert_key p l) (p :: l).
Proof.
  induction l as [|q l IH]; simpl; [reflexivity|].
  destruct (key_le (snd q) (snd p)); [|reflexivity].
  rewrite IH; apply perm_swap.
Qed.

Lemma insertion_perm (l acc : list (nat * F)) :
  Permutation (fold_left (fun acc p => insert_key p acc) l acc) (l ++ acc).
Proof.
  revert acc; induction l as [|p l IH]; intros acc; simpl; [reflexivity|].
  rewrite IH, insert_key_perm; symmetry; apply Permutation_middle.
Qed.

Lemma enumerate_fst {A} (l : list A) :
  map fst (enumerate l) = seq 0 (length l).
Proof.
  unfold enumerate; generalize 0.
  induction l as [|a l IH]; intros s; simpl; [|rewrite IH]; reflexivity.
Qed.

(** [argsort] returns every index once. *)
Lemma argsort_perm (a : list F) : Permutation (argsort a) (seq 0 (length a)).
Proof.
  unfold argsort; rewrite <- enumerate_fst.
  apply Permutation_map.
  rewrite insertion_perm, app_nil_r; reflexivity.
Qed.

Lemma map_nth_seq {A} (l : list A) (d : A) :
  map (fun i => nth i l d) (seq 0 (length l)) = l.
Proof.
  induction l as [|a l IH]; simpl; [reflexivity|].
  rewrite <- seq_shift, map_map; simpl; rewrite IH; reflexivity.
Qed.

Lemma take_perm {A} (l : list A) (index : list nat) (r : list A) :
  Permutation index (seq 0 (length l)) -> take l index = Ok r ->
  Permutation r l.
Proof.
  intros Hp H; destruct l as [|a l].
  - apply Permutation_sym, Permutation_nil in Hp; subst index.
    injection H as <-; reflexivity.
  - apply (map_res_getitem _ a) in H; subst r.
    apply Permutation_trans
      with (map (fun i => nth i (a :: l) a) (seq 0 (length (a :: l)))).
    + apply Permutation_map; exact Hp.
    + rewrite map_nth_seq; reflexivity.
Qed.

End Ranking.

Section RankingOrder.

Context {F : Type} {SF : Scalar F} {SO : ScalarOrder F}.

(** Pairs in ascending order of their keys: no later key is below an
    earlier one. *)
Let asc (a b : nat * F) : Prop := fltb (snd b) (snd a) = false.
Let finite (a : nat * F) : Prop := fisnan (snd a) = false.

Lemma insert_key_sorted (p : nat * F) (l : list (nat * F)) :
  finite p -> Forall finite l ->
  StronglySorted asc l -> StronglySorted asc (insert_key p l).
Proof.
  intros Hp Hl Hs; induction Hs as [|q l Hs IH Hq]; simpl.
  - constructor; constructor.
  - inversion Hl as [|q' l' Hqf Hlf]; subst.
    unfold key_le; unfold finite in Hp, Hqf; rewrite Hp, Hqf.
    destruct (fltb (snd p) (snd q)) eqn:Hpq; simpl.
    + (* [p] goes first *)
      constructor; [constructor; assumption|].
      constructor; [apply fltb_asym; exact Hpq|].
      revert Hq; apply Forall_impl; intros z Hz.
      unfold asc in *; apply bool_false_iff; intros Hzp.
      pose proof (fltb_trans _ _ _ Hzp Hpq) as Hc; congruence.
    + constructor; [apply IH; exact Hlf|].
      eapply Permutation_Forall; [symmetry; apply insert_key_perm|].
      constructor; [exact Hpq | exact Hq].
Qed.

Lemma insertion_sorted (l acc : list (nat * F)) :
  Forall finite l -> Forall finite acc -> StronglySorted asc acc ->
  StronglySorted asc (fold_left (fun acc p => insert_key p acc) l acc).
Proof.
  intros Hl; revert acc; induction Hl as [|p l Hp Hl IH]; intros acc Ha Hs;
    simpl; [exact Hs|].
  apply IH.
  - eapply Permutation_Forall; [symmetry; apply insert_key_perm|].
    constructor; assumption.
  - apply insert_key_sorted; assumption.
Qed.

Lemma strongly_sorted_nth {A} (R : A -> A -> Prop) (l : list A)
  (p q : nat) (a b : A) :
  StronglySorted R l ->
  nth_error l p = Some a -> nth_error l q = Some b -> p < q -> R a b.
Proof.
  intros Hs; revert p q; induction Hs as [|x l Hs IH Hx]; intros p q Hp Hq Hlt.
  - destruct p; discriminate.
  - destruct q as [|q]; [lia|]; simpl in Hq.
    destruct p as [|p]; simpl in Hp.
    + injection Hp as <-.
      rewrite Forall_forall in Hx; apply Hx.
      eapply nth_error_In; exact Hq.
    + apply (IH p q); [assumption | assumption | lia].
Qed.

(** The keys, in the order [argsort] puts them, are ascending. *)
Lemma argsort_sorted (a : list F) :
  Forall (fun x => fisnan x = false) a ->
  StronglySorted (fun x y => fltb y x = false)
                 (map (fun i => nth i a (ofZ 0)) (argsort a)).
Proof.
  intros Ha; unfold argsort; rewrite map_map.
  set (sorted := fold_left (fun acc p => insert_key p acc) (enumerate a) []).
  assert (Hen : forall p, In p (enumerate a) ->
                  nth (fst p) a (ofZ 0) = snd p /\ finite p).
  { intros [i x] Hin; apply in_enumerate in Hin; simpl; split.
    - apply nth_error_nth; exact Hin.
    - rewrite Forall_forall in Ha; apply Ha.
      eapply nth_error_In; exact Hin. }
  assert (Hperm : Permutation sorted (enumerate a)).
  { unfold sorted; rewrite insertion_perm, app_nil_r; reflexivity. }
  assert (Hs : StronglySorted asc sorted).
  { apply insertion_sorted; [|constructor|constructor].
    apply Forall_forall; intros p Hp; apply Hen; exact Hp. }
  assert (Hkeys : map (fun p => nth (fst p) a (ofZ 0)) sorted
                  = map snd sorted).
  { apply map_ext_in; intros p Hp; apply Hen.
    eapply Permutation_in; [exact Hperm | exact Hp]. }
  rewrite Hkeys; clear - Hs.
  induction Hs as [|p l Hs IH Hp]; simpl; constructor; [exact IH|].
  apply Forall_map; exact Hp.
Qed.

Lemma zipw_add_nth (u v : list F) (i : nat) :
  i < length (zipw fadd u v) ->
  nth i (zipw fadd u v) (ofZ 0) = (nth i u (ofZ 0) + nth i v (ofZ 0))%sc.
Proof.
  revert v i; induction u as [|a u IH]; intros [|b v] i Hi; simpl in *;
    try lia.
  destruct i as [|i]; [reflexivity | apply IH; lia].
Qed.

(** X5.  [Globaldensity_Calculator] returns the samples reordered by one
    permutation of the row indices: the sorted matrix (a new object of
    the store) and the sorted densities are the rows and the sums
    [Density_2 + Density_1] taken in that order.  When no density is NaN
    the densities are in descending order: no sample is followed by a
    denser one. *)
Theorem density_ranking (data : loc) (dt : string) (h h' : heap F)
  (d : matrix F) (GD D1 D2 : list F) (l : loc) :
  getitem h data = Ok d ->
  Globaldensity_Calculator data dt h = (Ok (GD, D1, D2, l), h') ->
  exists index,
    Permutation index (seq 0 (length d)) /\
    h' = h ++ [map (fun i => nth i d []) index] /\ l = length h /\
    GD = map (fun i => (nth i D2 (ofZ 0) + nth i D1 (ofZ 0))%sc) index /\
    (Forall (fun x => fisnan x = false) GD ->
     forall p q x y, p < q ->
       nth_error GD p = Some x -> nth_error GD q = Some y ->
       fltb x y = false).
Proof.
  intros Hd Hrun; rewrite (Globaldensity_run _ _ _ _ Hd) in Hrun.
  destruct (density_pure d dt) as [[[[GD' D1'] D2'] U]|e] eqn:Hp;
    [|discriminate].
  injection Hrun as -> -> -> <- <-.
  unfold density_pure in Hp.
  bind_inv Hp as uspi1 H1; bind_inv Hp as uspi2 H2.
  bind_inv Hp as G HG; bind_inv Hp as U' HU.
  injection Hp as -> <- <- ->.
  set (D1 := map (fun x => (x / vsum uspi1)%sc) uspi1) in *.
  set (D2 := map (fun x => (x / vsum uspi2)%sc) uspi2) in *.
  set (gd := zipw fadd D2 D1) in *.
  assert (Hlen : length gd = length d).
  { unfold gd, D1, D2.
    rewrite zipw_length, !length_map.
    rewrite (pi_calculator_length _ _ _ H1), (pi_calculator_length _ _ _ H2).
    apply Nat.min_id. }
  assert (Hgd : forall i, i < length gd ->
            nth i gd (ofZ 0) = (nth i D2 (ofZ 0) + nth i D1 (ofZ 0))%sc).
  { intros i Hi; apply zipw_add_nth; exact Hi. }
  exists (rev (argsort gd)).
  assert (Hperm : Permutation (rev (argsort gd)) (seq 0 (length d))).
  { rewrite <- Permutation_rev, <- Hlen; apply argsort_perm. }
  split; [exact Hperm|].
  apply (map_res_getitem _ []) in HU; subst U.
  apply (map_res_getitem _ (ofZ 0)) in HG.
  split; [reflexivity|]; split; [reflexivity|].
  assert (HGD : GD = map (fun i => (nth i D2 (ofZ 0) + nth i D1 (ofZ 0))%sc)
                         (rev (argsort gd))).
  { rewrite HG; apply map_ext_in; intros i Hi; apply Hgd.
    apply (Permutation_in _ Hperm), in_seq in Hi; lia. }
  split; [exact HGD|].
  intros Hnan p q x y Hpq Hx Hy.
  assert (Hfin : Forall (fun x => fisnan x = false) gd).
  { apply Forall_forall; intros z Hz.
    rewrite Forall_forall in Hnan; apply Hnan.
    apply In_nth_error in Hz; destruct Hz as (i & Hi).
    rewrite HG; apply in_map_iff; exists i; split.
    - apply nth_error_nth; exact Hi.
    - apply (Permutation_in _ (Permutation_sym Hperm)), in_seq.
      assert (i < length gd) by (apply nth_error_Some; rewrite Hi; discriminate).
      lia. }
  pose proof (argsort_sorted gd Hfin) as Hs.
  rewrite HG, map_rev in Hx, Hy.
  rewrite nth_error_rev in Hx, Hy.
  set (asc_keys := map (fun i => nth i gd (ofZ 0)) (argsort gd)) in *.
  destruct (Nat.ltb_spec p (length asc_keys)) as [Hp|_]; [|discriminate].
  destruct (Nat.ltb_spec q (length asc_keys)) as [Hq|_]; [|discriminate].
  apply (strongly_sorted_nth _ asc_keys (length asc_keys - S q)
           (length asc_keys - S p) y x Hs Hy Hx).
  lia.
Qed.

End RankingOrder.

(** ** Degenerate inputs of the entry point *)

Section Degenerate.

Context {F : Type} {SF : Scalar F}.

(** X6.  On a matrix without rows the entry point raises, whatever the
    granularity: [grid_set] passes, and [pi_calculator] fails on the sum
    of an empty matrix ([TypeError] for the distance type
    ['euclidean']). *)
Theorem soda_empty_matrix (Input : input F) (h : heap F) :
  getitem h (StaticData Input) = Ok [] ->
  (exists g, fst (grid_set (StaticData Input) (GridSize Input) h) = Ok g) /\
  fst (SelfOrganisedDirectionAwareDataPartitioning Input h)
  = Raise (empty_exn (DistanceType Input)).
Proof.
  intros Hd; split.
  - rewrite (grid_set_run _ _ _ _ Hd); eexists; reflexivity.
  - rewrite (soda_run _ _ _ Hd); unfold soda_pure; simpl.
    unfold density_pure, pi_calculator, empty_exn.
    destruct (String.eqb (DistanceType Input) "euclidean"); [reflexivity|].
    destruct (String.eqb (DistanceType Input) "cosine"); reflexivity.
Qed.

(** X7.  With a distance type other than ['euclidean'] and ['cosine'],
    the entry point raises [UnboundLocalError] as soon as [grid_set] has
    returned: [pi_calculator] assigns [uspi] in neither branch. *)
Theorem soda_unknown_distance (Input : input F) (h : heap F) (d : matrix F)
  (g : F * list F * list F * F * F) :
  getitem h (StaticData Input) = Ok d ->
  fst (grid_set (StaticData Input) (GridSize Input) h) = Ok g ->
  String.eqb (DistanceType Input) "euclidean" = false ->
  String.eqb (DistanceType Input) "cosine" = false ->
  fst (SelfOrganisedDirectionAwareDataPartitioning Input h)
  = Raise UnboundLocalError.
Proof.
  intros Hd Hg He Hc.
  rewrite (grid_set_run _ _ _ _ Hd) in Hg; simpl in Hg.
  rewrite (soda_run _ _ _ Hd); unfold soda_pure; simpl.
  destruct (grid_pure d (GridSize Input)) as [[g'|e] objs];
    [|discriminate].
  unfold density_pure, pi_calculator; rewrite He, Hc; reflexivity.
Qed.

End Degenerate.

(** ** Exact arithmetic: distances and cumulative proximity *)

Section RealMore.

Local Open Scope R_scope.

Local Abbreviation sqs := (map (fun x : R => x * x)).

Lemma sqdist_sym (a b : list R) : sqdist a b = sqdist b a.
Proof.
  unfold sqdist; revert b; induction a as [|x a IH]; intros [|y b]; simpl;
    try reflexivity.
  rewrite IH; lra.
Qed.

Lemma sqdist_nonneg (a b : list R) : 0 <= sqdist a b.
Proof. apply rsum_sq_nonneg. Qed.

Lemma sqdist_self (a : list R) : sqdist a a = 0.
Proof.
  unfold sqdist; induction a as [|x a IH]; simpl; [reflexivity|].
  rewrite IH; lra.
Qed.

Lemma combine_sq (a b : list R) :
  rsum (map (fun p => (fst p - snd p) * (fst p - snd p)) (combine a b))
  = sqdist a b.
Proof.
  unfold sqdist; revert b; induction a as [|x a IH]; intros [|y b]; simpl;
    try reflexivity.
  rewrite IH; reflexivity.
Qed.

(** The pair [hand_dist] computes for one row, over the reals. *)
Lemma hand_row_value (a b : list R) :
  length a = length b -> sumsq a <> 0 -> sumsq b <> 0 ->
  hand_row a b = Ok (sqrt (sqdist a b), sqrt (1 - cos_similarity a b)).
Proof.
  intros Hlen Ha Hb.
  destruct (hand_row_real a b Hlen Ha Hb) as (d & Hd).
  rewrite Hd; f_equal; f_equal.
  unfold hand_row in Hd.
  destruct b as [|v b]; [discriminate|].
  rewrite Hlen, Nat.ltb_irrefl in Hd.
  change (ofZ 0, ofZ 0, ofZ 0, ofZ 0) with (0, 0, 0, 0) in Hd.
  rewrite (hand_fold a (v :: b) 0 0 0 0 Hlen) in Hd.
  injection Hd as <- _.
  simpl rt2; rewrite Rplus_0_l, combine_sq; reflexivity.
Qed.

Lemma cos_similarity_sym (a b : list R) :
  cos_similarity a b = cos_similarity b a.
Proof.
  unfold cos_similarity, dotp; simpl.
  rewrite !vsum_rsum, (dot_comm a b), (Rmult_comm (sqrt (sumsq a))).
  reflexivity.
Qed.

Lemma cos_similarity_self (a : list R) :
  sumsq a <> 0 -> cos_similarity a a = 1.
Proof.
  intros Ha; unfold cos_similarity, dotp; simpl.
  rewrite vsum_rsum, zipw_mult_self, <- sumsq_rsum.
  rewrite sqrt_sqrt; [field; exact Ha|].
  rewrite sumsq_rsum; apply rsum_sq_nonneg.
Qed.

Lemma cos_similarity_ge_m1 (a b : list R) :
  length a = length b -> sumsq a <> 0 -> sumsq b <> 0 ->
  -1 <= cos_similarity a b.
Proof.
  intros Hlen Ha Hb; unfold cos_similarity, dotp; simpl.
  rewrite vsum_rsum, !sumsq_rsum in *.
  pose proof (cauchy_schwarz a b Hlen) as HCS.
  set (A := rsum (sqs a)) in *.
  set (B := rsum (sqs b)) in *.
  set (P := rsum (zipw Rmult a b)) in *.
  assert (HA : 0 < A) by (pose proof (rsum_sq_nonneg a); fold A in H; lra).
  assert (HB : 0 < B) by (pose proof (rsum_sq_nonneg b); fold B in H; lra).
  pose proof (sqrt_lt_R0 A HA) as HsA; pose proof (sqrt_lt_R0 B HB) as HsB.
  pose proof (sqrt_sqrt A (Rlt_le _ _ HA)) as EA.
  pose proof (sqrt_sqrt B (Rlt_le _ _ HB)) as EB.
  assert (Hpos : 0 < sqrt A * sqrt B) by nra.
  apply (Rmult_le_reg_r (sqrt A * sqrt B)); [exact Hpos|].
  replace (P / (sqrt A * sqrt B) * (sqrt A * sqrt B)) with P by (field; nra).
  assert (Hsq : P * P <= (sqrt A * sqrt B) * (sqrt A * sqrt B)) by nra.
  set (T := sqrt A * sqrt B) in *; clearbody T P.
  destruct (Rle_dec (- P) T) as [HP | HP]; [lra|].
  apply Rnot_le_lt in HP; exfalso.
  assert (0 < (- P - T) * (- P + T)) by (apply Rmult_lt_0_compat; lra).
  nra.
Qed.

(** X8.  Over the reals, for nonzero vectors of one length, the pair of
    distances of [hand_dist] is symmetric in its two vectors, both
    components are 0 from a vector to itself, the Euclidean component is
    not negative and the angular component lies between 0 and the
    square root of 2. *)
Theorem hand_dist_metric (a b : list R) :
  length a = length b -> sumsq a <> 0 -> sumsq b <> 0 ->
  exists de da,
    hand_dist a [b] = Ok [(de, da)] /\
    hand_dist b [a] = Ok [(de, da)] /\
    hand_dist a [a] = Ok [(0, 0)] /\
    0 <= de /\ 0 <= da <= sqrt 2.
Proof.
  intros Hlen Ha Hb.
  exists (sqrt (sqdist a b)), (sqrt (1 - cos_similarity a b)).
  unfold hand_dist; simpl.
  rewrite (hand_row_value a b Hlen Ha Hb).
  rewrite (hand_row_value b a (eq_sym Hlen) Hb Ha).
  rewrite (hand_row_value a a eq_refl Ha Ha).
  rewrite (sqdist_sym b a), (cos_similarity_sym b a).
  rewrite sqdist_self, (cos_similarity_self a Ha).
  replace (1 - 1) with 0 by lra; rewrite sqrt_0.
  split; [reflexivity|]; split; [reflexivity|]; split; [reflexivity|].
  split; [apply sqrt_pos|]; split; [apply sqrt_pos|].
  apply sqrt_le_1_alt.
  pose proof (cos_similarity_ge_m1 a b Hlen Ha Hb) as Hc.
  unfold cos_similarity in Hc; cbn [fdiv fmul fsqrt real_scalar] in Hc; lra.
Qed.

Lemma rsum_zipw_plus (u v : list R) :
  length u = length v -> rsum (zipw Rplus u v) = rsum u + rsum v.
Proof.
  revert v; induction u as [|x u IH]; intros [|y v] H; simpl in *;
    try discriminate; [lra|].
  rewrite IH by lia; lra.
Qed.

Lemma rsum_repeat_zero (W : nat) : rsum (repeat 0 W) = 0.
Proof. induction W as [|W IH]; simpl; [reflexivity | rewrite IH; lra]. Qed.

(** Summing a matrix by columns first or by rows first. *)
Lemma rsum_rvsum (W : nat) (m : matrix R) :
  rectangular W m -> rsum (rvsum W m) = rsum (map rsum m).
Proof.
  intros Hm; induction Hm as [|r m Hr Hm IH]; simpl.
  - apply rsum_repeat_zero.
  - rewrite rsum_zipw_plus, IH; [reflexivity|].
    rewrite (rvsum_length W m Hm); exact Hr.
Qed.

Lemma dot_scale_r (c : R) (u v : list R) :
  rsum (zipw Rmult u (map (fun s => s / c) v)) = rsum (zipw Rmult u v) / c.
Proof.
  revert v; induction u as [|x u IH]; intros [|y v]; simpl;
    try (unfold Rdiv; rewrite Rmult_0_l; reflexivity).
  rewrite IH; unfold Rdiv; lra.
Qed.

(** X9.  Over the reals, on a rectangular matrix with at least one row,
    the cumulative proximity that [pi_calculator] computes in closed
    form for a sample, in the mode ['euclidean'], is the mean of the
    squared Euclidean distances from that sample to all the samples. *)
Theorem pi_calculator_mean_distance (d : matrix R) :
  d <> [] -> rectangular (ncols d) d ->
  pi_calculator d "euclidean"
  = Ok (map (fun x => rsum (map (sqdist x) d) / INR (length d)) d).
Proof.
  intros Hne Hrect; unfold pi_calculator.
  change (String.eqb "euclidean" "euclidean") with true; cbv iota.
  destruct d as [|r0 d']; [congruence|].
  set (d := r0 :: d') in *.
  f_equal; rewrite map_map; apply map_ext_in; intros r Hr.
  assert (HL : INR (length d) <> 0) by (apply not_0_INR; discriminate).
  assert (Hrw : length r = ncols d).
  { unfold rectangular in Hrect; rewrite Forall_forall in Hrect.
    apply Hrect; exact Hr. }
  (* the mean and the mean squared norm *)
  unfold mean0; rewrite ofnat_INR, (colsum_rvsum d Hrect).
  set (V := rvsum (ncols d) d).
  assert (HV : length V = ncols d) by (apply rvsum_length; exact Hrect).
  assert (Hsqm : rectangular (ncols (map (map sq) d)) (map (map sq) d)).
  { assert (Hn : ncols (map (map sq) d) = ncols d)
      by (unfold ncols, d; simpl; apply length_map).
    rewrite Hn; unfold rectangular in *.
    rewrite Forall_forall in *; intros u Hu.
    apply in_map_iff in Hu; destruct Hu as [u0 [<- Hu0]].
    rewrite length_map; apply Hrect; exact Hu0. }
  rewrite (colsum_rvsum _ Hsqm), !vsum_rsum.
  rewrite (rsum_rvsum _ _ Hsqm), map_map.
  unfold vsub; rewrite sumsq_rsum.
  change (map sq) with sqs.
  rewrite sq_sub by (rewrite length_map; lia).
  cbn [fadd fsub fdiv real_scalar].
  rewrite (sq_scale (INR (length d)) V), dot_scale_r.
  (* the distances *)
  assert (Hd : rsum (map (sqdist r) d)
               = rsum (map (fun u => rsum (sqs u)) d)
                 - 2 * rsum (zipw Rmult V r)
                 + INR (length d) * rsum (sqs r)).
  { transitivity (rsum (map (fun u => rsum (sqs (zipw Rminus u r))) d)).
    - f_equal; apply map_ext; intros u; apply sqdist_sym.
    - apply dist_sum; assumption. }
  rewrite Hd, (dot_comm V r).
  field; exact HL.
Qed.




End RealMore.

(** * The grouping algorithm *)

Lemma nth_upd {A} (l : list A) (i j : nat) (v d : A) :
  nth j (upd l i v) d
  = if (i =? j)%nat && (i <? length l)%nat then v else nth j l d.
Proof.
  revert i j; induction l as [|a l IH]; intros [|i] [|j]; simpl;
    try reflexivity.
  - rewrite andb_false_r; reflexivity.
  - rewrite IH; reflexivity.
Qed.

Lemma fold_max_ge (l : list Z) (x : Z) :
  (x <= fold_left Z.max l x)%Z /\
  Forall (fun y => (y <= fold_left Z.max l x)%Z) l.
Proof.
  revert x; induction l as [|a l IH]; intros x; simpl.
  - split; [lia | constructor].
  - destruct (IH (Z.max x a)) as [H1 H2]; split; [lia|].
    constructor; [lia | exact H2].
Qed.

Lemma np_max_ge (l : list Z) (m : Z) :
  np_max l = Ok m -> Forall (fun y => (y <= m)%Z) l.
Proof.
  destruct l as [|x l]; simpl; intros H; [discriminate|].
  injection H as <-; destruct (fold_max_ge l x) as [H1 H2].
  constructor; assumption.
Qed.

Lemma np_index_pos (n : nat) (c : Z) :
  (1 <= c <= Z.of_nat n)%Z -> np_index n (c - 1) = Ok (Z.to_nat (c - 1)).
Proof.
  intros Hc; unfold np_index.
  destruct (Z.leb_spec 0 (c - 1)); [|lia].
  destruct (Z.ltb_spec (c - 1) (Z.of_nat n)); [reflexivity | lia].
Qed.

Lemma cell_zeros (n w k j : nat) : cell (repeat (repeat 0%Z w) n) k j = 0%Z.
Proof.
  unfold cell.
  destruct (Nat.ltb_spec k n) as [Hk|Hk].
  - rewrite (nth_repeat_lt (repeat 0%Z w) [] Hk).
    destruct (Nat.ltb_spec j w) as [Hj|Hj].
    + apply nth_repeat_lt; exact Hj.
    + apply nth_overflow; rewrite repeat_length; exact Hj.
  - rewrite (nth_overflow (repeat (repeat 0%Z w) n) []) 
      by (rewrite repeat_length; exact Hk).
    destruct j; reflexivity.
Qed.

(** [m[c-1, col] += 1] on an [n] by [w] table, for a label [c] of
    [1..n]: it returns, keeps the shape, and adds one to that cell
    only. *)
Lemma incr_cell_spec (n w : nat) (m : list (list Z)) (c : Z) (col : nat) :
  length m = n -> Forall (fun r => length r = w) m -> col < w ->
  (1 <= c <= Z.of_nat n)%Z ->
  exists m', incr_cell m (c - 1) col = Ok m' /\
    length m' = n /\ Forall (fun r => length r = w) m' /\
    forall k j, cell m' k j
                = (cell m k j
                   + if (Z.of_nat k + 1 =? c)%Z && (j =? col)%nat
                     then 1 else 0)%Z.
Proof.
  intros Hn Hw Hcol Hc; unfold incr_cell.
  rewrite Hn, (np_index_pos n c Hc); simpl.
  set (i := Z.to_nat (c - 1)).
  assert (Hi : i < length m) by (unfold i; lia).
  destruct (getitem_total m i Hi) as [row Hrow]; rewrite Hrow; simpl.
  assert (Hrw : length row = w).
  { rewrite Forall_forall in Hw; apply Hw.
    apply getitem_ok in Hrow; eapply nth_error_In; exact Hrow. }
  assert (Hcr : col < length row) by lia.
  destruct (getitem_total row col Hcr) as [v Hv]; rewrite Hv; simpl.
  eexists; split; [reflexivity|].
  split; [rewrite upd_length; exact Hn|].
  split.
  { apply Forall_upd; [exact Hw | rewrite upd_length; exact Hrw]. }
  intros k j; unfold cell.
  apply getitem_ok in Hrow, Hv.
  rewrite nth_upd.
  destruct (Nat.eqb_spec i k) as [<- | Hik].
  - destruct (Nat.ltb_spec i (length m)) as [_|]; [|lia]; simpl.
    rewrite (nth_error_nth m i [] Hrow), nth_upd.
    replace (Z.of_nat i + 1 =? c)%Z with true
      by (symmetry; apply Z.eqb_eq; unfold i; lia).
    rewrite (Nat.eqb_sym j col); simpl.
    destruct (Nat.eqb_spec col j) as [<- | Hcj]; simpl.
    + destruct (Nat.ltb_spec col (length row)) as [_|]; [|lia].
      rewrite (nth_error_nth row col 0%Z Hv); reflexivity.
    + lia.
  - simpl.
    replace (Z.of_nat k + 1 =? c)%Z with false
      by (symmetry; apply Z.eqb_neq; unfold i in Hik; lia).
    simpl; lia.
Qed.

Lemma firstn_snoc {A} (l : list A) (i : nat) (q : A) :
  nth_error l i = Some q -> firstn (S i) l = firstn i l ++ [q].
Proof.
  revert i; induction l as [|a l IH]; intros [|i] H; simpl in *;
    try discriminate.
  - injection H as ->; reflexivity.
  - f_equal; apply IH; exact H.
Qed.

Lemma tally_snoc (l : list (Z * Z)) (q : Z * Z) (c : Z) (p : Z -> bool) :
  tally (l ++ [q]) c p
  = (tally l c p + if (fst q =? c)%Z && p (snd q) then 1 else 0)%Z.
Proof.
  unfold tally; rewrite filter_app, length_app; simpl.
  destruct ((fst q =? c)%Z && p (snd q)); simpl; lia.
Qed.

Lemma tally_le (l : list (Z * Z)) (c : Z) (p : Z -> bool) :
  (0 <= tally l c p <= tally l c (fun _ => true))%Z.
Proof.
  unfold tally; split; [lia|].
  apply inj_le; induction l as [|q l IH]; simpl; [lia|].
  destruct (fst q =? c)%Z; simpl; [|exact IH].
  destruct (p (snd q)); simpl; lia.
Qed.

Lemma map_res_map {A B} (f : A -> result B) (g : A -> B) (l : list A) :
  (forall a, In a l -> f a = Ok (g a)) -> map_res f l = Ok (map g l).
Proof.
  induction l as [|a l IH]; simpl; intros H; [reflexivity|].
  rewrite (H a (or_introl eq_refl)), IH; [reflexivity|].
  intros b Hb; apply H; right; exact Hb.
Qed.

Lemma for_each_app {A S} (f : A -> S -> result S) (l1 l2 : list A) (s : S) :
  for_each f (l1 ++ l2) s
  = match for_each f l1 s with
    | Ok s' => for_each f l2 s'
    | Raise e => Raise e
    end.
Proof.
  revert s; induction l1 as [|a l1 IH]; intros s; simpl; [reflexivity|].
  destruct (f a s); [apply IH | reflexivity].
Qed.

Lemma nth_map_seq {A} (f : nat -> A) (n k : nat) (d : A) :
  k < n -> nth k (map f (seq 0 n)) d = f k.
Proof.
  intros Hk.
  rewrite (nth_indep _ d (f 0%nat)) by (rewrite length_map, length_seq; lia).
  rewrite map_nth, seq_nth by lia; reflexivity.
Qed.

Lemma combine_nth_some {A B} (l1 : list A) (l2 : list B) (i : nat)
  (a : A) (b : B) :
  nth_error l1 i = Some a -> nth_error l2 i = Some b ->
  nth_error (combine l1 l2) i = Some (a, b).
Proof.
  revert i l2; induction l1 as [|x l1 IH]; intros [|i] [|y l2] Ha Hb;
    simpl in *; try discriminate.
  - injection Ha as ->; injection Hb as ->; reflexivity.
  - apply IH; assumption.
Qed.

Section Counting.

Context {F : Type} {SF : Scalar F}.

Variable n : nat.
Variables SODA_IDX_ target_ : list Z.

Hypothesis Hidx : Forall (fun c => (1 <= c <= Z.of_nat n)%Z) SODA_IDX_.

Let pairs := combine SODA_IDX_ target_.

(** What the counting loop keeps true after [i] turns: the tables keep
    their shapes, column [j] of row [k] of [n_IDs_per_gp] counts the
    samples seen so far of cloud [k+1] whose target is in class [j], and
    [n_tot_Id_per_DA] counts all the samples seen of that cloud. *)
Let counted (w : nat) (cls : nat -> Z -> bool) (i : nat)
  (s : list (list Z) * list (list Z)) : Prop :=
  length (fst s) = n /\ Forall (fun r => length r = w) (fst s) /\
  length (snd s) = n /\ Forall (fun r => length r = 1) (snd s) /\
  (forall k j, j < w ->
     cell (fst s) k j = tally (firstn i pairs) (Z.of_nat k + 1) (cls j)) /\
  (forall k,
     cell (snd s) k 0
     = tally (firstn i pairs) (Z.of_nat k + 1) (fun _ => true)).

Let cls2 (j : nat) (t : Z) : bool :=
  if (j =? 0)%nat then (t =? 0)%Z else negb (t =? 0)%Z.

Let cls3 (j : nat) (t : Z) : bool := (t =? Z.of_nat j)%Z.

Lemma counted_start (w : nat) (cls : nat -> Z -> bool) :
  counted w cls 0
    (repeat (repeat 0%Z w) n, repeat (repeat 0%Z 1) n).
Proof.
  unfold counted; simpl.
  split; [apply repeat_length|].
  split; [apply Forall_forall; intros r Hr; apply repeat_spec in Hr;
          subst r; apply repeat_length|].
  split; [apply repeat_length|].
  split; [apply Forall_forall; intros r Hr; apply repeat_spec in Hr;
          subst r; reflexivity|].
  split; [intros k j _; exact (cell_zeros n w k j)
         | intros k; exact (cell_zeros n 1 k 0)].
Qed.

Lemma pairs_nth (i : nat) (c t : Z) :
  nth_error SODA_IDX_ i = Some c -> nth_error target_ i = Some t ->
  nth_error pairs i = Some (c, t).
Proof. apply combine_nth_some. Qed.

Lemma count_step_counted (i : nat) (s : list (list Z) * list (list Z)) :
  i < length target_ -> i < length SODA_IDX_ -> counted 2 cls2 i s ->
  exists s', count_step SODA_IDX_ target_ i s = Ok s' /\
             counted 2 cls2 (S i) s'.
Proof.
  intros Hit Hii (HA & HAw & HT & HTw & HcA & HcT).
  destruct s as [A T]; simpl in *.
  destruct (getitem_total target_ i Hit) as [t Ht].
  destruct (getitem_total SODA_IDX_ i Hii) as [c Hc].
  unfold count_step; rewrite Ht, Hc; simpl.
  apply getitem_ok in Ht, Hc.
  assert (Hcn : (1 <= c <= Z.of_nat n)%Z).
  { rewrite Forall_forall in Hidx; apply Hidx.
    eapply nth_error_In; exact Hc. }
  pose proof (firstn_snoc pairs i (c, t) (pairs_nth i c t Hc Ht)) as Hsn.
  destruct (incr_cell_spec n 1 T c 0 HT HTw ltac:(lia) Hcn)
    as (T' & HrT & HT' & HTw' & HcT').
  assert (HAstep : exists A',
    (if (t =? 0)%Z then incr_cell A (c - 1) 0 else incr_cell A (c - 1) 1)
    = Ok A' /\ length A' = n /\ Forall (fun r => length r = 2) A' /\
    forall k j, cell A' k j
      = (cell A k j + if (Z.of_nat k + 1 =? c)%Z
                         && (j =? (if (t =? 0)%Z then 0 else 1))%nat
                      then 1 else 0)%Z).
  { destruct (t =? 0)%Z;
      [apply (incr_cell_spec n 2 A c 0) | apply (incr_cell_spec n 2 A c 1)];
      auto; lia. }
  destruct HAstep as (A' & HrA & HA' & HAw' & HcA').
  rewrite HrA; simpl; rewrite HrT; simpl.
  eexists; split; [reflexivity|].
  unfold counted; cbn [fst snd]; rewrite Hsn.
  repeat (split; [assumption|]).
  split.
  - intros k j Hj; rewrite HcA', tally_snoc, (HcA k j Hj); simpl.
    rewrite (Z.eqb_sym c (Z.of_nat k + 1)).
    f_equal; destruct (Z.of_nat k + 1 =? c)%Z; simpl; [|reflexivity].
    unfold cls2; destruct j as [|[|j]]; [| |lia];
      destruct (t =? 0)%Z; reflexivity.
  - intros k; rewrite HcT', tally_snoc, (HcT k); simpl.
    rewrite (Z.eqb_sym c (Z.of_nat k + 1)), andb_true_r; reflexivity.
Qed.

Lemma count_step3_counted (i : nat) (s : list (list Z) * list (list Z)) :
  i < length target_ -> i < length SODA_IDX_ -> counted 3 cls3 i s ->
  exists s', Kfold.count_step SODA_IDX_ target_ i s = Ok s' /\
             counted 3 cls3 (S i) s'.
Proof.
  intros Hit Hii (HA & HAw & HT & HTw & HcA & HcT).
  destruct s as [A T]; simpl in *.
  destruct (getitem_total target_ i Hit) as [t Ht].
  destruct (getitem_total SODA_IDX_ i Hii) as [c Hc].
  unfold Kfold.count_step; rewrite Ht, Hc; simpl.
  apply getitem_ok in Ht, Hc.
  assert (Hcn : (1 <= c <= Z.of_nat n)%Z).
  { rewrite Forall_forall in Hidx; apply Hidx.
    eapply nth_error_In; exact Hc. }
  pose proof (firstn_snoc pairs i (c, t) (pairs_nth i c t Hc Ht)) as Hsn.
  destruct (incr_cell_spec n 1 T c 0 HT HTw ltac:(lia) Hcn)
    as (T' & HrT & HT' & HTw' & HcT').
  assert (HAstep : exists A',
    (if (t =? 0)%Z then incr_cell A (c - 1) 0
     else if (t =? 1)%Z then incr_cell A (c - 1) 1
     else if (t =? 2)%Z then incr_cell A (c - 1) 2
     else Ok A)
    = Ok A' /\ length A' = n /\ Forall (fun r => length r = 3) A' /\
    forall k j, j < 3 -> cell A' k j
      = (cell A k j + if (Z.of_nat k + 1 =? c)%Z && cls3 j t
                      then 1 else 0)%Z).
  { unfold cls3.
    destruct (Z.eqb_spec t 0) as [-> | H0];
      [|destruct (Z.eqb_spec t 1) as [-> | H1];
        [|destruct (Z.eqb_spec t 2) as [-> | H2]]].
    1-3: match goal with
         | |- exists _, incr_cell _ _ ?col = _ /\ _ =>
             destruct (incr_cell_spec n 3 A c col HA HAw ltac:(lia) Hcn)
               as (A' & Hr & Hl & Hw & Hcell)
         end;
         exists A'; repeat (split; [assumption|]);
         intros k j Hj; rewrite Hcell; f_equal;
         destruct (Z.of_nat k + 1 =? c)%Z; simpl; [|reflexivity];
         destruct j as [|[|[|j]]]; [reflexivity..|lia].
    exists A; repeat (split; [first [reflexivity | assumption]|]).
    intros k j Hj.
    replace (t =? Z.of_nat j)%Z with false
      by (symmetry; apply Z.eqb_neq; lia).
    rewrite andb_false_r; lia. }
  destruct HAstep as (A' & HrA & HA' & HAw' & HcA').
  rewrite HrA; simpl; rewrite HrT; simpl.
  eexists; split; [reflexivity|].
  unfold counted; cbn [fst snd]; rewrite Hsn.
  repeat (split; [assumption|]).
  split.
  - intros k j Hj; rewrite (HcA' k j Hj), tally_snoc, (HcA k j Hj); simpl.
    rewrite (Z.eqb_sym c (Z.of_nat k + 1)); reflexivity.
  - intros k; rewrite HcT', tally_snoc, (HcT k); simpl.
    rewrite (Z.eqb_sym c (Z.of_nat k + 1)), andb_true_r; reflexivity.
Qed.

Lemma count_loop_counted (w : nat) (cls : nat -> Z -> bool)
  (f : nat -> list (list Z) * list (list Z)
       -> result (list (list Z) * list (list Z))) :
  (forall i s, i < length target_ -> i < length SODA_IDX_ ->
     counted w cls i s ->
     exists s', f i s = Ok s' /\ counted w cls (S i) s') ->
  forall m, m <= length target_ -> m <= length SODA_IDX_ ->
  exists s',
    for_each f (seq 0 m) (repeat (repeat 0%Z w) n, repeat (repeat 0%Z 1) n)
    = Ok s' /\ counted w cls m s'.
Proof.
  intros Hstep m Hmt Hmi.
  apply (for_each_seq_total f (counted w cls) m 0).
  - apply counted_start.
  - intros i t Hi Ht; apply Hstep; [lia | lia | exact Ht].
Qed.

Lemma firstn_pairs :
  length target_ <= length SODA_IDX_ ->
  firstn (length target_) pairs = pairs.
Proof.
  intros Hlen; apply firstn_all2.
  unfold pairs; rewrite length_combine; lia.
Qed.

(** The counting loop of [_grouping_algorithm] returns when the target is
    no longer than the labels, and leaves the class counts of every
    cloud in the tables. *)
Lemma count_loop :
  length target_ <= length SODA_IDX_ ->
  exists A T,
    for_each (count_step SODA_IDX_ target_) (seq 0 (length target_))
      (repeat (repeat 0%Z 2) n, repeat (repeat 0%Z 1) n) = Ok (A, T) /\
    forall k,
      cell A k 0 = tally (combine SODA_IDX_ target_) (Z.of_nat k + 1)
                     (fun t => (t =? 0)%Z) /\
      cell A k 1 = tally (combine SODA_IDX_ target_) (Z.of_nat k + 1)
                     (fun t => negb (t =? 0)%Z) /\
      cell T k 0 = tally (combine SODA_IDX_ target_) (Z.of_nat k + 1)
                     (fun _ => true).
Proof.
  intros Hlen.
  destruct (count_loop_counted 2 cls2 (count_step SODA_IDX_ target_)
              count_step_counted (length target_) (le_n _) Hlen)
    as ([A T] & Hrun & _ & _ & _ & _ & HcA & HcT).
  exists A, T; split; [exact Hrun|].
  rewrite (firstn_pairs Hlen) in HcA, HcT; cbn [fst snd] in HcA, HcT.
  intros k; split; [exact (HcA k 0 ltac:(lia))|].
  split; [exact (HcA k 1 ltac:(lia)) | exact (HcT k)].
Qed.

Lemma count_loop3 :
  length target_ <= length SODA_IDX_ ->
  exists A T,
    for_each (Kfold.count_step SODA_IDX_ target_) (seq 0 (length target_))
      (repeat (repeat 0%Z 3) n, repeat (repeat 0%Z 1) n) = Ok (A, T) /\
    forall k,
      cell A k 0 = tally (combine SODA_IDX_ target_) (Z.of_nat k + 1)
                     (fun t => (t =? 0)%Z) /\
      cell A k 1 = tally (combine SODA_IDX_ target_) (Z.of_nat k + 1)
                     (fun t => (t =? 1)%Z) /\
      cell A k 2 = tally (combine SODA_IDX_ target_) (Z.of_nat k + 1)
                     (fun t => (t =? 2)%Z) /\
      cell T k 0 = tally (combine SODA_IDX_ target_) (Z.of_nat k + 1)
                     (fun _ => true).
Proof.
  intros Hlen.
  destruct (count_loop_counted 3 cls3 (Kfold.count_step SODA_IDX_ target_)
              count_step3_counted (length target_) (le_n _) Hlen)
    as ([A T] & Hrun & _ & _ & _ & _ & HcA & HcT).
  exists A, T; split; [exact Hrun|].
  rewrite (firstn_pairs Hlen) in HcA, HcT; cbn [fst snd] in HcA, HcT.
  intros k; split; [exact (HcA k 0 ltac:(lia))|].
  split; [exact (HcA k 1 ltac:(lia))|].
  split; [exact (HcA k 2 ltac:(lia)) | exact (HcT k)].
Qed.

(** A target longer than the labels: the loop reads [SODA_IDX_] past its
    end. *)
Lemma count_loop_overrun (w : nat) (cls : nat -> Z -> bool)
  (f : nat -> list (list Z) * list (list Z)
       -> result (list (list Z) * list (list Z))) :
  (forall i s, i < length target_ -> i < length SODA_IDX_ ->
     counted w cls i s ->
     exists s', f i s = Ok s' /\ counted w cls (S i) s') ->
  (forall s, f (length SODA_IDX_) s = Raise IndexError) ->
  length SODA_IDX_ < length target_ ->
  for_each f (seq 0 (length target_))
    (repeat (repeat 0%Z w) n, repeat (repeat 0%Z 1) n) = Raise IndexError.
Proof.
  intros Hstep Hraise Hlen.
  replace (length target_)
    with (length SODA_IDX_ + S (length target_ - S (length SODA_IDX_)))
    by lia.
  rewrite seq_app, for_each_app.
  destruct (count_loop_counted w cls f Hstep (length SODA_IDX_)
              ltac:(lia) (le_n _)) as (s' & -> & _).
  simpl; rewrite Hraise; reflexivity.
Qed.

Lemma count_step_overrun (s : list (list Z) * list (list Z)) :
  count_step SODA_IDX_ target_ (length SODA_IDX_) s = Raise IndexError.
Proof.
  destruct s as [A T]; unfold count_step.
  destruct (getitem target_ (length SODA_IDX_)) as [t|e] eqn:Ht; simpl.
  - unfold getitem at 1.
    rewrite (proj2 (nth_error_None SODA_IDX_ _) (le_n _)); reflexivity.
  - unfold getitem in Ht; destruct (nth_error target_ _);
      [discriminate | injection Ht as <-; reflexivity].
Qed.

Lemma count_step3_overrun (s : list (list Z) * list (list Z)) :
  Kfold.count_step SODA_IDX_ target_ (length SODA_IDX_) s = Raise IndexError.
Proof.
  destruct s as [A T]; unfold Kfold.count_step.
  destruct (getitem target_ (length SODA_IDX_)) as [t|e] eqn:Ht; simpl.
  - unfold getitem at 1.
    rewrite (proj2 (nth_error_None SODA_IDX_ _) (le_n _)); reflexivity.
  - unfold getitem in Ht; destruct (nth_error target_ _);
      [discriminate | injection Ht as <-; reflexivity].
Qed.

Lemma count_overrun :
  length SODA_IDX_ < length target_ ->
  for_each (count_step SODA_IDX_ target_) (seq 0 (length target_))
    (repeat (repeat 0%Z 2) n, repeat (repeat 0%Z 1) n) = Raise IndexError.
Proof.
  apply (count_loop_overrun 2 cls2);
    [apply count_step_counted | apply count_step_overrun].
Qed.

Lemma count_overrun3 :
  length SODA_IDX_ < length target_ ->
  for_each (Kfold.count_step SODA_IDX_ target_) (seq 0 (length target_))
    (repeat (repeat 0%Z 3) n, repeat (repeat 0%Z 1) n) = Raise IndexError.
Proof.
  apply (count_loop_overrun 3 cls3);
    [apply count_step3_counted | apply count_step3_overrun].
Qed.

End Counting.

Section Deciding.

Context {F : Type} {SF : Scalar F}.

Lemma decide_loop (Percent : list (list F)) (percent_ : F) (N : nat)
  (dec0 : list Z) (m : nat) :
  length dec0 = N -> m <= N ->
  exists g0 g1 dec,
    fold_left (fun s i => decide_step Percent percent_ i s) (seq 0 m)
      (0, 0, dec0) = (g0, g1, dec) /\
    length dec = N /\
    g0 = length (filter (fun k => fltb percent_
                                    (nth 0 (nth k Percent []) (ofZ 0)))
                        (seq 0 m)) /\
    g0 + g1 = m /\
    forall k, k < m ->
      nth_error dec k
      = Some (if fltb percent_ (nth 0 (nth k Percent []) (ofZ 0))
              then 0%Z else 1%Z).
Proof.
  intros Hlen; induction m as [|m IH]; intros Hm.
  - exists 0, 0, dec0; simpl; repeat split; auto; intros k Hk; lia.
  - destruct (IH ltac:(lia)) as (g0 & g1 & dec & Hrun & Hl & Hg0 & Hsum & Hk).
    rewrite seq_S, fold_left_app, Hrun, filter_app, length_app; simpl.
    unfold decide_step.
    destruct (fltb percent_ (nth 0 (nth m Percent []) (ofZ 0))) eqn:E;
      simpl; do 3 eexists; (split; [reflexivity|]);
      (split; [rewrite upd_length; exact Hl|]);
      (split; [lia|]); (split; [lia|]);
      intros k Hlt;
      (destruct (Nat.eq_dec k m) as [-> | Hne];
       [rewrite upd_nth_same by lia; rewrite E; reflexivity
       |rewrite upd_nth_other by lia; apply Hk; lia]).
Qed.

Lemma decide_loop3 (Percent : list (list F)) (percent_ : F) (N : nat)
  (dec0 : list Z) (m : nat) :
  length dec0 = N -> m <= N ->
  (forall k, k < N -> nth_error dec0 k = Some 0%Z) ->
  let above (j k : nat) := fltb percent_ (nth j (nth k Percent []) (ofZ 0)) in
  exists g0 g1 g2 dec,
    fold_left (fun s i => Kfold.decide_step Percent percent_ i s) (seq 0 m)
      (0, 0, 0, dec0) = (g0, g1, g2, dec) /\
    length dec = N /\
    g0 = length (filter (above 0) (seq 0 m)) /\
    g0 + g1 + g2
    = length (filter (fun k => above 0 k || above 1 k || above 2 k)
                (seq 0 m)) /\
    (forall k, m <= k < N -> nth_error dec k = Some 0%Z) /\
    forall k, k < m ->
      nth_error dec k
      = Some (if above 0 k then 0%Z
              else if above 1 k then 1%Z
              else if above 2 k then 2%Z else 0%Z).
Proof.
  intros Hlen Hm H0 above; revert Hm; induction m as [|m IH]; intros Hm.
  - exists 0, 0, 0, dec0; simpl; repeat split; auto.
    + intros k Hk; apply H0; lia.
    + intros k Hk; lia.
  - destruct (IH ltac:(lia))
      as (g0 & g1 & g2 & dec & Hrun & Hl & Hg0 & Hsum & Hrest & Hk).
    rewrite seq_S, fold_left_app, Hrun, !filter_app, !length_app; simpl.
    unfold Kfold.decide_step.
    fold (above 0 m); fold (above 1 m); fold (above 2 m).
    destruct (above 0 m) eqn:E0;
      [|destruct (above 1 m) eqn:E1; [|destruct (above 2 m) eqn:E2]];
      simpl; do 4 eexists; (split; [reflexivity|]);
      (split; [rewrite ?upd_length; exact Hl|]);
      (split; [lia|]); (split; [lia|]);
      (split;
       [intros k Hlt; rewrite ?upd_nth_other by lia; apply Hrest; lia|]);
      intros k Hlt;
      (destruct (Nat.eq_dec k m) as [-> | Hne];
       [rewrite ?upd_nth_same by lia; rewrite ?E0, ?E1, ?E2;
        try reflexivity; apply Hrest; lia
       |rewrite ?upd_nth_other by lia; apply Hk; lia]).
Qed.

End Deciding.

Section GroupingRun.

Context {F : Type} {SF : Scalar F}.

Lemma np_max_total (l : list Z) :
  l <> [] -> Forall (fun c => (1 <= c)%Z) l ->
  exists n, np_max l = Ok n /\ (1 <= n)%Z /\
            Forall (fun c => (1 <= c <= Z.of_nat (Z.to_nat n))%Z) l.
Proof.
  intros Hne Hpos; destruct l as [|x l]; [congruence|].
  exists (fold_left Z.max l x); split; [reflexivity|].
  pose proof (np_max_ge (x :: l) _ eq_refl) as Hle.
  assert (H1 : (1 <= fold_left Z.max l x)%Z).
  { inversion Hpos; inversion Hle; subst; lia. }
  split; [exact H1|].
  rewrite Forall_forall in *; intros c Hc.
  specialize (Hpos c Hc); specialize (Hle c Hc); cbv beta in *; lia.
Qed.

Lemma np_zeros_ok (n : Z) (w : nat) :
  (0 <= n)%Z -> np_zeros n w = Ok (repeat (repeat 0%Z w) (Z.to_nat n)).
Proof.
  intros Hn; unfold np_zeros.
  destruct (Z.ltb_spec n 0); [lia | reflexivity].
Qed.

Lemma label_of_ok (dec : list Z) (c v : Z) :
  (1 <= c <= Z.of_nat (length dec))%Z ->
  nth_error dec (Z.to_nat (c - 1)) = Some v ->
  label_of dec c = Ok v.
Proof.
  intros Hc Hv; unfold label_of.
  rewrite (np_index_pos _ c Hc); simpl.
  apply getitem_ok; exact Hv.
Qed.

(** The run of [_grouping_algorithm] on labels of [1..] and a target no
    longer than the labels, in closed form. *)
Lemma grouping_run (SODA_IDX_ target_ : list Z) (percent_ : F) :
  SODA_IDX_ <> [] -> Forall (fun c => (1 <= c)%Z) SODA_IDX_ ->
  length target_ <= length SODA_IDX_ ->
  let good c :=
    fltb percent_ (share SODA_IDX_ target_ c (fun t => (t =? 0)%Z)) in
  exists n g0 g1,
    np_max SODA_IDX_ = Ok n /\ (1 <= n)%Z /\
    _grouping_algorithm SODA_IDX_ target_ percent_
    = Ok (map (fun c => if good c then 0%Z else 1%Z) SODA_IDX_,
          {| Data_Clouds := n; Good_Tools_Groups := g0;
             Worn_Tools_Groups := g1; Samples := length SODA_IDX_ |}) /\
    g0 = length (filter (fun k => good (Z.of_nat k + 1)%Z)
                   (seq 0 (Z.to_nat n))) /\
    Z.of_nat (g0 + g1) = n.
Proof.
  intros Hne Hpos Hlen good.
  destruct (np_max_total SODA_IDX_ Hne Hpos) as (n & Hmax & Hn & Hidx).
  destruct (count_loop (Z.to_nat n) SODA_IDX_ target_ Hidx Hlen)
    as (A & T & Hcount & Hcells).
  set (Percent :=
         map (fun i => [percentage A T i 0; percentage A T i 1; ofZ 0])
           (seq 0 (Z.to_nat n))).
  assert (HP : forall k, k < Z.to_nat n ->
             fltb percent_ (nth 0 (nth k Percent []) (ofZ 0))
             = good (Z.of_nat k + 1)%Z).
  { intros k Hk; unfold Percent; rewrite nth_map_seq by exact Hk; simpl.
    unfold good, share, percentage.
    destruct (Hcells k) as (-> & _ & ->); reflexivity. }
  destruct (decide_loop Percent percent_ (Z.to_nat n)
              (repeat 0%Z (Z.to_nat n)) (Z.to_nat n)
              (repeat_length _ _) (le_n _))
    as (g0 & g1 & dec & Hdec & Hl & Hg0 & Hsum & Hk).
  exists n, g0, g1.
  split; [exact Hmax|]; split; [exact Hn|].
  split; [|split].
  - unfold _grouping_algorithm; rewrite Hmax; cbn [rbind].
    rewrite !np_zeros_ok by lia; cbn [rbind].
    rewrite Hcount; cbn [rbind].
    fold Percent.
    replace (length Percent) with (Z.to_nat n)
      by (unfold Percent; rewrite length_map, length_seq; reflexivity).
    rewrite Hdec.
    rewrite (map_res_map (label_of dec)
               (fun c => if good c then 0%Z else 1%Z)); [reflexivity|].
    intros c Hc.
    rewrite Forall_forall in Hidx; specialize (Hidx c Hc); cbv beta in Hidx.
    apply label_of_ok; [rewrite Hl; exact Hidx|].
    rewrite Hk by lia; rewrite HP by lia.
    replace (Z.of_nat (Z.to_nat (c - 1)) + 1)%Z with c by lia.
    reflexivity.
  - rewrite Hg0; f_equal; apply filter_ext_in.
    intros k Hin; apply in_seq in Hin; apply HP; lia.
  - lia.
Qed.

(** The same for the variant with three classes. *)
Lemma grouping3_run (SODA_IDX_ target_ : list Z) (percent_ : F) :
  SODA_IDX_ <> [] -> Forall (fun c => (1 <= c)%Z) SODA_IDX_ ->
  length target_ <= length SODA_IDX_ ->
  let above j c :=
    fltb percent_ (share SODA_IDX_ target_ c (fun t => (t =? j)%Z)) in
  exists n g0 g1 g2,
    np_max SODA_IDX_ = Ok n /\ (1 <= n)%Z /\
    Kfold._grouping_algorithm SODA_IDX_ target_ percent_
    = Ok (map (fun c => if above 0%Z c then 0%Z
                        else if above 1%Z c then 1%Z
                        else if above 2%Z c then 2%Z else 0%Z) SODA_IDX_,
          {| Kfold.Data_Clouds := n; Kfold.Good_Tools_Groups := g0;
             Kfold.Imminence_Tools_Groups := g1;
             Kfold.Worn_Tools_Groups := g2;
             Kfold.Samples := length SODA_IDX_ |}) /\
    g0 + g1 + g2
    = length (filter (fun k => let c := (Z.of_nat k + 1)%Z in
                               above 0%Z c || above 1%Z c || above 2%Z c)
                (seq 0 (Z.to_nat n))).
Proof.
  intros Hne Hpos Hlen above.
  destruct (np_max_total SODA_IDX_ Hne Hpos) as (n & Hmax & Hn & Hidx).
  destruct (count_loop3 (Z.to_nat n) SODA_IDX_ target_ Hidx Hlen)
    as (A & T & Hcount & Hcells).
  set (Percent :=
         map (fun i => [percentage A T i 0; percentage A T i 1;
                        percentage A T i 2])
           (seq 0 (Z.to_nat n))).
  assert (HP : forall k, k < Z.to_nat n ->
             fltb percent_ (nth 0 (nth k Percent []) (ofZ 0))
             = above 0%Z (Z.of_nat k + 1)%Z /\
             fltb percent_ (nth 1 (nth k Percent []) (ofZ 0))
             = above 1%Z (Z.of_nat k + 1)%Z /\
             fltb percent_ (nth 2 (nth k Percent []) (ofZ 0))
             = above 2%Z (Z.of_nat k + 1)%Z).
  { intros k Hk; unfold Percent; rewrite nth_map_seq by exact Hk; simpl.
    unfold above, share, percentage.
    destruct (Hcells k) as (-> & -> & -> & ->); repeat split. }
  destruct (decide_loop3 Percent percent_ (Z.to_nat n)
              (repeat 0%Z (Z.to_nat n)) (Z.to_nat n)
              (repeat_length _ _) (le_n _))
    as (g0 & g1 & g2 & dec & Hdec & Hl & Hg0 & Hsum & _ & Hk).
  { intros k Hk; rewrite nth_error_repeat by exact Hk; reflexivity. }
  exists n, g0, g1, g2.
  split; [exact Hmax|]; split; [exact Hn|].
  split.
  - unfold Kfold._grouping_algorithm; rewrite Hmax; cbn [rbind].
    rewrite !np_zeros_ok by lia; cbn [rbind].
    rewrite Hcount; cbn [rbind].
    fold Percent.
    replace (length Percent) with (Z.to_nat n)
      by (unfold Percent; rewrite length_map, length_seq; reflexivity).
    rewrite Hdec.
    rewrite (map_res_map (label_of dec)
               (fun c => if above 0%Z c then 0%Z
                         else if above 1%Z c then 1%Z
                         else if above 2%Z c then 2%Z else 0%Z));
      [reflexivity|].
    intros c Hc.
    rewrite Forall_forall in Hidx; specialize (Hidx c Hc); cbv beta in Hidx.
    apply label_of_ok; [rewrite Hl; exact Hidx|].
    rewrite Hk by lia.
    destruct (HP (Z.to_nat (c - 1)) ltac:(lia)) as (-> & -> & ->).
    replace (Z.of_nat (Z.to_nat (c - 1)) + 1)%Z with c by lia.
    reflexivity.
  - rewrite Hsum; f_equal; apply filter_ext_in.
    intros k Hin; apply in_seq in Hin.
    destruct (HP k ltac:(lia)) as (-> & -> & ->); reflexivity.
Qed.

End GroupingRun.

Section GroupingProperties.

Context {F : Type} {SF : Scalar F}.

(** X11.  [_grouping_algorithm] raises [ValueError] on an empty list of
    labels (from [np.max]), raises [IndexError] when the target is longer
    than the list of labels (the counting loop reads the labels past
    their end), and otherwise, the labels being positive, returns one
    classifier label per sample and reports the number of samples. *)
Theorem grouping_returns :
  (forall (target_ : list Z) (percent_ : F),
     _grouping_algorithm [] target_ percent_ = Raise ValueError) /\
  (forall (SODA_IDX_ target_ : list Z) (percent_ : F),
     SODA_IDX_ <> [] -> Forall (fun c => (1 <= c)%Z) SODA_IDX_ ->
     length SODA_IDX_ < length target_ ->
     _grouping_algorithm SODA_IDX_ target_ percent_ = Raise IndexError) /\
  (forall (SODA_IDX_ target_ : list Z) (percent_ : F),
     SODA_IDX_ <> [] -> Forall (fun c => (1 <= c)%Z) SODA_IDX_ ->
     length target_ <= length SODA_IDX_ ->
     exists labels res,
       _grouping_algorithm SODA_IDX_ target_ percent_ = Ok (labels, res) /\
       length labels = length SODA_IDX_ /\
       Samples res = length SODA_IDX_).
Proof.
  split; [reflexivity|]; split.
  - intros SODA_IDX_ target_ percent_ Hne Hpos Hlen.
    destruct (np_max_total SODA_IDX_ Hne Hpos) as (n & Hmax & Hn & Hidx).
    unfold _grouping_algorithm; rewrite Hmax; cbn [rbind].
    rewrite !np_zeros_ok by lia; cbn [rbind].
    rewrite (count_overrun (Z.to_nat n) SODA_IDX_ target_ Hidx Hlen).
    reflexivity.
  - intros SODA_IDX_ target_ percent_ Hne Hpos Hlen.
    destruct (grouping_run SODA_IDX_ target_ percent_ Hne Hpos Hlen)
      as (n & g0 & g1 & _ & _ & Hrun & _).
    do 2 eexists; split; [exact Hrun|].
    split; [apply length_map | reflexivity].
Qed.

(** X12.  On positive labels and a target no longer than the labels,
    [_grouping_algorithm] gives every sample of cloud [c] the label 0
    when [percent_ < (zeros / size) * 100] holds in the arithmetic of the
    code, and 1 otherwise, where [size] counts the samples of the cloud
    that have a target and [zeros] those of them whose target is 0.  It
    reports the largest label as [Data_Clouds], the number of clouds of
    [1..Data_Clouds] that pass the test as [Good_Tools_Groups], and the
    two group counts add up to [Data_Clouds]. *)
Theorem grouping_labels (SODA_IDX_ target_ : list Z) (percent_ : F) :
  SODA_IDX_ <> [] -> Forall (fun c => (1 <= c)%Z) SODA_IDX_ ->
  length target_ <= length SODA_IDX_ ->
  exists res,
    _grouping_algorithm SODA_IDX_ target_ percent_
    = Ok (map (fun c =>
                 if fltb percent_
                      (share SODA_IDX_ target_ c (fun t => (t =? 0)%Z))
                 then 0%Z else 1%Z) SODA_IDX_, res) /\
    np_max SODA_IDX_ = Ok (Data_Clouds res) /\
    Good_Tools_Groups res
    = length (filter
                (fun k => fltb percent_
                            (share SODA_IDX_ target_ (Z.of_nat k + 1)
                               (fun t => (t =? 0)%Z)))
                (seq 0 (Z.to_nat (Data_Clouds res)))) /\
    Z.of_nat (Good_Tools_Groups res + Worn_Tools_Groups res)
    = Data_Clouds res.
Proof.
  intros Hne Hpos Hlen.
  destruct (grouping_run SODA_IDX_ target_ percent_ Hne Hpos Hlen)
    as (n & g0 & g1 & Hmax & _ & Hrun & Hg0 & Hsum).
  eexists; split; [exact Hrun|].
  split; [exact Hmax|]; split; [exact Hg0 | exact Hsum].
Qed.

(** X15.  The variant of [script_kfold.py]: a sample of cloud [c] is
    labelled with the first of the classes 0, 1, 2 whose share of the
    cloud is above [percent_], and with 0 when none is.  Only the clouds
    with a class above [percent_] are counted in a group, so the three
    group counts add up to the number of those clouds, at most
    [Data_Clouds]. *)
Theorem kfold_grouping_labels (SODA_IDX_ target_ : list Z) (percent_ : F) :
  SODA_IDX_ <> [] -> Forall (fun c => (1 <= c)%Z) SODA_IDX_ ->
  length target_ <= length SODA_IDX_ ->
  let above j c :=
    fltb percent_ (share SODA_IDX_ target_ c (fun t => (t =? j)%Z)) in
  exists res,
    Kfold._grouping_algorithm SODA_IDX_ target_ percent_
    = Ok (map (fun c => if above 0%Z c then 0%Z
                        else if above 1%Z c then 1%Z
                        else if above 2%Z c then 2%Z else 0%Z) SODA_IDX_,
          res) /\
    np_max SODA_IDX_ = Ok (Kfold.Data_Clouds res) /\
    Kfold.Samples res = length SODA_IDX_ /\
    Kfold.Good_Tools_Groups res + Kfold.Imminence_Tools_Groups res
    + Kfold.Worn_Tools_Groups res
    = length (filter (fun k => let c := (Z.of_nat k + 1)%Z in
                               above 0%Z c || above 1%Z c || above 2%Z c)
                (seq 0 (Z.to_nat (Kfold.Data_Clouds res)))) /\
    (Z.of_nat (Kfold.Good_Tools_Groups res + Kfold.Imminence_Tools_Groups res
               + Kfold.Worn_Tools_Groups res)
     <= Kfold.Data_Clouds res)%Z.
Proof.
  intros Hne Hpos Hlen above.
  destruct (grouping3_run SODA_IDX_ target_ percent_ Hne Hpos Hlen)
    as (n & g0 & g1 & g2 & Hmax & Hn & Hrun & Hsum).
  eexists; split; [exact Hrun|].
  split; [exact Hmax|]; split; [reflexivity|]; split; [exact Hsum|].
  cbn [Kfold.Good_Tools_Groups Kfold.Imminence_Tools_Groups
       Kfold.Worn_Tools_Groups Kfold.Data_Clouds].
  rewrite Hsum.
  etransitivity; [apply inj_le, filter_length_le|].
  rewrite length_seq; lia.
Qed.

End GroupingProperties.

Lemma float_ltb_nan (p : float) :
  PrimFloat.ltb p (PrimFloat.mul (PrimFloat.div (float_ofZ 0) (float_ofZ 0))
                     (float_ofZ 100)) = false.
Proof.
  rewrite FloatAxioms.ltb_spec.
  replace (Prim2SF (PrimFloat.mul (PrimFloat.div (float_ofZ 0) (float_ofZ 0))
                      (float_ofZ 100))) with S754_nan
    by (vm_compute; reflexivity).
  unfold SFltb; destruct (Prim2SF p) as [s|s| |s m e]; reflexivity.
Qed.

(** X14.  In floating point, with a target shorter than the labels: the
    samples past the end of the target are not counted, and a cloud none
    of whose samples is counted has the share [0/0], a NaN, which is not
    above any [percent_]; its samples are labelled 1. *)
Theorem grouping_unseen_cloud (SODA_IDX_ target_ : list Z) (percent_ : float)
  (c : Z) :
  SODA_IDX_ <> [] -> Forall (fun c => (1 <= c)%Z) SODA_IDX_ ->
  length target_ <= length SODA_IDX_ ->
  tally (combine SODA_IDX_ target_) c (fun _ => true) = 0%Z ->
  exists labels res,
    _grouping_algorithm SODA_IDX_ target_ percent_ = Ok (labels, res) /\
    forall i, nth_error SODA_IDX_ i = Some c ->
              nth_error labels i = Some 1%Z.
Proof.
  intros Hne Hpos Hlen Hsize.
  destruct (grouping_run SODA_IDX_ target_ percent_ Hne Hpos Hlen)
    as (n & g0 & g1 & _ & _ & Hrun & _).
  do 2 eexists; split; [exact Hrun|].
  intros i Hc; rewrite (map_nth_error _ _ _ Hc).
  unfold share; rewrite Hsize.
  pose proof (tally_le (combine SODA_IDX_ target_) c (fun t => (t =? 0)%Z))
    as Hz.
  replace (tally (combine SODA_IDX_ target_) c (fun t => (t =? 0)%Z))
    with 0%Z by lia.
  cbn [fltb fdiv fmul ofZ float_scalar].
  rewrite float_ltb_nan; reflexivity.
Qed.

Section FitStages.

Context {F : Type} {SF : Scalar F}.

Lemma np_max_in (l : list Z) (m : Z) : np_max l = Ok m -> In m l.
Proof.
  destruct l as [|x l]; simpl; intros H; [discriminate|].
  injection H as <-.
  revert x; induction l as [|a l IH]; intros x; simpl; [left; reflexivity|].
  destruct (IH (Z.max x a)) as [H | H]; [|right; right; exact H].
  destruct (Z.max_spec x a) as [[_ Hm] | [_ Hm]]; rewrite Hm in *.
  - right; left; exact H.
  - left; exact H.
Qed.

(** The labels of a completed partitioning: one per row of the data, at
    least one, each between 1 and the number of centres. *)
Lemma soda_idx_shape (Input : input F) (h : heap F) (d : matrix F)
  (out : output F) :
  getitem h (StaticData Input) = Ok d ->
  fst (SelfOrganisedDirectionAwareDataPartitioning Input h) = Ok out ->
  d <> [] /\ length (IDX out) = length d /\
  Forall (fun l => (1 <= l <= Z.of_nat (length (C out)))%Z) (IDX out).
Proof.
  intros Hd Hrun; rewrite (soda_run _ _ _ Hd) in Hrun; simpl in Hrun.
  unfold soda_pure in Hrun.
  destruct (grid_pure d (GridSize Input)) as [[g|e] objs]; [|discriminate].
  destruct (density_pure d (DistanceType Input)) as [[[[GD D1] D2] U]|e] eqn:HU;
    [|discriminate].
  apply density_pure_length in HU; destruct HU as [HU _].
  simpl in Hrun; unfold stages_pure in Hrun.
  destruct g as [[[[X1 AvD1] AvD2] gt] ga].
  bind_inv Hrun as r Hchess.
  destruct r as [[[[[BOX BOX_miu] BOX_X] BOX_S] BOXMT] NB].
  bind_inv Hrun as c Hpeak; destruct c as [Center K].
  bind_inv Hrun as B Hcloud; injection Hrun as <-; simpl.
  assert (HUne : U <> []).
  { intros ->; unfold chessboard_division_njit in Hchess.
    simpl in Hchess; discriminate. }
  apply cloud_labels in Hcloud; destruct Hcloud as [HL Hlab].
  split; [intros ->; destruct U; [congruence | discriminate]|].
  rewrite length_map; split; [lia|].
  apply Forall_map; revert Hlab; apply Forall_impl; intros b Hb; lia.
Qed.

(** X16.  The stages [_soda] and [_grouping_algorithm] of [fit] compose:
    whenever the partitioning of the projected data completes and the
    target is no longer than the data, the grouping algorithm returns on
    its labels, with one classifier label per row of the data, and the
    number of clouds it reports is at least 1 and at most the number of
    centres of the partitioning. *)
Theorem soda_then_grouping (granularity_ percent_ : F) (X_projected_ : loc)
  (h : heap F) (d : matrix F) (out : output F) (target_ : list Z) :
  getitem h X_projected_ = Ok d ->
  fst (_soda granularity_ X_projected_ h) = Ok out ->
  length target_ <= length d ->
  exists labels res,
    _grouping_algorithm (IDX out) target_ percent_ = Ok (labels, res) /\
    length labels = length d /\ Samples res = length d /\
    (1 <= Data_Clouds res <= Z.of_nat (length (C out)))%Z.
Proof.
  intros Hd Hrun Hlen; unfold _soda in Hrun.
  destruct (soda_idx_shape
              {| StaticData := X_projected_; GridSize := granularity_;
                 DistanceType := "euclidean" |} h d out Hd Hrun)
    as (Hne & HL & Hidx).
  assert (Hine : IDX out <> [])
    by (intros E; rewrite E in HL; destruct d; [congruence | discriminate]).
  assert (Hpos : Forall (fun c => (1 <= c)%Z) (IDX out))
    by (revert Hidx; apply Forall_impl; intros c Hc; lia).
  destruct (grouping_run (IDX out) target_ percent_ Hine Hpos
              ltac:(rewrite HL; exact Hlen))
    as (n & g0 & g1 & Hmax & Hn & Hgo & _).
  do 2 eexists; split; [exact Hgo|].
  split; [rewrite length_map; exact HL|]; split; [exact HL|].
  cbn [Data_Clouds]; split; [exact Hn|].
  apply np_max_in in Hmax.
  rewrite Forall_forall in Hidx; apply (Hidx n Hmax).
Qed.

End FitStages.

(** ** The further properties at sample inputs *)

Lemma chessboard_returns_witness :
  exists r,
    chessboard_division_njit ex_U ex_MM (fl 2) (fl 1) "euclidean" = Ok r.
Proof.
  apply (proj2 (chessboard_returns ex_U ex_MM (fl 2) (fl 1) "euclidean")).
  - discriminate.
  - vm_compute; lia.
  - repeat constructor.
  - reflexivity.
Defined.

Lemma chessboard_seeds_witness :
  nth_error (flm [[1;10];[10;1]]%Z) 0 = nth_error ex_U 0 /\
  (forall r, In r (flm [[1;10];[10;1]]%Z) -> In r ex_U) /\
  Forall (fun n => (1 <= n)%Z) [2; 1]%Z.
Proof.
  apply (chessboard_seeds ex_U ex_MM (fl 2) (fl 1) "euclidean"
           (flm [[1;10];[10;1]]%Z)
           [[1.5%float; fl 10]; [fl 10; fl 1]]
           [102.5%float; fl 101] [2; 1]%Z (map fl [5;1]%Z) 2).
  vm_compute; reflexivity.
Defined.

Lemma peak_exists_witness :
  exists Centers K,
    ChessBoard_PeakIdentification_njit ex_BM ex_MT 3 (fl 2) (fl 1) "euclidean"
    = Ok (Centers, K) /\ 1 <= K /\ K = length Centers.
Proof.
  apply (peak_exists ex_BM ex_MT 3 (fl 2) (fl 1) "euclidean").
  - discriminate.
  - reflexivity.
  - intros i Hi; destruct i as [|[|[|i]]];
      [vm_compute; auto | vm_compute; auto | vm_compute; auto
      | simpl in Hi; lia].
  - intros j Hj; destruct j as [|[|[|j]]];
      [vm_compute; reflexivity | vm_compute; reflexivity
      | vm_compute; reflexivity | simpl in Hj; lia].
Defined.

Lemma cloud_nearest_centre_witness :
  exists B,
    cloud_member_recruitment_njit 2 ex_centres ex_data (fl 2) (fl 1)
      "euclidean" = Ok B /\
    length B = length ex_data /\
    forall ii x b,
      nth_error ex_data ii = Some x -> nth_error B ii = Some b ->
      exists distance,
        hand_dist x ex_centres = Ok distance /\ b < length ex_centres /\
        (forall c, c < length ex_centres ->
           fltb (total_dist distance c) (total_dist distance b) = false) /\
        (forall c, c < b ->
           fltb (total_dist distance c) (total_dist distance b) = false /\
           feqb (total_dist distance c) (total_dist distance b) = false).
Proof.
  apply (cloud_nearest_centre 2 2 ex_centres ex_data (fl 2) (fl 1)
           "euclidean").
  - discriminate.
  - lia.
  - repeat constructor.
  - repeat constructor.
Defined.

Lemma density_ranking_witness :
  match Globaldensity_Calculator 0 "euclidean" [ex_data] with
  | (Ok (GD, D1, D2, l), h') =>
      exists index,
        Permutation index (seq 0 (length ex_data)) /\
        h' = [ex_data] ++ [map (fun i => nth i ex_data []) index] /\
        l = 1 /\
        GD = map (fun i => (nth i D2 (ofZ 0) + nth i D1 (ofZ 0))%sc) index /\
        (Forall (fun x => fisnan x = false) GD ->
         forall p q x y, p < q ->
           nth_error GD p = Some x -> nth_error GD q = Some y ->
           fltb x y = false)
  | (Raise _, _) => False
  end.
Proof.
  destruct (Globaldensity_Calculator 0 "euclidean" [ex_data])
    as [[[[[GD D1] D2] l] | e] h'] eqn:E.
  - apply (density_ranking 0 "euclidean" [ex_data] h' ex_data GD D1 D2 l);
      [reflexivity | exact E].
  - vm_compute in E; discriminate.
Defined.

Lemma soda_empty_matrix_witness :
  (exists g, fst (grid_set (F:=float) 0 (fl 2) [[]]) = Ok g) /\
  fst (SelfOrganisedDirectionAwareDataPartitioning ex_input [[]])
  = Raise TypeError.
Proof.
  apply (soda_empty_matrix ex_input [[]]); reflexivity.
Defined.

Lemma soda_unknown_distance_witness :
  fst (SelfOrganisedDirectionAwareDataPartitioning ex_input_unknown [ex_data])
  = Raise UnboundLocalError.
Proof.
  destruct (fst (grid_set (F:=float) 0 (fl 2) [ex_data])) as [g|e] eqn:E.
  - apply (soda_unknown_distance ex_input_unknown [ex_data] ex_data g);
      [reflexivity | exact E | reflexivity | reflexivity].
  - vm_compute in E; discriminate.
Defined.

Lemma hand_dist_metric_witness :
  exists de da : R,
    hand_dist ex_ra [ex_rb] = Ok [(de, da)] /\
    hand_dist ex_rb [ex_ra] = Ok [(de, da)] /\
    hand_dist ex_ra [ex_ra] = Ok [(0%R, 0%R)] /\
    (0 <= de)%R /\ (0 <= da <= sqrt 2)%R.
Proof.
  apply (hand_dist_metric ex_ra ex_rb).
  - reflexivity.
  - unfold ex_ra, sumsq, vsum; simpl; lra.
  - unfold ex_rb, sumsq, vsum; simpl; lra.
Defined.

Lemma pi_calculator_mean_distance_witness :
  pi_calculator ex_real "euclidean"
  = Ok (map (fun x => (rsum (map (sqdist x) ex_real)
                       / INR (length ex_real))%R) ex_real).
Proof.
  apply (pi_calculator_mean_distance ex_real).
  - discriminate.
  - repeat constructor.
Defined.


Lemma grouping_returns_witness :
  _grouping_algorithm ex_idx ex_target_long (fl 50) = Raise IndexError /\
  exists labels res,
    _grouping_algorithm ex_idx ex_target (fl 50) = Ok (labels, res) /\
    length labels = length ex_idx /\ Samples res = length ex_idx.
Proof.
  destruct (grouping_returns (F:=float)) as (_ & Hlong & Hok).
  split.
  - apply Hlong; [discriminate | repeat constructor; lia | simpl; lia].
  - apply Hok; [discriminate | repeat constructor; lia | simpl; lia].
Defined.

Lemma grouping_labels_witness :
  exists res,
    _grouping_algorithm ex_idx ex_target (fl 50)
    = Ok (map (fun c =>
                 if fltb (fl 50)
                      (share ex_idx ex_target c (fun t => (t =? 0)%Z))
                 then 0%Z else 1%Z) ex_idx, res) /\
    np_max ex_idx = Ok (Data_Clouds res) /\
    Good_Tools_Groups res
    = length (filter
                (fun k => fltb (fl 50)
                            (share ex_idx ex_target (Z.of_nat k + 1)
                               (fun t => (t =? 0)%Z)))
                (seq 0 (Z.to_nat (Data_Clouds res)))) /\
    Z.of_nat (Good_Tools_Groups res + Worn_Tools_Groups res)
    = Data_Clouds res.
Proof.
  apply (grouping_labels ex_idx ex_target (fl 50));
    [discriminate | repeat constructor; lia | simpl; lia].
Defined.

Lemma grouping_unseen_cloud_witness :
  exists labels res,
    _grouping_algorithm ex_idx ex_target_short (fl 50) = Ok (labels, res) /\
    forall i, nth_error ex_idx i = Some 2%Z ->
              nth_error labels i = Some 1%Z.
Proof.
  apply (grouping_unseen_cloud ex_idx ex_target_short (fl 50) 2%Z);
    [discriminate | repeat constructor; lia | simpl; lia | reflexivity].
Defined.

Lemma kfold_grouping_labels_witness :
  exists res,
    Kfold._grouping_algorithm ex_idx ex_target (fl 50)
    = Ok (map (fun c =>
                 if fltb (fl 50)
                      (share ex_idx ex_target c (fun t => (t =? 0)%Z))
                 then 0%Z
                 else if fltb (fl 50)
                           (share ex_idx ex_target c (fun t => (t =? 1)%Z))
                 then 1%Z
                 else if fltb (fl 50)
                           (share ex_idx ex_target c (fun t => (t =? 2)%Z))
                 then 2%Z else 0%Z) ex_idx, res) /\
    np_max ex_idx = Ok (Kfold.Data_Clouds res) /\
    Kfold.Samples res = length ex_idx.
Proof.
  destruct (kfold_grouping_labels ex_idx ex_target (fl 50))
    as (res & Hrun & Hmax & Hs & _);
    [discriminate | repeat constructor; lia | simpl; lia|].
  exists res; split; [exact Hrun|]; split; [exact Hmax | exact Hs].
Defined.

Lemma soda_then_grouping_witness :
  exists labels res,
    _grouping_algorithm (IDX ex_out) [0; 0; 1; 1]%Z (fl 50) = Ok (labels, res)
    /\ length labels = length ex_data /\ Samples res = length ex_data /\
    (1 <= Data_Clouds res <= Z.of_nat (length (C ex_out)))%Z.
Proof.
  apply (soda_then_grouping (fl 2) (fl 50) 0 [ex_data] ex_data ex_out
           [0; 0; 1; 1]%Z).
  - reflexivity.
  - vm_compute; reflexivity.
  - simpl; lia.
Defined.
